(** * SyndromeLearner: rule induction over time-slotted counts

    A shallow embedding of the rule learner's core (label-wise statistics,
    rule evaluation, exact refinement search, thresholds subset, top-down
    induction and the sequential driver) together with the properties of
    its specification.

    Conventions of the embedding.
    - [uint32] values are integers of [Z]; every arithmetic operation the
      source performs on them is written with its wrap-around ([wrap32]).
    - [float64] values are Rocq's primitive binary64 floats, so NaN,
      infinities and the comparison rules are those of IEEE 754.
      [float32] feature values and thresholds are carried by the same type
      (every binary32 value is a binary64 value and comparisons agree).
    - C arrays are lists; [rd] reads and [wr] writes a position.  The
      source does no bounds checking; theorems state the bounds they need.
    - Objects mutated in place become explicit state that is passed on. *)

From Stdlib Require Import ZArith List Lia Bool Floats.
From stdpp Require Import base list gmap.
Import ListNotations.
Open Scope Z_scope.

(** ** Machine integers *)

Module Uint32.

Definition modulus : Z := 2 ^ 32.

Definition wrap32 (z : Z) : Z := z mod modulus.

Definition add (a b : Z) : Z := wrap32 (a + b).

Definition sub (a b : Z) : Z := wrap32 (a - b).

Definition in_range (z : Z) : Prop := 0 <= z < modulus.

End Uint32.

Import Uint32.

(** ** Arrays *)

Definition rd (l : list Z) (i : Z) : Z := default 0 (l !! Z.to_nat i).

Definition wr (l : list Z) (i : Z) (v : Z) : list Z := <[Z.to_nat i := v]> l.

(** ** float64 *)

Module Float64.

Definition fadd := PrimFloat.add.
Definition fsub := PrimFloat.sub.
Definition fmul := PrimFloat.mul.
Definition fdiv := PrimFloat.div.
Definition fsqrt := PrimFloat.sqrt.
Definition fabs := PrimFloat.abs.
Definition fneg := PrimFloat.opp.
Definition flt := PrimFloat.ltb.
Definition fle := PrimFloat.leb.
Definition feq := PrimFloat.eqb.

(** [(float64) u] for a [uint32] value [u]: exact. *)
Definition of_uint32 (z : Z) : float := PrimFloat.of_uint63 (Uint63.of_Z z).

(** [std::pow(x, 2)]: the square, correctly rounded. *)
Definition pow2 (x : float) : float := fmul x x.

Definition is_nan (x : float) : bool := negb (feq x x).

(** [std::isfinite]: neither NaN nor an infinity. *)
Definition is_finite (x : float) : bool := negb (is_nan x) && negb (feq (fabs x) infinity).

End Float64.

Import Float64.

(** ** float32

    A float32 value is a [spec_float] of precision 24 and maximal exponent
    128; every float32 value is a float64 value. *)

Module Float32.

(** [(float32) u] for a [uint32] value [u], rounded to nearest. *)
Definition of_uint32 (u : Z) : spec_float := binary_normalize 24 128 u 0 false.

Definition mul : spec_float -> spec_float -> spec_float := SFmul 24 128.

(** [(uint32) x]: the value without its fraction.  The conversion is
    defined when that value fits; it is taken modulo 2^32 here. *)
Definition to_uint32 (x : spec_float) : Z :=
  match x with
  | S754_finite s m e =>
      wrap32 (cond_Zopp s (if 0 <=? e then Z.pos m * 2 ^ e else Z.pos m / 2 ^ (- e)))
  | _ => 0
  end.

(** [(float32) x] for a float64 [x], rounded to nearest. *)
Definition of_float64 (x : float) : spec_float :=
  match Prim2SF x with
  | S754_finite s m e => binary_round 24 128 s m e
  | y => y
  end.

(** [(float64) x]: exact. *)
Definition to_float64 (x : spec_float) : float :=
  SF2Prim match x with
          | S754_finite s m e => binary_round 53 1024 s m e
          | y => y
          end.

(** A float64 value as it is after it has been stored in a float32. *)
Definition round (x : float) : float := to_float64 (of_float64 x).

(** 0.5 *)
Definition half : spec_float := S754_finite false 8388608 (-24).

End Float32.

(** ** Label matrix (CContiguousLabelMatrix)

    [timeSlots] maps every example to its time slot, [indices] holds the
    first example of every slot followed by the number of examples, and
    [values] the ground-truth count of every slot. *)

Record LabelMatrix := {
  timeSlots : list Z;
  indices : list Z;
  values : list Z
}.

Definition getNumRows (m : LabelMatrix) : Z := Z.of_nat (length (timeSlots m)).

Definition getNumTimeSlots (m : LabelMatrix) : Z := Z.of_nat (length (values m)).

(** ** Rule evaluation (RegularizedLabelWiseRuleEvaluation) *)

Record LabelWiseScoreVector := {
  scores : list float;
  overallQualityScore : float
}.

Record Sums := {
  xSum : float;
  xSquaredSum : float;
  ySum : float;
  ySquaredSum : float;
  productSum : float
}.

Definition zeroSums : Sums :=
  {| xSum := 0; xSquaredSum := 0; ySum := 0; ySquaredSum := 0; productSum := 0 |}.

(** One iteration of the loop over the time slots. *)
Definition sumsStep (groundTruth predictions : list Z) (s : Sums) (i : nat) : Sums :=
  let x := of_uint32 (rd groundTruth (Z.of_nat i)) in
  let y := of_uint32 (rd predictions (Z.of_nat i)) in
  {| xSum := fadd (xSum s) x;
     xSquaredSum := fadd (xSquaredSum s) (pow2 x);
     ySum := fadd (ySum s) y;
     ySquaredSum := fadd (ySquaredSum s) (pow2 y);
     productSum := fadd (productSum s) (fmul x y) |}.

Definition accumulateSums (groundTruth predictions : list Z) : Sums :=
  fold_left (sumsStep groundTruth predictions) (seq 0 (length predictions)) zeroSums.

Definition numeratorOf (n : float) (s : Sums) : float :=
  fsub (fmul n (productSum s)) (fmul (xSum s) (ySum s)).

Definition xVarianceTerm (n : float) (s : Sums) : float :=
  fsub (fmul n (xSquaredSum s)) (pow2 (xSum s)).

Definition yVarianceTerm (n : float) (s : Sums) : float :=
  fsub (fmul n (ySquaredSum s)) (pow2 (ySum s)).

Definition qualityOf (n : float) (s : Sums) : float :=
  let numerator := numeratorOf n s in
  let sqrt1 := fsqrt (xVarianceTerm n s) in
  let sqrt2 := fsqrt (yVarianceTerm n s) in
  let denominator := fmul sqrt1 sqrt2 in
  fneg (fabs (fdiv numerator denominator)).

(** The constructor sets every score to 1.0; the evaluation only writes
    [overallQualityScore]. *)
Definition calculateLabelWisePrediction (predictions : list Z) (groundTruth : LabelMatrix)
  : LabelWiseScoreVector :=
  let numTimeSlots := Z.of_nat (length predictions) in
  let s := accumulateSums (values groundTruth) predictions in
  let n := of_uint32 numTimeSlots in
  {| scores := [1%float]; overallQualityScore := qualityOf n s |}.

(** *** The sums of the loop, each written on its own *)

Module Series.

Definition fsum (l : list float) : float := fold_left fadd l 0%float.

Definition products (x y : list float) : list float := zip_with fmul x y.

End Series.

(** ** Label-wise statistics (LabelWiseStatistics) *)

(** [copyArray from to n]: [to[i] = from[i]] for every [i < n].
    Modelled from the spec: [arrays.hpp] is not part of the sources at hand;
    the spec has the reset "copy prediction into totalPrediction". *)
Definition copyArray (from to : list Z) (n : nat) : list Z :=
  fold_left (fun a i => wr a (Z.of_nat i) (rd from (Z.of_nat i))) (seq 0 n) to.

Record Statistics := {
  coverageCountVector : list Z;
  predictionVector : list Z;
  totalPredictionVector : list Z
}.

(** The constructor.  [coverageCountVector] and [predictionVector] are
    value-initialised; [totalPredictionVector] is allocated without
    initialisation, so its contents are whatever the block held:
    [uninitialised] stands for those [numTimeSlots] words. *)
Definition newStatistics (labelMatrix : LabelMatrix) (uninitialised : list Z) : Statistics :=
  {| coverageCountVector := replicate (length (timeSlots labelMatrix)) 0;
     predictionVector := replicate (length (values labelMatrix)) 0;
     totalPredictionVector := uninitialised |}.

Definition resetCoveredStatistics (st : Statistics) : Statistics :=
  {| coverageCountVector := coverageCountVector st;
     predictionVector := predictionVector st;
     totalPredictionVector :=
       copyArray (predictionVector st) (totalPredictionVector st)
                 (length (totalPredictionVector st)) |}.

Definition resetSampledStatistics (st : Statistics) : Statistics :=
  resetCoveredStatistics st.

(** The weight is not used by the counters. *)
Definition updateCoveredStatistic (labelMatrix : LabelMatrix) (st : Statistics)
    (statisticIndex : Z) (weight : Z) (remove : bool) : Statistics :=
  if rd (coverageCountVector st) statisticIndex =? 0 then
    let timeSlot := rd (timeSlots labelMatrix) statisticIndex in
    let old := rd (totalPredictionVector st) timeSlot in
    {| coverageCountVector := coverageCountVector st;
       predictionVector := predictionVector st;
       totalPredictionVector :=
         wr (totalPredictionVector st) timeSlot
            (if remove then sub old 1 else add old 1) |}
  else st.

Definition addSampledStatistic (labelMatrix : LabelMatrix) (st : Statistics)
    (statisticIndex : Z) (weight : Z) : Statistics :=
  updateCoveredStatistic labelMatrix st statisticIndex weight false.

Definition increaseCoverageCount (st : Statistics) (statisticIndex : Z) : Statistics :=
  {| coverageCountVector :=
       wr (coverageCountVector st) statisticIndex
          (add (rd (coverageCountVector st) statisticIndex) 1);
     predictionVector := predictionVector st;
     totalPredictionVector := totalPredictionVector st |}.

(** The positions [first, first + 1, ..., last - 1]. *)
Definition positions (first last : Z) : list Z :=
  map (fun k => first + Z.of_nat k) (seq 0 (Z.to_nat (last - first))).

(** The inner loop of [updatePredictions]: the counter after the examples
    [start .. end - 1] of one time slot. *)
Definition countSlot (counts : list Z) (first last : Z) : Z :=
  fold_left (fun prediction j => if 0 <? rd counts j then add prediction 1 else prediction)
            (positions first last) 0.

Definition updatePredictions (labelMatrix : LabelMatrix) (st : Statistics) : Statistics :=
  {| coverageCountVector := coverageCountVector st;
     predictionVector :=
       fold_left
         (fun predictions i =>
            let first := rd (indices labelMatrix) (Z.of_nat i) in
            let last := rd (indices labelMatrix) (Z.of_nat i + 1) in
            wr predictions (Z.of_nat i) (countSlot (coverageCountVector st) first last))
         (seq 0 (length (values labelMatrix)))
         (predictionVector st);
     totalPredictionVector := totalPredictionVector st |}.

Definition getPredictions (st : Statistics) : list Z := predictionVector st.

(** ** Statistics subset (LabelWiseStatistics::StatisticsSubset)

    The subset keeps a reference to the statistics it was created from;
    the statistics are not modified while a subset is alive, so they are
    passed to every operation.  The two accumulated vectors are null
    until the first [resetSubset]. *)

Record StatisticsSubset := {
  coveredPredictionVector : list Z;
  uncoveredPredictionVector : list Z;
  accumulatedCoveredPredictionVector : option (list Z);
  accumulatedUncoveredPredictionVector : option (list Z)
}.

Definition createStatisticsSubset (st : Statistics) : StatisticsSubset :=
  {| coveredPredictionVector := predictionVector st;
     uncoveredPredictionVector := totalPredictionVector st;
     accumulatedCoveredPredictionVector := None;
     accumulatedUncoveredPredictionVector := None |}.

Definition bump (v : list Z) (timeSlot : Z) : list Z := wr v timeSlot (add (rd v timeSlot) 1).

Definition drop1 (v : list Z) (timeSlot : Z) : list Z := wr v timeSlot (sub (rd v timeSlot) 1).

Definition addToMissing (labelMatrix : LabelMatrix) (st : Statistics) (s : StatisticsSubset)
    (statisticIndex : Z) (weight : Z) : StatisticsSubset :=
  if rd (coverageCountVector st) statisticIndex =? 0 then
    let timeSlot := rd (timeSlots labelMatrix) statisticIndex in
    {| coveredPredictionVector := coveredPredictionVector s;
       uncoveredPredictionVector := drop1 (uncoveredPredictionVector s) timeSlot;
       accumulatedCoveredPredictionVector := accumulatedCoveredPredictionVector s;
       accumulatedUncoveredPredictionVector := accumulatedUncoveredPredictionVector s |}
  else s.

Definition addToSubset (labelMatrix : LabelMatrix) (st : Statistics) (s : StatisticsSubset)
    (statisticIndex : Z) (weight : Z) : StatisticsSubset :=
  if rd (coverageCountVector st) statisticIndex =? 0 then
    let timeSlot := rd (timeSlots labelMatrix) statisticIndex in
    {| coveredPredictionVector := bump (coveredPredictionVector s) timeSlot;
       uncoveredPredictionVector := drop1 (uncoveredPredictionVector s) timeSlot;
       accumulatedCoveredPredictionVector :=
         match accumulatedCoveredPredictionVector s with
         | Some v => Some (bump v timeSlot)
         | None => None
         end;
       accumulatedUncoveredPredictionVector :=
         match accumulatedCoveredPredictionVector s with
         | Some _ =>
             match accumulatedUncoveredPredictionVector s with
             | Some v => Some (drop1 v timeSlot)
             | None => None
             end
         | None => accumulatedUncoveredPredictionVector s
         end |}
  else s.

Definition resetSubset (st : Statistics) (s : StatisticsSubset) : StatisticsSubset :=
  {| coveredPredictionVector :=
       copyArray (predictionVector st) (coveredPredictionVector s)
                 (length (coveredPredictionVector s));
     uncoveredPredictionVector :=
       copyArray (totalPredictionVector st) (uncoveredPredictionVector s)
                 (length (uncoveredPredictionVector s));
     accumulatedCoveredPredictionVector :=
       match accumulatedCoveredPredictionVector s with
       | None => Some (coveredPredictionVector s)
       | Some v => Some v
       end;
     accumulatedUncoveredPredictionVector :=
       match accumulatedCoveredPredictionVector s with
       | None => Some (uncoveredPredictionVector s)
       | Some _ => accumulatedUncoveredPredictionVector s
       end |}.

(** The vector a candidate is scored on.  The accumulated vectors are only
    selected after a [resetSubset]; a null vector reads as empty here. *)
Definition selectPredictions (s : StatisticsSubset) (uncovered accumulated : bool) : list Z :=
  if uncovered
  then (if accumulated then default [] (accumulatedUncoveredPredictionVector s)
        else uncoveredPredictionVector s)
  else (if accumulated then default [] (accumulatedCoveredPredictionVector s)
        else coveredPredictionVector s).

Definition subsetCalculateLabelWisePrediction (labelMatrix : LabelMatrix)
    (s : StatisticsSubset) (uncovered accumulated : bool) : LabelWiseScoreVector :=
  calculateLabelWisePrediction (selectPredictions s uncovered accumulated) labelMatrix.

(** ** Heads (AbstractEvaluatedPrediction) *)

Module Head.

Record t := {
  predictedScores : list float;
  overallQualityScore : float
}.

End Head.

(** ** Head refinement (FullHeadRefinement)

    Modelled from the spec: [head_refinement_full.cpp] is not part of the
    sources at hand.  [findHead] asks the subset for the candidate
    prediction vector and has it scored by the rule evaluation.  A head
    whose quality is undefined, that is, whose score is not finite (the
    case of a variance of zero), is treated as missing.  Any other head is
    yielded iff its score is strictly better (lower) than the one of the
    current best head, or if there is no current best head.  The state of
    the object is the head it owns ([headPtr_]); [pollHead] moves it out. *)

Definition findHead (labelMatrix : LabelMatrix) (bestHead : option Head.t)
    (s : StatisticsSubset) (uncovered accumulated : bool) (headPtr_ : option Head.t)
  : option Head.t * option Head.t :=
  let scoreVector := subsetCalculateLabelWisePrediction labelMatrix s uncovered accumulated in
  let quality := overallQualityScore scoreVector in
  let accept :=
    is_finite quality &&
    match bestHead with
    | None => true
    | Some best => flt quality (Head.overallQualityScore best)
    end in
  if accept then
    let head := {| Head.predictedScores := scores scoreVector;
                   Head.overallQualityScore := quality |} in
    (Some head, Some head)
  else (None, headPtr_).

Definition pollHead (headPtr_ : option Head.t) : option Head.t * option Head.t :=
  (headPtr_, None).

(** ** Feature vectors and weights *)

Record IndexedValue := {
  value : float;
  index : Z
}.

(** The (value, example index) pairs sorted by value, and the examples whose
    value is missing.
    Modelled from the spec: [feature_vector.cpp] is not part of the sources
    at hand; the fields are the ones the spec's data model gives and the
    sources at hand read. *)
Record FeatureVector := {
  entries : list IndexedValue;
  missingIndices : list Z
}.

Definition entryAt (v : FeatureVector) (r : Z) : IndexedValue :=
  default {| value := 0; index := 0 |} (entries v !! Z.to_nat r).

Definition getNumElements (v : FeatureVector) : Z := Z.of_nat (length (entries v)).

(** Weight vectors: one non-negative weight per example.
    Modelled from the spec: the weight vector classes are not part of the
    sources at hand; the spec has "the vector exposes hasZeroWeights() and
    numNonZeroWeights()". *)
Definition getWeight (weights : list Z) (i : Z) : Z := rd weights i.

Definition getNumNonZeroWeights (weights : list Z) : Z :=
  Z.of_nat (length (filter (fun w => w ≠ 0) weights)).

Definition hasZeroWeights (weights : list Z) : bool :=
  getNumNonZeroWeights weights <? Z.of_nat (length weights).

(** ** Conditions and refinements *)

Inductive Comparator := LEQ | GR | EQ | NEQ.

(** Modelled from the spec: [refinement.hpp] is not part of the sources at
    hand; the fields are the ones the sources at hand assign and read.  A
    refinement that has just been created has no head; its other fields are
    not read before they are assigned and are given as 0 here. *)
Record Refinement := {
  featureIndex : Z;
  start : Z;
  end_ : Z;
  previous : Z;
  numCovered : Z;
  covered : bool;
  comparator : Comparator;
  threshold : float;
  headPtr : option Head.t
}.

Definition emptyRefinement : Refinement :=
  {| featureIndex := 0; start := 0; end_ := 0; previous := 0; numCovered := 0;
     covered := false; comparator := LEQ; threshold := 0; headPtr := None |}.

Definition setCondition (start' end' previous' numCovered' : Z) (covered' : bool)
    (comparator' : Comparator) (threshold' : float) (rf : Refinement) : Refinement :=
  {| featureIndex := featureIndex rf; start := start'; end_ := end';
     previous := previous'; numCovered := numCovered'; covered := covered';
     comparator := comparator'; threshold := threshold'; headPtr := headPtr rf |}.

(** Modelled from the spec: [math.hpp] is not part of the sources at hand;
    the arithmetic mean of two values.  The sources at hand call it with
    float32 values and store its result in a float32 threshold. *)
Definition arithmeticMean (small large : float) : float :=
  Float32.round (fadd small (fmul (fsub large small) 0.5)).

Definition USE_NEQ : bool := false.

Definition USE_LEQ : bool := true.

(** ** Exact refinement search (ExactRuleRefinement::findRefinement) *)

(** What a search over one feature carries along: the statistics subset,
    the head owned by the head refinement, the best head so far and the
    refinement under construction.  [evaluated] is a ghost trace: the
    [numCovered] of every candidate [findHead] was called for. *)
Record Search := {
  subset : StatisticsSubset;
  headRefinement : option Head.t;
  bestHead : option Head.t;
  refinement : Refinement;
  evaluated : list Z
}.

(** The local variables of [findRefinement]. *)
Record Sweep := {
  search : Search;
  numExamples : Z;
  firstR : Z;
  lastNegativeR : Z;
  previousThreshold : float;
  previousR : Z;
  r : Z;
  accumulatedNumExamples : Z
}.

Section FindRefinement.

Variable labelMatrix : LabelMatrix.
Variable statistics : Statistics.
Variable weights : list Z.
Variable featureVector : FeatureVector.
Variable numExamples_ : Z.
Variable nominal_ : bool.
Variable minCoverage : Z.

(** A call of [findHead] for a candidate, and the update of the best
    head and of the refinement when a head comes back. *)
Definition tryHead (numCovered' : Z) (uncovered accumulated : bool)
    (update : Refinement -> Refinement) (s : Search) : Search :=
  let '(head, headPtr') :=
    findHead labelMatrix (bestHead s) (subset s) uncovered accumulated (headRefinement s) in
  match head with
  | Some h =>
      {| subset := subset s; headRefinement := headPtr'; bestHead := Some h;
         refinement := update (refinement s);
         evaluated := evaluated s ++ [numCovered'] |}
  | None =>
      {| subset := subset s; headRefinement := headPtr'; bestHead := bestHead s;
         refinement := refinement s;
         evaluated := evaluated s ++ [numCovered'] |}
  end.

Definition onSubset (f : StatisticsSubset -> StatisticsSubset) (s : Search) : Search :=
  {| subset := f (subset s); headRefinement := headRefinement s; bestHead := bestHead s;
     refinement := refinement s; evaluated := evaluated s |}.

Definition onSearch (f : Search -> Search) (w : Sweep) : Sweep :=
  {| search := f (search w); numExamples := numExamples w; firstR := firstR w;
     lastNegativeR := lastNegativeR w; previousThreshold := previousThreshold w;
     previousR := previousR w; r := r w;
     accumulatedNumExamples := accumulatedNumExamples w |}.

Definition setR (r' : Z) (w : Sweep) : Sweep :=
  {| search := search w; numExamples := numExamples w; firstR := firstR w;
     lastNegativeR := lastNegativeR w; previousThreshold := previousThreshold w;
     previousR := previousR w; r := r';
     accumulatedNumExamples := accumulatedNumExamples w |}.

Definition setLastNegativeR (r' : Z) (w : Sweep) : Sweep :=
  {| search := search w; numExamples := numExamples w; firstR := firstR w;
     lastNegativeR := r'; previousThreshold := previousThreshold w;
     previousR := previousR w; r := r w;
     accumulatedNumExamples := accumulatedNumExamples w |}.

(** The example at position [r'] joins the subset as the first one of a
    sweep: [addToSubset], [numExamples++], and the previous threshold and
    position are set. *)
Definition takeFirst (r' : Z) (w : Sweep) : Sweep :=
  let e := entryAt featureVector r' in
  let weight := getWeight weights (index e) in
  {| search := onSubset (fun s => addToSubset labelMatrix statistics s (index e) weight)
                        (search w);
     numExamples := add (numExamples w) 1; firstR := firstR w;
     lastNegativeR := lastNegativeR w; previousThreshold := value e;
     previousR := r'; r := r';
     accumulatedNumExamples := accumulatedNumExamples w |}.

(** The end of a loop body of the two sweeps: the thresholds move on and
    the example joins the subset. *)
Definition takeNext (r' : Z) (w : Sweep) : Sweep :=
  let e := entryAt featureVector r' in
  let weight := getWeight weights (index e) in
  {| search := onSubset (fun s => addToSubset labelMatrix statistics s (index e) weight)
                        (search w);
     numExamples := add (numExamples w) 1; firstR := firstR w;
     lastNegativeR := lastNegativeR w; previousThreshold := value e;
     previousR := r'; r := r';
     accumulatedNumExamples := add (accumulatedNumExamples w) 1 |}.

(** The reset of a nominal feature after a group of equal values. *)
Definition restartGroup (r' : Z) (w : Sweep) : Sweep :=
  {| search := onSubset (resetSubset statistics) (search w);
     numExamples := 0; firstR := r';
     lastNegativeR := lastNegativeR w; previousThreshold := previousThreshold w;
     previousR := previousR w; r := r w;
     accumulatedNumExamples := accumulatedNumExamples w |}.

(** *** Examples with feature values < 0, ascending *)

(** The loop up to the first example with a positive weight. *)
Fixpoint firstNegative (fuel : nat) (r' : Z) (w : Sweep) : Sweep :=
  match fuel with
  | O => setR r' w
  | S fuel' =>
      if r' <? getNumElements featureVector then
        let e := entryAt featureVector r' in
        if fle 0 (value e) then setR r' w
        else
          let w1 := setLastNegativeR r' w in
          if 0 <? getWeight weights (index e) then takeFirst r' w1
          else firstNegative fuel' (r' + 1) w1
      else setR r' w
  end.

(** The candidates between two different values of the ascending sweep. *)
Definition splitAscending (r' : Z) (currentThreshold : float) (w : Sweep) : Sweep :=
  let numCovered1 := numExamples w in
  let w1 :=
    if (minCoverage <=? numCovered1) && (nominal_ || USE_LEQ) then
      onSearch
        (tryHead numCovered1 false false
           (if nominal_
            then setCondition (firstR w) r' (previousR w) numCovered1 true EQ
                              (previousThreshold w)
            else setCondition (firstR w) r' (previousR w) numCovered1 true LEQ
                              (arithmeticMean (previousThreshold w) currentThreshold)))
        w
    else w in
  let numCovered2 := sub numExamples_ (numExamples w) in
  let w2 :=
    if (minCoverage <=? numCovered2) && (negb nominal_ || USE_NEQ) then
      onSearch
        (tryHead numCovered2 true false
           (if nominal_
            then setCondition (firstR w) r' (previousR w) numCovered2 false NEQ
                              (previousThreshold w)
            else setCondition (firstR w) r' (previousR w) numCovered2 false GR
                              (arithmeticMean (previousThreshold w) currentThreshold)))
        w1
    else w1 in
  if nominal_ then restartGroup r' w2 else w2.

(** The loop over the remaining examples with values < 0. *)
Fixpoint restNegative (fuel : nat) (r' : Z) (w : Sweep) : Sweep :=
  match fuel with
  | O => setR r' w
  | S fuel' =>
      if r' <? getNumElements featureVector then
        let e := entryAt featureVector r' in
        let currentThreshold := value e in
        if fle 0 currentThreshold then setR r' w
        else
          let w1 := setLastNegativeR r' w in
          if 0 <? getWeight weights (index e) then
            let w2 :=
              if negb (feq (previousThreshold w1) currentThreshold)
              then splitAscending r' currentThreshold w1
              else w1 in
            restNegative fuel' (r' + 1) (takeNext r' w2)
          else restNegative fuel' (r' + 1) w1
      else setR r' w
  end.

(** The last group of a nominal feature among the values < 0. *)
Definition lastGroupNegative (w : Sweep) : Sweep :=
  if nominal_ && (0 <? numExamples w)
     && ((numExamples w <? accumulatedNumExamples w)
         || (accumulatedNumExamples w <? numExamples_)) then
    let numCovered1 := numExamples w in
    let w1 :=
      if minCoverage <=? numCovered1 then
        onSearch
          (tryHead numCovered1 false false
             (setCondition (firstR w) (lastNegativeR w + 1) (previousR w) numCovered1
                           true EQ (previousThreshold w)))
          w
      else w in
    let numCovered2 := sub numExamples_ (numExamples w) in
    if (minCoverage <=? numCovered2) && USE_NEQ then
      onSearch
        (tryHead numCovered2 true false
           (setCondition (firstR w) (lastNegativeR w + 1) (previousR w) numCovered2
                         false NEQ (previousThreshold w)))
        w1
    else w1
  else w.

Definition sweepNegative (w : Sweep) : Sweep :=
  let fuel := length (entries featureVector) in
  let w1 := firstNegative fuel 0 w in
  let w2 :=
    {| search := search w1; numExamples := numExamples w1; firstR := firstR w1;
       lastNegativeR := lastNegativeR w1; previousThreshold := previousThreshold w1;
       previousR := previousR w1; r := r w1;
       accumulatedNumExamples := numExamples w1 |} in
  if 0 <? numExamples w2 then
    let w3 := restNegative fuel (r w2 + 1) w2 in
    let w4 := lastGroupNegative w3 in
    onSearch (onSubset (resetSubset statistics)) w4
  else w2.

(** *** Examples with feature values >= 0, descending *)

Definition startDescending (w : Sweep) : Sweep :=
  {| search := search w; numExamples := 0;
     firstR := getNumElements featureVector - 1;
     lastNegativeR := lastNegativeR w; previousThreshold := previousThreshold w;
     previousR := previousR w; r := r w;
     accumulatedNumExamples := accumulatedNumExamples w |}.

(** The loop down to the first example with a positive weight. *)
Fixpoint firstNonNegative (fuel : nat) (r' : Z) (w : Sweep) : Sweep :=
  match fuel with
  | O => setR r' w
  | S fuel' =>
      if lastNegativeR w <? r' then
        let e := entryAt featureVector r' in
        if 0 <? getWeight weights (index e) then takeFirst r' w
        else firstNonNegative fuel' (r' - 1) w
      else setR r' w
  end.

(** The candidates between two different values of the descending sweep. *)
Definition splitDescending (r' : Z) (currentThreshold : float) (w : Sweep) : Sweep :=
  let numCovered1 := numExamples w in
  let w1 :=
    if minCoverage <=? numCovered1 then
      onSearch
        (tryHead numCovered1 false false
           (if nominal_
            then setCondition (firstR w) r' (previousR w) numCovered1 true EQ
                              (previousThreshold w)
            else setCondition (firstR w) r' (previousR w) numCovered1 true GR
                              (arithmeticMean currentThreshold (previousThreshold w))))
        w
    else w in
  let numCovered2 := sub numExamples_ (numExamples w) in
  let w2 :=
    if (minCoverage <=? numCovered2) && (if nominal_ then USE_NEQ else USE_LEQ) then
      onSearch
        (tryHead numCovered2 true false
           (if nominal_
            then setCondition (firstR w) r' (previousR w) numCovered2 false NEQ
                              (previousThreshold w)
            else setCondition (firstR w) r' (previousR w) numCovered2 false LEQ
                              (arithmeticMean currentThreshold (previousThreshold w))))
        w1
    else w1 in
  if nominal_ then restartGroup r' w2 else w2.

(** The loop over the remaining examples with values >= 0. *)
Fixpoint restNonNegative (fuel : nat) (r' : Z) (w : Sweep) : Sweep :=
  match fuel with
  | O => setR r' w
  | S fuel' =>
      if lastNegativeR w <? r' then
        let e := entryAt featureVector r' in
        if 0 <? getWeight weights (index e) then
          let currentThreshold := value e in
          let w1 :=
            if negb (feq (previousThreshold w) currentThreshold)
            then splitDescending r' currentThreshold w
            else w in
          restNonNegative fuel' (r' - 1) (takeNext r' w1)
        else restNonNegative fuel' (r' - 1) w
      else setR r' w
  end.

(** The last group of a nominal feature among the values >= 0. *)
Definition lastGroupNonNegative (w : Sweep) : Sweep :=
  if nominal_ && (0 <? numExamples w) && (numExamples w <? accumulatedNumExamples w) then
    let numCovered1 := numExamples w in
    let w1 :=
      if minCoverage <=? numCovered1 then
        onSearch
          (tryHead numCovered1 false false
             (setCondition (firstR w) (lastNegativeR w) (previousR w) numCovered1
                           true EQ (previousThreshold w)))
          w
      else w in
    let numCovered2 := sub numExamples_ (numExamples w) in
    if (minCoverage <=? numCovered2) && USE_NEQ then
      onSearch
        (tryHead numCovered2 true false
           (setCondition (firstR w) (lastNegativeR w) (previousR w) numCovered2
                         false NEQ (previousThreshold w)))
        w1
    else w1
  else w.

Definition sweepNonNegative (w : Sweep) : Sweep :=
  let fuel := length (entries featureVector) in
  let w0 := startDescending w in
  let w1 := firstNonNegative fuel (firstR w0) w0 in
  let w2 :=
    {| search := search w1; numExamples := numExamples w1; firstR := firstR w1;
       lastNegativeR := lastNegativeR w1; previousThreshold := previousThreshold w1;
       previousR := previousR w1; r := r w1;
       accumulatedNumExamples := numExamples w1 |} in
  let w3 :=
    if 0 <? numExamples w2 then restNonNegative fuel (r w2 - 1) w2 else w2 in
  lastGroupNonNegative w3.

(** *** Examples with sparse (zero) feature values *)

Definition sparseBridge (totalAccumulatedNumExamples : Z) (w : Sweep) : Sweep :=
  if (0 <? totalAccumulatedNumExamples) && (totalAccumulatedNumExamples <? numExamples_)
  then
    let w0 :=
      if nominal_ then
        {| search := onSubset (resetSubset statistics) (search w);
           numExamples := numExamples w;
           firstR := getNumElements featureVector - 1;
           lastNegativeR := lastNegativeR w; previousThreshold := previousThreshold w;
           previousR := previousR w; r := r w;
           accumulatedNumExamples := accumulatedNumExamples w |}
      else w in
    let numCovered1 :=
      if nominal_ then totalAccumulatedNumExamples else accumulatedNumExamples w0 in
    let w1 :=
      if (minCoverage <=? numCovered1) && (negb nominal_ || USE_NEQ) then
        onSearch
          (tryHead numCovered1 false nominal_
             (if nominal_
              then setCondition (firstR w0) (-1) (-1) numCovered1 true NEQ 0
              else setCondition (firstR w0) (lastNegativeR w0) (previousR w0) numCovered1
                                true GR (fmul (previousThreshold w0) 0.5)))
          w0
      else w0 in
    let numCovered2 :=
      sub numExamples_
          (if nominal_ then totalAccumulatedNumExamples else accumulatedNumExamples w0) in
    if (minCoverage <=? numCovered2) && (nominal_ || USE_LEQ) then
      onSearch
        (tryHead numCovered2 true nominal_
           (if nominal_
            then setCondition (firstR w0) (-1) (-1) numCovered2 false EQ 0
            else setCondition (firstR w0) (lastNegativeR w0) (previousR w0) numCovered2
                              false LEQ (fmul (previousThreshold w0) 0.5)))
        w1
    else w1
  else w.

(** *** Numerical features: between the values < 0 and the others *)

Definition negativeBridge (previousThresholdNegative : float) (previousRNegative : Z)
    (accumulatedNumExamplesNegative totalAccumulatedNumExamples : Z) (w : Sweep) : Sweep :=
  if negb nominal_ && (0 <? accumulatedNumExamplesNegative)
     && (accumulatedNumExamplesNegative <? numExamples_) then
    let bridgeThreshold :=
      if totalAccumulatedNumExamples <? numExamples_
      then fmul previousThresholdNegative 0.5
      else arithmeticMean previousThresholdNegative (previousThreshold w) in
    let numCovered1 := accumulatedNumExamplesNegative in
    let w1 :=
      if (minCoverage <=? numCovered1) && USE_LEQ then
        onSearch
          (tryHead numCovered1 false true
             (setCondition 0 (lastNegativeR w + 1) previousRNegative numCovered1
                           true LEQ bridgeThreshold))
          w
      else w in
    let numCovered2 := sub numExamples_ accumulatedNumExamplesNegative in
    if minCoverage <=? numCovered2 then
      onSearch
        (tryHead numCovered2 true true
           (setCondition 0 (lastNegativeR w + 1) previousRNegative numCovered2
                         false GR bridgeThreshold))
        w1
    else w1
  else w.

(** *** The search *)

Definition initialSweep (featureIndex_ : Z) (currentHead : option Head.t) : Sweep :=
  let withMissing :=
    fold_left
      (fun s i => addToMissing labelMatrix statistics s i (getWeight weights i))
      (missingIndices featureVector)
      (createStatisticsSubset statistics) in
  {| search :=
       {| subset := withMissing; headRefinement := None; bestHead := currentHead;
          refinement :=
            {| featureIndex := featureIndex_; start := 0; end_ := 0; previous := 0;
               numCovered := 0; covered := false; comparator := LEQ; threshold := 0;
               headPtr := None |};
          evaluated := [] |};
     numExamples := 0; firstR := 0; lastNegativeR := -1; previousThreshold := 0;
     previousR := 0; r := 0; accumulatedNumExamples := 0 |}.

Definition runSweeps (featureIndex_ : Z) (currentHead : option Head.t) : Sweep :=
  let w1 := sweepNegative (initialSweep featureIndex_ currentHead) in
  let previousThresholdNegative := previousThreshold w1 in
  let previousRNegative := previousR w1 in
  let accumulatedNumExamplesNegative := accumulatedNumExamples w1 in
  let w2 := sweepNonNegative w1 in
  let totalAccumulatedNumExamples :=
    add accumulatedNumExamplesNegative (accumulatedNumExamples w2) in
  let w3 := sparseBridge totalAccumulatedNumExamples w2 in
  negativeBridge previousThresholdNegative previousRNegative
                 accumulatedNumExamplesNegative totalAccumulatedNumExamples w3.

(** [findRefinement]: the refinement stored in [refinementPtr_], with the
    head polled from the head refinement. *)
Definition findRefinement (featureIndex_ : Z) (currentHead : option Head.t) : Refinement :=
  let s := search (runSweeps featureIndex_ currentHead) in
  let rf := refinement s in
  {| featureIndex := featureIndex rf; start := start rf; end_ := end_ rf;
     previous := previous rf; numCovered := numCovered rf; covered := covered rf;
     comparator := comparator rf; threshold := threshold rf;
     headPtr := fst (pollHead (headRefinement s)) |}.

(** The candidates [findHead] was asked about, as their [numCovered]. *)
Definition evaluatedCandidates (featureIndex_ : Z) (currentHead : option Head.t) : list Z :=
  evaluated (search (runSweeps featureIndex_ currentHead)).

End FindRefinement.

(** ** Coverage mask (CoverageMask)

    Modelled from the spec: [coverage_mask.cpp] is not part of the sources
    at hand.  An array of one mark per example and a target; an example is
    covered iff its mark equals the target.  A new mask has all marks and
    the target at zero. *)

Record CoverageMask := {
  marks : list Z;
  target : Z
}.

Definition newCoverageMask (numElements : nat) : CoverageMask :=
  {| marks := replicate numElements 0; target := 0 |}.

Definition isCovered (m : CoverageMask) (i : Z) : bool := rd (marks m) i =? target m.

Definition setTarget (m : CoverageMask) (t : Z) : CoverageMask :=
  {| marks := marks m; target := t |}.

Definition mark (m : CoverageMask) (i v : Z) : CoverageMask :=
  {| marks := wr (marks m) i v; target := target m |}.

(** ** Thresholds (thresholds_exact.cpp) *)

Record FilteredCacheEntry := {
  vectorPtr : option FeatureVector;
  numConditions : Z
}.

Definition newFilteredCacheEntry : FilteredCacheEntry :=
  {| vectorPtr := None; numConditions := 0 |}.

(** *** adjustSplit *)

Fixpoint adjustLoop (featureVector : FeatureVector) (ascending : bool) (first direction : Z)
    (threshold' : float) (steps : nat) (i : Z) (adjustedPosition : Z) : Z :=
  match steps with
  | O => adjustedPosition
  | S steps' =>
      let r' := wrap32 (first + i * direction) in
      let featureValue := value (entryAt featureVector r') in
      let adjust :=
        if ascending then fle featureValue threshold' else flt threshold' featureValue in
      if adjust
      then adjustLoop featureVector ascending first direction threshold' steps' (i + 1) r'
      else adjustedPosition
  end.

Definition adjustSplit (featureVector : FeatureVector) (conditionEnd conditionPrevious : Z)
    (threshold' : float) : Z :=
  let ascending := conditionEnd <? conditionPrevious in
  let direction := if ascending then 1 else -1 in
  let first := conditionEnd + direction in
  let numSteps := wrap32 (Z.abs (first - conditionPrevious)) in
  adjustLoop featureVector ascending first direction threshold' (Z.to_nat numSteps) 0
             conditionEnd.

(** *** filterCurrentVector

    The filtered vector is written through [filteredIterator] while the
    input is read through [iterator].  When the cache entry already owns a
    vector, that vector is also the input: both iterators then walk the same
    array ([aliased]), and a read sees the writes made before it. *)

Definition dummyEntry : IndexedValue := {| value := 0; index := 0 |}.

Definition readEntry (l : list IndexedValue) (r' : Z) : IndexedValue :=
  default dummyEntry (l !! Z.to_nat r').

Definition writeEntry (l : list IndexedValue) (i : Z) (e : IndexedValue) : list IndexedValue :=
  <[Z.to_nat i := e]> l.

(** [setNumElements]: the array is cut or extended to [n] entries. *)
Definition resize (l : list IndexedValue) (n : Z) : list IndexedValue :=
  take (Z.to_nat n) l ++ replicate (Z.to_nat n - length l)%nat dummyEntry.

Record Filtering := {
  fMask : CoverageMask;
  fStatistics : Statistics;
  fFiltered : list IndexedValue;
  fI : Z
}.

Section Filter.

Variable labelMatrix : LabelMatrix.
Variable weights : list Z.

(** The input array as the loop sees it at this point. *)
Definition source (aliased : bool) (input : list IndexedValue) (f : Filtering)
  : list IndexedValue :=
  if aliased then fFiltered f else input.

(** Body of the loop of the branch [covered]. *)
Definition retainCovered (aliased : bool) (input : list IndexedValue) (numConditions' : Z)
    (f : Filtering) (r' : Z) : Filtering :=
  let e := readEntry (source aliased input f) r' in
  let i := index e in
  {| fMask := mark (fMask f) i numConditions';
     fFiltered := writeEntry (fFiltered f) (fI f) e;
     fStatistics :=
       updateCoveredStatistic labelMatrix (fStatistics f) i (getWeight weights i) false;
     fI := add (fI f) 1 |}.

(** Body of the first loop of the branch [!covered]. *)
Definition discardUncovered (aliased : bool) (input : list IndexedValue)
    (numConditions' : Z) (f : Filtering) (r' : Z) : Filtering :=
  let e := readEntry (source aliased input f) r' in
  let i := index e in
  {| fMask := mark (fMask f) i numConditions';
     fFiltered := fFiltered f;
     fStatistics :=
       updateCoveredStatistic labelMatrix (fStatistics f) i (getWeight weights i) true;
     fI := fI f |}.

(** Body of the loops that move the retained entries. *)
Definition moveEntry (aliased : bool) (input : list IndexedValue)
    (f : Filtering) (r' : Z) : Filtering :=
  let e := readEntry (source aliased input f) r' in
  {| fMask := fMask f;
     fFiltered := writeEntry (fFiltered f) (fI f) e;
     fStatistics := fStatistics f;
     fI := add (fI f) 1 |}.

(** Body of the loop over the missing indices of the branch [!covered]. *)
Definition discardMissing (numConditions' : Z) (f : Filtering) (i : Z) : Filtering :=
  {| fMask := mark (fMask f) i numConditions';
     fFiltered := fFiltered f;
     fStatistics :=
       updateCoveredStatistic labelMatrix (fStatistics f) i (getWeight weights i) true;
     fI := fI f |}.

Definition setI (i : Z) (f : Filtering) : Filtering :=
  {| fMask := fMask f; fFiltered := fFiltered f; fStatistics := fStatistics f; fI := i |}.

(** Result: the cache entry, the coverage mask and the statistics. *)
Definition filterCurrentVector (vector : FeatureVector) (cacheEntry : FilteredCacheEntry)
    (conditionStart conditionEnd : Z) (conditionComparator : Comparator) (covered' : bool)
    (numConditions' : Z) (coverageMask : CoverageMask) (statistics : Statistics)
  : FilteredCacheEntry * CoverageMask * Statistics :=
  let numTotalElements := getNumElements vector in
  let distance := wrap32 (Z.abs (conditionStart - conditionEnd)) in
  let numElements :=
    if covered' then distance
    else if distance <? numTotalElements then numTotalElements - distance else 0 in
  let aliased := bool_decide (is_Some (vectorPtr cacheEntry)) in
  let filtered0 :=
    match vectorPtr cacheEntry with
    | Some v => v
    | None => {| entries := replicate (Z.to_nat numElements) dummyEntry;
                 missingIndices := [] |}
    end in
  let input := entries vector in
  let descending := conditionEnd <? conditionStart in
  let first := if descending then conditionEnd + 1 else conditionStart in
  let last := if descending then conditionStart + 1 else conditionEnd in
  let f0 := {| fMask := coverageMask; fStatistics := statistics;
               fFiltered := entries filtered0; fI := 0 |} in
  let f :=
    if covered' then
      let f1 := {| fMask := setTarget coverageMask numConditions';
                   fStatistics := resetCoveredStatistics statistics;
                   fFiltered := entries filtered0; fI := 0 |} in
      fold_left (retainCovered aliased input numConditions') (positions first last) f1
    else
      let f1 :=
        fold_left (discardUncovered aliased input numConditions') (positions first last) f0 in
      let f2 :=
        match conditionComparator with
        | NEQ =>
            if descending
            then fold_left (moveEntry aliased input) (positions last numTotalElements)
                           (setI (wrap32 first) f1)
            else fold_left (moveEntry aliased input) (positions 0 first) (setI 0 f1)
        | _ => f1
        end in
      let f3 :=
        if descending
        then fold_left (moveEntry aliased input) (positions 0 first) (setI 0 f2)
        else fold_left (moveEntry aliased input) (positions last numTotalElements)
                       (setI (wrap32 first) f2) in
      fold_left (discardMissing numConditions') (missingIndices vector) f3 in
  ({| vectorPtr := Some {| entries := resize (fFiltered f) numElements;
                           missingIndices := missingIndices filtered0 |};
      numConditions := numConditions' |},
   fMask f, fStatistics f).

(** *** filterAnyVector *)

Definition keepCovered (aliased : bool) (input : list IndexedValue)
    (coverageMask : CoverageMask) (acc : list IndexedValue * Z) (r' : Z)
  : list IndexedValue * Z :=
  let e := readEntry (if aliased then fst acc else input) r' in
  if isCovered coverageMask (index e)
  then (writeEntry (fst acc) (snd acc) e, add (snd acc) 1)
  else acc.

Definition filterAnyVector (vector : FeatureVector) (cacheEntry : FilteredCacheEntry)
    (numConditions' : Z) (coverageMask : CoverageMask) : FilteredCacheEntry :=
  let maxElements := getNumElements vector in
  let aliased := bool_decide (is_Some (vectorPtr cacheEntry)) in
  let filtered0 :=
    match vectorPtr cacheEntry with
    | Some v => entries v
    | None => replicate (Z.to_nat maxElements) dummyEntry
    end in
  (* when the vectors are one object, [clearMissingIndices] has emptied
     the missing indices before they are walked *)
  let missing := if aliased then [] else missingIndices vector in
  let filteredMissing := filter (fun i => isCovered coverageMask i = true) missing in
  let '(filtered, i) :=
    fold_left (keepCovered aliased (entries vector) coverageMask)
              (positions 0 maxElements) (filtered0, 0) in
  {| vectorPtr := Some {| entries := resize filtered i;
                          missingIndices := filteredMissing |};
     numConditions := numConditions' |}.

End Filter.

(** *** ThresholdsSubset

    The statistics belong to the statistics provider that the thresholds
    share with the driver; they are passed along with the subset. *)

Record ThresholdsSubset := {
  numCoveredExamples_ : Z;
  coverageMask_ : CoverageMask;
  numModifications_ : Z;
  cacheFiltered_ : gmap Z FilteredCacheEntry
}.

(** The object a feature is searched by. *)
Record ExactRuleRefinement := {
  numExamples_ : Z;
  featureIndex_ : Z;
  nominal_ : bool;
  refinementPtr_ : option Refinement
}.

(** Modelled from the spec: [refinement.cpp] is not part of the sources at
    hand.  [isBetterThan] compares the overall quality scores of the heads;
    a refinement without a head counts as one with score +infinity. *)
Definition qualityOfRefinement (rf : Refinement) : float :=
  match headPtr rf with
  | Some h => Head.overallQualityScore h
  | None => infinity
  end.

Definition isBetterThan (rf another : Refinement) : bool :=
  flt (qualityOfRefinement rf) (qualityOfRefinement another).

(** A rule of the model under construction: its conditions and its head. *)
Definition Rule : Type := list Refinement * Head.t.

Section Thresholds.

Variable labelMatrix : LabelMatrix.
(** The feature matrix: its number of rows and, for a feature, the vector
    [fetchFeatureVector] yields after [sortByValues]. *)
Variable numRows : Z.
Variable featureMatrix : Z -> FeatureVector.
Variable isNominal : Z -> bool.

Section Subset.

Variable weights : list Z.

(** Modelled from the spec: [thresholds_common.hpp] is not part of the
    sources at hand.  The sampled weights are installed into the
    statistics: after [resetSampledStatistics], [addSampledStatistic]
    is called for every example whose weight is not zero. *)
Definition updateSampledStatisticsInternally (statistics : Statistics) : Statistics :=
  fold_left
    (fun st i =>
       if getWeight weights i =? 0 then st
       else addSampledStatistic labelMatrix st i (getWeight weights i))
    (positions 0 (getNumRows labelMatrix))
    (resetSampledStatistics statistics).

Definition createSubset (statistics : Statistics) : ThresholdsSubset * Statistics :=
  ({| numCoveredExamples_ := getNumNonZeroWeights weights;
      coverageMask_ := newCoverageMask (Z.to_nat numRows);
      numModifications_ := 0;
      cacheFiltered_ := ∅ |},
   updateSampledStatisticsInternally statistics).

Definition setCache (ts : ThresholdsSubset) (c : gmap Z FilteredCacheEntry)
  : ThresholdsSubset :=
  {| numCoveredExamples_ := numCoveredExamples_ ts;
     coverageMask_ := coverageMask_ ts;
     numModifications_ := numModifications_ ts;
     cacheFiltered_ := c |}.

Definition cacheEntryOf (ts : ThresholdsSubset) (featureIndex' : Z) : FilteredCacheEntry :=
  default newFilteredCacheEntry (cacheFiltered_ ts !! featureIndex').

(** [Callback::get]: the feature vector to search, filtered first when
    conditions were added since the entry was last written. *)
Definition callbackGet (ts : ThresholdsSubset) (featureIndex' : Z)
  : ThresholdsSubset * FeatureVector :=
  let cacheEntry := cacheEntryOf ts featureIndex' in
  let featureVector :=
    match vectorPtr cacheEntry with
    | Some v => v
    | None => featureMatrix featureIndex'
    end in
  if numConditions cacheEntry <? numModifications_ ts then
    let cacheEntry' :=
      filterAnyVector featureVector cacheEntry (numModifications_ ts) (coverageMask_ ts) in
    (setCache ts (<[featureIndex' := cacheEntry']> (cacheFiltered_ ts)),
     default featureVector (vectorPtr cacheEntry'))
  else (ts, featureVector).

(** [createRuleRefinement]: the cache entry of the feature is created
    unless it exists. *)
Definition createRuleRefinement (ts : ThresholdsSubset) (featureIndex' : Z)
  : ThresholdsSubset * ExactRuleRefinement :=
  (match cacheFiltered_ ts !! featureIndex' with
   | Some _ => ts
   | None => setCache ts (<[featureIndex' := newFilteredCacheEntry]> (cacheFiltered_ ts))
   end,
   {| numExamples_ := numCoveredExamples_ ts; featureIndex_ := featureIndex';
      nominal_ := isNominal featureIndex'; refinementPtr_ := None |}).

(** [ExactRuleRefinement::findRefinement] with its callback. *)
Definition searchFeature (statistics : Statistics) (currentHead : option Head.t)
    (minCoverage : Z) (ts : ThresholdsSubset) (rr : ExactRuleRefinement)
  : ThresholdsSubset * ExactRuleRefinement :=
  let '(ts', featureVector) := callbackGet ts (featureIndex_ rr) in
  (ts',
   {| numExamples_ := numExamples_ rr; featureIndex_ := featureIndex_ rr;
      nominal_ := nominal_ rr;
      refinementPtr_ :=
        Some (findRefinement labelMatrix statistics weights featureVector
                             (numExamples_ rr) (nominal_ rr) minCoverage
                             (featureIndex_ rr) currentHead) |}).

Definition setEnd (rf : Refinement) (end' : Z) : Refinement :=
  {| featureIndex := featureIndex rf; start := start rf; end_ := end';
     previous := previous rf; numCovered := numCovered rf; covered := covered rf;
     comparator := comparator rf; threshold := threshold rf; headPtr := headPtr rf |}.

(** [filterThresholds (Refinement&)]; the refinement comes back with
    its adjusted end. *)
Definition filterThresholds (ts : ThresholdsSubset) (statistics : Statistics)
    (rf : Refinement) : ThresholdsSubset * Statistics * Refinement :=
  let numModifications' := add (numModifications_ ts) 1 in
  let cacheEntry := cacheEntryOf ts (featureIndex rf) in
  let featureVector :=
    match vectorPtr cacheEntry with
    | Some v => v
    | None => featureMatrix (featureIndex rf)
    end in
  let rf' :=
    if hasZeroWeights weights && (1 <? Z.abs (previous rf - end_ rf))
    then setEnd rf (adjustSplit featureVector (end_ rf) (previous rf) (threshold rf))
    else rf in
  let '(cacheEntry', mask', statistics') :=
    filterCurrentVector labelMatrix weights featureVector cacheEntry (start rf') (end_ rf')
                        (comparator rf') (covered rf') numModifications'
                        (coverageMask_ ts) statistics in
  ({| numCoveredExamples_ := numCovered rf;
      coverageMask_ := mask';
      numModifications_ := numModifications';
      cacheFiltered_ := <[featureIndex rf := cacheEntry']> (cacheFiltered_ ts) |},
   statistics', rf').

(** [applyPrediction]: the coverage counts of the covered examples grow
    by one, then the predictions are recomputed. *)
Definition applyPrediction (ts : ThresholdsSubset) (statistics : Statistics) : Statistics :=
  let numStatistics := getNumRows labelMatrix in
  updatePredictions labelMatrix
    (fold_left
       (fun st i => if isCovered (coverageMask_ ts) i then increaseCoverageCount st i else st)
       (positions 0 numStatistics) statistics).

End Subset.

End Thresholds.

(** ** Top-down rule induction (TopDownRuleInduction::induceRule) *)

(** [(uint32) (minSupport_ * numExamples)], the first lines of
    [induceRule]. *)
Definition minCoverageOf (minSupport_ : spec_float) (numExamples : Z) : Z :=
  Float32.to_uint32 (Float32.mul minSupport_ (Float32.of_uint32 numExamples)).

(** The state of the loop that grows one rule. *)
Record Induction (Rng : Type) := {
  thresholdsSubset : ThresholdsSubset;
  liveStatistics : Statistics;
  conditions : list Refinement;
  numConditionsGrown : Z;
  ruleRefinements : gmap Z ExactRuleRefinement;
  bestRefinementPtr : Refinement;
  bestHeadPtr : option Head.t;
  foundRefinement : bool;
  rngState : Rng
}.

Arguments thresholdsSubset {Rng} _.
Arguments liveStatistics {Rng} _.
Arguments conditions {Rng} _.
Arguments numConditionsGrown {Rng} _.
Arguments ruleRefinements {Rng} _.
Arguments bestRefinementPtr {Rng} _.
Arguments bestHeadPtr {Rng} _.
Arguments foundRefinement {Rng} _.
Arguments rngState {Rng} _.

Section RuleInduction.

Variable labelMatrix : LabelMatrix.
Variable numRows : Z.
Variable featureMatrix : Z -> FeatureVector.
Variable isNominal : Z -> bool.

(** The random number generator and the feature sub-sampling that draws
    from it. *)
Variable Rng : Type.
Variable subSampleFeatures : Rng -> list Z * Rng.

(** [(uint32) (minSupport_ * numExamples)]: a constant of the run, as both
    factors are. *)
Variable minCoverage : Z.
Variable maxConditions_ : Z.

Variable weights : list Z.

(** The first loop over the sampled features. *)
Definition createRefinements (features : list Z)
    (acc : ThresholdsSubset * gmap Z ExactRuleRefinement)
  : ThresholdsSubset * gmap Z ExactRuleRefinement :=
  fold_left
    (fun a j =>
       let '(ts', rr) := createRuleRefinement isNominal (fst a) j in
       (ts', <[j := rr]> (snd a)))
    features acc.

(** One task of the parallel loop. *)
Definition searchTask (statistics : Statistics) (currentHead : option Head.t)
    (a : ThresholdsSubset * gmap Z ExactRuleRefinement) (j : Z)
  : ThresholdsSubset * gmap Z ExactRuleRefinement :=
  match snd a !! j with
  | Some rr =>
      let '(ts', rr') :=
        searchFeature labelMatrix featureMatrix weights statistics currentHead minCoverage
                      (fst a) rr in
      (ts', <[j := rr']> (snd a))
  | None => a
  end.

(** The parallel loop, its tasks run one after the other in the order
    [order]. *)
Definition searchFeatures (statistics : Statistics) (currentHead : option Head.t)
    (order : list Z) (acc : ThresholdsSubset * gmap Z ExactRuleRefinement)
  : ThresholdsSubset * gmap Z ExactRuleRefinement :=
  fold_left (searchTask statistics currentHead) order acc.

(** The reduction after the parallel loop: every refinement is polled in
    the order of the sampled features and kept if it is better than the
    best one so far.  (Polling a feature a second time yields a null
    pointer, whose use is undefined; it is skipped here.) *)
Definition pickStep (a : gmap Z ExactRuleRefinement * Refinement * bool) (j : Z)
  : gmap Z ExactRuleRefinement * Refinement * bool :=
  let '(refinements, best, found) := a in
  match refinements !! j with
  | Some rr =>
      let polled :=
        {| numExamples_ := numExamples_ rr; featureIndex_ := featureIndex_ rr;
           nominal_ := nominal_ rr; refinementPtr_ := None |} in
      match refinementPtr_ rr with
      | Some rf =>
          if isBetterThan rf best
          then (<[j := polled]> refinements, rf, true)
          else (<[j := polled]> refinements, best, found)
      | None => (refinements, best, found)
      end
  | None => (refinements, best, found)
  end.

Definition pickBest (features : list Z)
    (a : gmap Z ExactRuleRefinement * Refinement * bool)
  : gmap Z ExactRuleRefinement * Refinement * bool :=
  fold_left pickStep features a.

(** One iteration of the while loop. *)
Definition refineOnce (s : Induction Rng) : Induction Rng :=
  let '(features, rng') := subSampleFeatures (rngState s) in
  let '(ts1, refinements1) :=
    createRefinements features (thresholdsSubset s, ruleRefinements s) in
  let '(ts2, refinements2) :=
    searchFeatures (liveStatistics s) (bestHeadPtr s) features (ts1, refinements1) in
  let '(refinements3, best, found) :=
    pickBest features (refinements2, bestRefinementPtr s, false) in
  if found then
    let '(ts3, statistics3, best') :=
      filterThresholds labelMatrix featureMatrix weights ts2 (liveStatistics s) best in
    {| thresholdsSubset := ts3; liveStatistics := statistics3;
       conditions := conditions s ++ [best'];
       numConditionsGrown := add (numConditionsGrown s) 1;
       ruleRefinements := refinements3; bestRefinementPtr := best';
       bestHeadPtr := headPtr best'; foundRefinement := true; rngState := rng' |}
  else
    {| thresholdsSubset := ts2; liveStatistics := liveStatistics s;
       conditions := conditions s; numConditionsGrown := numConditionsGrown s;
       ruleRefinements := refinements3; bestRefinementPtr := best;
       bestHeadPtr := bestHeadPtr s; foundRefinement := false; rngState := rng' |}.

Definition continues (s : Induction Rng) : bool :=
  foundRefinement s && ((maxConditions_ =? -1) || (numConditionsGrown s <? maxConditions_)).

(** The while loop; [None] when [fuel] iterations were not enough. *)
Fixpoint refineLoop (fuel : nat) (s : Induction Rng) : option (Induction Rng) :=
  if continues s then
    match fuel with
    | O => None
    | S fuel' => refineLoop fuel' (refineOnce s)
    end
  else Some s.

Definition startInduction (statistics : Statistics) (rng : Rng) : Induction Rng :=
  let '(ts, statistics') := createSubset labelMatrix numRows weights statistics in
  {| thresholdsSubset := ts; liveStatistics := statistics'; conditions := [];
     numConditionsGrown := 0; ruleRefinements := ∅;
     bestRefinementPtr := emptyRefinement; bestHeadPtr := None;
     foundRefinement := true; rngState := rng |}.

(** What [induceRule] returns and leaves behind. *)
Record Induced := {
  success : bool;
  quality : float;
  statisticsAfter : Statistics;
  modelAfter : list Rule;
  rngAfter : Rng
}.

(** The end of [induceRule], after the loop. *)
Definition conclude (modelBuilder : list Rule) (currentQuality : float)
    (s : Induction Rng) : Induced :=
  match bestHeadPtr s with
  | None =>
      {| success := false; quality := currentQuality;
         statisticsAfter := liveStatistics s; modelAfter := modelBuilder;
         rngAfter := rngState s |}
  | Some head =>
      let qualityScore := Head.overallQualityScore head in
      if flt qualityScore currentQuality then
        {| success := true; quality := qualityScore;
           statisticsAfter :=
             applyPrediction labelMatrix (thresholdsSubset s) (liveStatistics s);
           modelAfter := modelBuilder ++ [(conditions s, head)];
           rngAfter := rngState s |}
      else
        {| success := false; quality := currentQuality;
           statisticsAfter := liveStatistics s; modelAfter := modelBuilder;
           rngAfter := rngState s |}
  end.

Definition induceRule (fuel : nat) (statistics : Statistics) (rng : Rng)
    (modelBuilder : list Rule) (currentQuality : float) : option Induced :=
  match refineLoop fuel (startInduction statistics rng) with
  | Some s => Some (conclude modelBuilder currentQuality s)
  | None => None
  end.

End RuleInduction.

Arguments success {Rng} _.
Arguments quality {Rng} _.
Arguments statisticsAfter {Rng} _.
Arguments modelAfter {Rng} _.
Arguments rngAfter {Rng} _.

(** ** Sequential driver (SequentialRuleModelInduction::induceRules) *)

Inductive Action := CONTINUE | STORE_STOP | FORCE_STOP.

Record StoppingResult := {
  action : Action;
  numRulesToUse : Z
}.

(** A stopping criterion, asked with the statistics and the number of rules. *)
Definition StoppingCriterion : Type := Statistics -> Z -> StoppingResult.

Fixpoint testStoppingCriteriaFrom (criteria : list StoppingCriterion) (statistics : Statistics)
    (numRules : Z) (result : StoppingResult) : StoppingResult :=
  match criteria with
  | [] => result
  | criterion :: rest =>
      let stoppingCriterionResult := criterion statistics numRules in
      match action stoppingCriterionResult with
      | FORCE_STOP =>
          {| action := FORCE_STOP; numRulesToUse := numRulesToUse stoppingCriterionResult |}
      | STORE_STOP =>
          testStoppingCriteriaFrom rest statistics numRules
            {| action := STORE_STOP; numRulesToUse := numRulesToUse stoppingCriterionResult |}
      | CONTINUE => testStoppingCriteriaFrom rest statistics numRules result
      end
  end.

Definition testStoppingCriteria (criteria : list StoppingCriterion) (statistics : Statistics)
    (numRules : Z) : StoppingResult :=
  testStoppingCriteriaFrom criteria statistics numRules
    {| action := CONTINUE; numRulesToUse := 0 |}.

(** The state of the driver's loop.  [visited] collects what the prediction
    visitor was handed. *)
Record Driver (Rng : Type) := {
  numRules : Z;
  numUsedRules : Z;
  currentQuality : float;
  driverStatistics : Statistics;
  modelBuilder : list Rule;
  visited : list (list Z);
  driverRng : Rng
}.

Arguments numRules {Rng} _.
Arguments numUsedRules {Rng} _.
Arguments currentQuality {Rng} _.
Arguments driverStatistics {Rng} _.
Arguments modelBuilder {Rng} _.
Arguments visited {Rng} _.
Arguments driverRng {Rng} _.

(** How an iteration of the driver's loop ends. *)
Inductive Progress := Running | Stopped | Starved.

Section Driver.

Variable labelMatrix : LabelMatrix.
Variable numRows : Z.
Variable featureMatrix : Z -> FeatureVector.
Variable isNominal : Z -> bool.
Variable Rng : Type.
Variable subSampleFeatures : Rng -> list Z * Rng.
Variable subSampleInstances : Rng -> list Z * Rng.
Variable minCoverage : Z.
Variable maxConditions_ : Z.
Variable stoppingCriteria : list StoppingCriterion.

(** The state before the loop.  [hasDefaultRule] tells whether a head
    refinement factory for the default rule was given; inducing the default
    rule only switches the rule evaluation. *)
Definition startDriver (hasDefaultRule : bool) (uninitialised : list Z) (rng : Rng)
  : Driver Rng :=
  {| numRules := if hasDefaultRule then 1 else 0;
     numUsedRules := 0;
     currentQuality := 0;
     driverStatistics := newStatistics labelMatrix uninitialised;
     modelBuilder := [];
     visited := [];
     driverRng := rng |}.

(** One pass through the loop: the test of the stopping criteria and the
    body.  [fuel] bounds the loop of [induceRule]; [Starved] reports that
    it was not enough. *)
Definition driveOnce (fuel : nat) (d : Driver Rng) : Driver Rng * Progress :=
  let stoppingCriterionResult :=
    testStoppingCriteria stoppingCriteria (driverStatistics d) (numRules d) in
  match action stoppingCriterionResult with
  | FORCE_STOP => (d, Stopped)
  | a =>
      let numUsedRules' :=
        match a with
        | STORE_STOP =>
            if numUsedRules d =? 0 then numRulesToUse stoppingCriterionResult
            else numUsedRules d
        | _ => numUsedRules d
        end in
      let '(weights, rng1) := subSampleInstances (driverRng d) in
      match induceRule labelMatrix numRows featureMatrix isNominal Rng subSampleFeatures
                       minCoverage maxConditions_ weights fuel (driverStatistics d) rng1
                       (modelBuilder d) (currentQuality d) with
      | None => (d, Starved)
      | Some result =>
          if success result then
            ({| numRules := add (numRules d) 1;
                numUsedRules := numUsedRules';
                currentQuality := quality result;
                driverStatistics := statisticsAfter result;
                modelBuilder := modelAfter result;
                visited := visited d ++ [getPredictions (statisticsAfter result)];
                driverRng := rngAfter result |},
             Running)
          else
            ({| numRules := numRules d;
                numUsedRules := numUsedRules';
                currentQuality := quality result;
                driverStatistics := statisticsAfter result;
                modelBuilder := modelAfter result;
                visited := visited d;
                driverRng := rngAfter result |},
             Stopped)
      end
  end.

(** At most [rounds] passes through the loop. *)
Fixpoint driveLoop (rounds fuel : nat) (d : Driver Rng) : Driver Rng * Progress :=
  match rounds with
  | O => (d, Running)
  | S rounds' =>
      match driveOnce fuel d with
      | (d', Running) => driveLoop rounds' fuel d'
      | stopped => stopped
      end
  end.

Definition induceRules (rounds fuel : nat) (hasDefaultRule : bool)
    (uninitialised : list Z) (rng : Rng) : Driver Rng * Progress :=
  driveLoop rounds fuel (startDriver hasDefaultRule uninitialised rng).

(** The quality scores of the rules handed to the model builder, in the
    order of their addition. *)
Definition committedScores (d : Driver Rng) : list float :=
  map (fun rule : Rule => Head.overallQualityScore (snd rule)) (modelBuilder d).

End Driver.

Arguments committedScores {Rng} d.

(** * Vocabulary of the properties *)

(** ** The order of float64 values

    [sfKey] maps the floats that are not NaN to integers such that [<] on
    floats is [<] on the keys; [rank] shifts the key into the naturals. *)

Module FloatOrder.

Definition keyBound : Z := 2200 * 2 ^ 53.

Definition sfKey (x : spec_float) : Z :=
  match x with
  | S754_zero _ => 0
  | S754_infinity s => if s then - keyBound else keyBound
  | S754_nan => 0
  | S754_finite s m e =>
      let v := (e + 1100) * 2 ^ 53 + Z.pos m in if s then - v else v
  end.

Definition sfIsNan (x : spec_float) : bool :=
  match x with S754_nan => true | _ => false end.

Definition rank (x : float) : nat := Z.to_nat (sfKey (Prim2SF x) + keyBound).

End FloatOrder.

(** Every element is strictly lower than the one before it. *)
Definition strictlyDecreasing (l : list float) : Prop :=
  forall (i : nat) (a b : float), l !! i = Some a -> l !! S i = Some b -> flt b a = true.

(** The number of examples among [first .. last - 1] whose coverage count
    is positive. *)
Definition numCoveredInSlot (counts : list Z) (first last : Z) : Z :=
  Z.of_nat (length (filter (fun j => 0 < rd counts j) (positions first last))).

(** What holds of the driver between two passes through its loop: the
    committed scores are negative and decreasing, and the current quality
    is the score of the last committed rule (0 before the first). *)
Definition driverInvariant {Rng : Type} (d : Driver Rng) : Prop :=
  Forall (fun s => flt s 0 = true) (committedScores d) /\
  strictlyDecreasing (committedScores d) /\
  currentQuality d = default 0%float (last (committedScores d)).

(** Every candidate a head was searched for had at least [minCoverage]
    covered examples. *)
Definition supported (minCoverage : Z) (s : Search) : Prop :=
  Forall (fun n => minCoverage <= n) (evaluated s).

(** ** Exact sums

    The sums of the rule evaluation over the integers, without rounding. *)

Module ExactSums.

Definition sumZ (l : list Z) : Z := fold_right Z.add 0 l.

Definition dotZ (x y : list Z) : Z := sumZ (zip_with Z.mul x y).

Definition numeratorZ (x y : list Z) : Z :=
  Z.of_nat (length y) * dotZ x y - sumZ x * sumZ y.

Definition varianceZ (v : list Z) : Z :=
  Z.of_nat (length v) * dotZ v v - sumZ v * sumZ v.

(** All entries are the same: the variance over the time slots is zero. *)
Definition constant (v : list Z) : Prop := exists c, v = replicate (length v) c.

Definition of_Z (z : Z) : float :=
  if z <? 0 then fneg (of_uint32 (- z)) else of_uint32 z.

(** The float64 arithmetic of the evaluation is exact on [x] and [y]: the
    numerator and the two variance terms come out as the floats of their
    integer values (as they do while no intermediate value exceeds 2^53). *)
Definition exact (x y : list Z) : Prop :=
  let n := of_uint32 (Z.of_nat (length y)) in
  let s := accumulateSums x y in
  numeratorOf n s = of_Z (numeratorZ x y) /\
  xVarianceTerm n s = of_Z (varianceZ x) /\
  yVarianceTerm n s = of_Z (varianceZ y).

(** The negated absolute Pearson quotient of two series of counts: the
    numerator n * sum(x*y) - sum(x) * sum(y) and the variance terms
    n * sum(x^2) - sum(x)^2 and n * sum(y^2) - sum(y)^2 are taken over the
    integers; the two square roots, their product and the quotient are
    float64 operations, each of them correctly rounded. *)
Definition pearsonScore (x y : list Z) : float :=
  fneg (fabs (fdiv (of_Z (numeratorZ x y))
                   (fmul (fsqrt (of_Z (varianceZ x))) (fsqrt (of_Z (varianceZ y)))))).

End ExactSums.

(** ** Integers in float64 *)

Module IntegerFloats.

(** The float64 of a positive integer of at most 53 bits, with sign [s]:
    the mantissa is the integer shifted to 53 bits. *)
Definition canon (s : bool) (v : positive) : spec_float :=
  let d := Z.pos (digits2_pos v) in
  S754_finite s (Z.to_pos (Z.pos v * 2 ^ (53 - d))) (d - 53).

Definition intSF (z : Z) : spec_float :=
  match z with
  | Z0 => S754_zero false
  | Zpos v => canon false v
  | Zneg v => canon true v
  end.

End IntegerFloats.

(** Counts between 0 and [B] over so few time slots that no sum of the
    rule evaluation reaches 2^53. *)
Definition smallCounts (B : Z) (x y : list Z) : Prop :=
  length x = length y /\
  Forall (fun c => 0 <= c <= B) x /\ Forall (fun c => 0 <= c <= B) y /\
  1 <= B /\ Z.of_nat (length y) * B <= 2 ^ 26.

(** ** Scenarios *)

(** Three examples in two time slots with ground truth 1 and 2, one
    numerical feature with the values 3, 3 and 1, all weights 1.  The
    first candidate of the search, [f > 2], covers one example in each
    slot. *)
Module ConstantCandidate.

Definition labelMatrix : LabelMatrix :=
  {| timeSlots := [0; 1; 1]; indices := [0; 1; 3]; values := [1; 2] |}.

Definition weights : list Z := [1; 1; 1].

Definition featureVector : FeatureVector :=
  {| entries := [ {| value := 1; index := 2 |};
                  {| value := 3; index := 0 |};
                  {| value := 3; index := 1 |} ];
     missingIndices := [] |}.

(** The statistics when the first rule starts to grow. *)
Definition statistics : Statistics :=
  snd (createSubset labelMatrix 3 weights (newStatistics labelMatrix [0; 0])).

Definition found : Refinement :=
  findRefinement labelMatrix statistics weights featureVector 3 false 0 0 None.

End ConstantCandidate.

(** Three examples, one per time slot, with the same ground truth of
    2418525393 in every slot, one numerical feature with the values 1, 2
    and 3, all weights 1.  The first candidate of the search, [f > 2.5],
    covers the last example. *)
Module RoundedVariance.

Definition labelMatrix : LabelMatrix :=
  {| timeSlots := [0; 1; 2]; indices := [0; 1; 2; 3];
     values := [2418525393; 2418525393; 2418525393] |}.

Definition weights : list Z := [1; 1; 1].

Definition featureVector : FeatureVector :=
  {| entries := [ {| value := 1; index := 0 |}; {| value := 2; index := 1 |};
                  {| value := 3; index := 2 |} ];
     missingIndices := [] |}.

Definition statistics : Statistics :=
  snd (createSubset labelMatrix 3 weights (newStatistics labelMatrix [0; 0; 0])).

Definition found : Refinement :=
  findRefinement labelMatrix statistics weights featureVector 3 false 0 0 None.

End RoundedVariance.

(** Four examples, one per time slot, all of them in the sample (weight
    1); only the last slot has a ground truth of 1.  The one feature is 5
    for the example 0, missing for the examples 1 and 2 and (sparse) 0 for
    the example 3.  The minimum support is 0.5. *)
Module ComplementWithMissing.

Definition labelMatrix : LabelMatrix :=
  {| timeSlots := [0; 1; 2; 3]; indices := [0; 1; 2; 3; 4]; values := [0; 0; 0; 1] |}.

Definition weights : list Z := [1; 1; 1; 1].

Definition featureMatrix (j : Z) : FeatureVector :=
  {| entries := [ {| value := 5; index := 0 |} ]; missingIndices := [1; 2] |}.

Definition isNominal (j : Z) : bool := false.

Definition subSampleFeatures (rng : unit) : list Z * unit := ([0], tt).

Definition minCoverage : Z := minCoverageOf Float32.half 4.

Definition statistics : Statistics :=
  snd (createSubset labelMatrix 4 weights (newStatistics labelMatrix [0; 0; 0; 0])).

Definition induced : option (Induced unit) :=
  induceRule labelMatrix 4 featureMatrix isNominal unit subSampleFeatures minCoverage 1
    weights 5 (newStatistics labelMatrix [0; 0; 0; 0]) tt [] 0.

End ComplementWithMissing.

(** Two examples, one per time slot.  The second example is not part of the
    sample (weight 0) and its value of the feature is missing. *)
Module MissingOutsideSample.

Definition labelMatrix : LabelMatrix :=
  {| timeSlots := [0; 1]; indices := [0; 1; 2]; values := [1; 0] |}.

Definition weights : list Z := [1; 0].

Definition featureVector : FeatureVector :=
  {| entries := [ {| value := 1; index := 0 |} ]; missingIndices := [1] |}.

(** The statistics when the first rule starts to grow. *)
Definition statistics : Statistics :=
  snd (createSubset labelMatrix 2 weights (newStatistics labelMatrix [0; 0])).

(** The subset of the search after the loop over the missing indices. *)
Definition afterMissing : StatisticsSubset :=
  subset (search (initialSweep labelMatrix statistics weights featureVector 0 None)).

End MissingOutsideSample.

(** Six examples in three time slots with ground truth 2, 0 and 2; one
    numerical feature that is 1 for the examples of the first and the last
    slot and (sparse) 0 for the others.  [grown] is the state when the rule
    [f > 0.5] has been grown and is about to be committed. *)
Module PerfectRule.

Definition labelMatrix : LabelMatrix :=
  {| timeSlots := [0; 0; 1; 1; 2; 2]; indices := [0; 2; 4; 6]; values := [2; 0; 2] |}.

Definition weights : list Z := [1; 1; 1; 1; 1; 1].

Definition featureMatrix (j : Z) : FeatureVector :=
  {| entries := [ {| value := 1; index := 0 |}; {| value := 1; index := 1 |};
                  {| value := 1; index := 4 |}; {| value := 1; index := 5 |} ];
     missingIndices := [] |}.

Definition isNominal (j : Z) : bool := false.

Definition subSampleFeatures (rng : unit) : list Z * unit := ([0], tt).

Definition grown : Induction unit :=
  refineOnce labelMatrix featureMatrix isNominal unit subSampleFeatures 0 weights
    (startInduction labelMatrix 6 unit weights (newStatistics labelMatrix [7; 7; 7]) tt).

End PerfectRule.

(** Five examples sorted by their value of a feature: -2, -1, 0.5, 1 and 2. *)
Module SortedValues.

Definition featureVector : FeatureVector :=
  {| entries := [ {| value := -2; index := 0 |}; {| value := -1; index := 1 |};
                  {| value := 0.5; index := 2 |}; {| value := 1; index := 3 |};
                  {| value := 2; index := 4 |} ];
     missingIndices := [] |}.

End SortedValues.

(** ** The statistics between two rules *)

(** The number of examples among [first .. last - 1] that the mask covers
    and that no committed rule covers. *)
Definition numFreshInSlot (mask : CoverageMask) (counts : list Z) (first last : Z) : Z :=
  Z.of_nat (length (filter (fun j => isCovered mask j && (rd counts j =? 0) = true)
                           (positions first last))).

(** The slots of the label matrix follow each other within the examples. *)
Definition slotsInOrder (labelMatrix : LabelMatrix) : Prop :=
  forall t, 0 <= t < getNumTimeSlots labelMatrix ->
    0 <= rd (indices labelMatrix) t <= rd (indices labelMatrix) (t + 1)
    /\ rd (indices labelMatrix) (t + 1) <= getNumRows labelMatrix.

(** The prediction of every slot is its number of examples covered by a
    committed rule. *)
Definition predictionsCountCovered (labelMatrix : LabelMatrix) (st : Statistics) : Prop :=
  forall t, 0 <= t < getNumTimeSlots labelMatrix ->
    rd (predictionVector st) t =
    numCoveredInSlot (coverageCountVector st) (rd (indices labelMatrix) t)
                     (rd (indices labelMatrix) (t + 1)).


(** Two states of the statistics with the same coverage counts and the same
    predictions: what the committed rules left behind. *)
Definition sameCommitted (a b : Statistics) : Prop :=
  coverageCountVector a = coverageCountVector b /\ predictionVector a = predictionVector b.

(** ** The tasks of the parallel loop *)

(** Every refinement object is stored under the feature it searches. *)
Definition wellKeyed (refinements : gmap Z ExactRuleRefinement) : Prop :=
  forall j rr, refinements !! j = Some rr -> featureIndex_ rr = j.

(** What a task leaves behind: possibly a new cache entry for its feature,
    possibly a new state of its refinement object. *)
Definition writeCacheEntry (entry : option FilteredCacheEntry) (j : Z) (ts : ThresholdsSubset)
  : ThresholdsSubset :=
  match entry with
  | Some e =>
      {| numCoveredExamples_ := numCoveredExamples_ ts;
         coverageMask_ := coverageMask_ ts;
         numModifications_ := numModifications_ ts;
         cacheFiltered_ := <[j := e]> (cacheFiltered_ ts) |}
  | None => ts
  end.

Definition writeRefinement (object : option ExactRuleRefinement) (j : Z)
    (refinements : gmap Z ExactRuleRefinement) : gmap Z ExactRuleRefinement :=
  match object with
  | Some rr => <[j := rr]> refinements
  | None => refinements
  end.

(** What a task for the feature [j] reads of the thresholds subset: the
    coverage mask, the number of modifications and the cache entry of [j]. *)
Definition sameFor (j : Z) (a b : ThresholdsSubset) : Prop :=
  coverageMask_ a = coverageMask_ b /\
  numModifications_ a = numModifications_ b /\
  cacheFiltered_ a !! j = cacheFiltered_ b !! j.

(** Six examples, two per time slot, with ground truth 1, 2 and 1, and a
    numerical feature that is 1 for the first and the last example and
    (sparse) 0 for the others.  The last example is outside the sample
    (weight 0).  [induced] is the outcome of inducing one rule of at most one
    condition, at least two examples to be covered, when no rule has been
    committed before. *)
Module RuleOutsideSample.

Definition labelMatrix : LabelMatrix :=
  {| timeSlots := [0; 0; 1; 1; 2; 2]; indices := [0; 2; 4; 6]; values := [1; 2; 1] |}.

Definition weights : list Z := [1; 1; 1; 1; 1; 0].

Definition featureMatrix (j : Z) : FeatureVector :=
  {| entries := [ {| value := 1; index := 0 |}; {| value := 1; index := 5 |} ];
     missingIndices := [] |}.

Definition isNominal (j : Z) : bool := false.

Definition subSampleFeatures (rng : unit) : list Z * unit := ([0], tt).

Definition induced : option (Induced unit) :=
  induceRule labelMatrix 6 featureMatrix isNominal unit subSampleFeatures 2 1 weights 5
    (newStatistics labelMatrix [0; 0; 0]) tt [] 0.

End RuleOutsideSample.

(** Six examples, two per time slot, with ground truth 2, 0 and 0, all of
    them in the sample (weight 1).  Feature 0 is 1 for the examples 0, 1 and
    2 and (sparse) 0 for the others; feature 1 is 1 for the examples 0, 1, 4
    and 5, missing for the example 2 and (sparse) 0 for the example 3.  Both
    features are sampled in every pass, feature 1 first; a condition has to
    cover one example at least.  [afterTwo] is the state of the loop of
    [induceRule] after two passes, [handedOut] the feature vector the
    callback hands out for feature 1 in the third pass, and [afterMissing]
    the statistics subset of that search after its loop over the missing
    indices. *)
Module MissingAfterCondition.

Definition labelMatrix : LabelMatrix :=
  {| timeSlots := [0; 0; 1; 1; 2; 2]; indices := [0; 2; 4; 6]; values := [2; 0; 0] |}.

Definition weights : list Z := [1; 1; 1; 1; 1; 1].

Definition featureMatrix (j : Z) : FeatureVector :=
  if j =? 0 then
    {| entries := [ {| value := 1; index := 0 |}; {| value := 1; index := 1 |};
                    {| value := 1; index := 2 |} ];
       missingIndices := [] |}
  else
    {| entries := [ {| value := 1; index := 0 |}; {| value := 1; index := 1 |};
                    {| value := 1; index := 4 |}; {| value := 1; index := 5 |} ];
       missingIndices := [2] |}.

Definition isNominal (j : Z) : bool := false.

Definition subSampleFeatures (rng : unit) : list Z * unit := ([1; 0], tt).

Definition pass : Induction unit -> Induction unit :=
  refineOnce labelMatrix featureMatrix isNominal unit subSampleFeatures 1 weights.

Definition afterTwo : Induction unit :=
  pass (pass (startInduction labelMatrix 6 unit weights
                (newStatistics labelMatrix [0; 0; 0]) tt)).

Definition thirdPass : ThresholdsSubset :=
  fst (createRefinements isNominal [1; 0]
         (thresholdsSubset afterTwo, ruleRefinements afterTwo)).

Definition handedOut : FeatureVector := snd (callbackGet featureMatrix thirdPass 1).

Definition afterMissing : StatisticsSubset :=
  subset (search (initialSweep labelMatrix (liveStatistics afterTwo) weights handedOut 1
                               (bestHeadPtr afterTwo))).

End MissingAfterCondition.

(** * Further parts of the sources *)

(** ** Dense vectors (DenseVector)

    A vector owns a block of [maxCapacity_] elements, of which the first
    [numElements_] are its elements.  [calloc] yields a block of zeros;
    what [malloc] yields, and what [realloc] appends when it enlarges a
    block, is not determined by the program: those elements are given as
    [uninitialised].  Allocation is taken to succeed. *)

Record DenseVector (T : Type) := {
  array_ : list T;
  numElements_ : Z;
  maxCapacity_ : Z
}.

Arguments array_ {T} _.
Arguments numElements_ {T} _.
Arguments maxCapacity_ {T} _.

Section DenseVectorOperations.

Variable T : Type.

(** The value all of whose bytes are zero. *)
Variable zero : T.

(** [DenseVector(numElements, init)]. *)
Definition newDenseVector (numElements : Z) (init : bool) (uninitialised : list T)
  : DenseVector T :=
  {| array_ := if init then replicate (Z.to_nat numElements) zero
               else take (Z.to_nat numElements) uninitialised;
     numElements_ := numElements;
     maxCapacity_ := numElements |}.

(** [realloc]: the elements up to the smaller of the two sizes are kept. *)
Definition realloc (array : list T) (size : Z) (uninitialised : list T) : list T :=
  take (Z.to_nat size) array
  ++ take (Z.to_nat size - length array) uninitialised.

Definition setNumElements (v : DenseVector T) (numElements : Z) (freeMemory : bool)
    (uninitialised : list T) : DenseVector T :=
  if numElements <? maxCapacity_ v then
    if freeMemory then
      {| array_ := realloc (array_ v) numElements uninitialised;
         numElements_ := numElements;
         maxCapacity_ := numElements |}
    else
      {| array_ := array_ v; numElements_ := numElements; maxCapacity_ := maxCapacity_ v |}
  else if maxCapacity_ v <? numElements then
    {| array_ := realloc (array_ v) numElements uninitialised;
       numElements_ := numElements;
       maxCapacity_ := numElements |}
  else
    {| array_ := array_ v; numElements_ := numElements; maxCapacity_ := maxCapacity_ v |}.

End DenseVectorOperations.

Arguments newDenseVector {T} zero numElements init uninitialised.
Arguments realloc {T} array size uninitialised.
Arguments setNumElements {T} v numElements freeMemory uninitialised.

(** ** Operations on arrays (namespace tsa)

    The functions are templates over the type [T] of the elements; they are
    given here over any type with a subtraction, an addition and a
    multiplication.  Reading outside an array is undefined in the source
    and yields [outside] here; the arrays written to are taken not to
    overlap the arrays read. *)

Section ArrayOperations.

Variable T : Type.
Variable tsub tadd tmul : T -> T -> T.
Variable outside : T.

Definition at_ (array : list T) (i : Z) : T := default outside (array !! Z.to_nat i).

(** [setArrayToDifference(a, b, c, numElements)]: the array [a] after
    the call. *)
Definition setArrayToDifference (a b c : list T) (numElements : Z) : list T :=
  fold_left (fun a i => <[Z.to_nat i := tsub (at_ b i) (at_ c i)]> a)
            (positions 0 numElements) a.

(** [setArrayToDifference(a, b, c, indices, numElements)]. *)
Definition setArrayToDifferenceIndexed (a b c : list T) (indices' : list Z) (numElements : Z)
  : list T :=
  fold_left (fun a i => let index' := rd indices' i in
                        <[Z.to_nat i := tsub (at_ b index') (at_ c i)]> a)
            (positions 0 numElements) a.

(** [addToArray(a, b, numElements)]. *)
Definition addToArray (a b : list T) (numElements : Z) : list T :=
  fold_left (fun a i => <[Z.to_nat i := tadd (at_ a i) (at_ b i)]> a)
            (positions 0 numElements) a.

(** [addToArray(a, b, numElements, weight)]. *)
Definition addToArrayWeighted (a b : list T) (numElements : Z) (weight : T) : list T :=
  fold_left (fun a i => <[Z.to_nat i := tadd (at_ a i) (tmul (at_ b i) weight)]> a)
            (positions 0 numElements) a.

End ArrayOperations.

Arguments at_ {T} outside array i.
Arguments setArrayToDifference {T} tsub outside a b c numElements.
Arguments setArrayToDifferenceIndexed {T} tsub outside a b c indices' numElements.
Arguments addToArray {T} tadd outside a b numElements.
Arguments addToArrayWeighted {T} tadd tmul outside a b numElements weight.

(** ** The stopping criteria handed to the driver (rule_induction.pyx)

    The constructor of the wrapper walks the list of stopping criteria it
    is given and pushes each one to the front of the list the driver
    tests. *)

Definition stoppingCriteriaPtr (stopping_criteria : list StoppingCriterion)
  : list StoppingCriterion :=
  fold_left (fun pushed criterion => criterion :: pushed) stopping_criteria [].

(** ** The construction of the label matrix (CContiguousLabelMatrix)

    The constructor reads a row-major array with [numCols] columns, whose
    first column holds the timestamp of an example and whose second column
    holds the value of its time slot, and groups consecutive examples of
    equal timestamp into time slots.  The three vectors are allocated with
    [numRows] elements each, without initialisation. *)

(** The local variables of the constructor, vectors included. *)
Record LabelMatrixBuild := {
  timeSlots_ : list Z;
  indices_ : list Z;
  values_ : list Z;
  timeSlotIndex : Z;
  previousTimestamp : Z
}.

(** The body of the loop over the examples. *)
Definition groupExample (numCols : Z) (array : list Z) (b : LabelMatrixBuild)
    (exampleIndex : Z) : LabelMatrixBuild :=
  let offset := wrap32 (exampleIndex * numCols) in
  let timestamp := rd array offset in
  let b1 :=
    if negb (timestamp =? previousTimestamp b) then
      let timeSlotIndex' := add (timeSlotIndex b) 1 in
      {| timeSlots_ := timeSlots_ b;
         indices_ := wr (indices_ b) timeSlotIndex' exampleIndex;
         values_ := wr (values_ b) timeSlotIndex' (rd array (add offset 1));
         timeSlotIndex := timeSlotIndex';
         previousTimestamp := timestamp |}
    else b in
  {| timeSlots_ := wr (timeSlots_ b1) exampleIndex (timeSlotIndex b1);
     indices_ := indices_ b1;
     values_ := values_ b1;
     timeSlotIndex := timeSlotIndex b1;
     previousTimestamp := previousTimestamp b1 |}.

(** The state after the loop. *)
Definition groupExamples (numRows numCols : Z) (array : list Z)
    (uninitialisedTimeSlots uninitialisedIndices uninitialisedValues : list Z)
  : LabelMatrixBuild :=
  fold_left (groupExample numCols array) (positions 1 numRows)
    {| timeSlots_ := wr (array_ (newDenseVector 0 numRows false uninitialisedTimeSlots)) 0 0;
       indices_ := wr (array_ (newDenseVector 0 numRows false uninitialisedIndices)) 0 0;
       values_ := wr (array_ (newDenseVector 0 numRows false uninitialisedValues)) 0
                     (rd array 1);
       timeSlotIndex := 0;
       previousTimestamp := rd array 0 |}.

(** The constructor.  The two last arguments stand for what [realloc]
    would append. *)
Definition newLabelMatrix (numRows numCols : Z) (array : list Z)
    (uninitialisedTimeSlots uninitialisedIndices uninitialisedValues : list Z)
    (appendedIndices appendedValues : list Z) : LabelMatrix :=
  let b := groupExamples numRows numCols array uninitialisedTimeSlots uninitialisedIndices
                         uninitialisedValues in
  let numTimeSlots := add (timeSlotIndex b) 1 in
  let indices' := wr (indices_ b) (add (timeSlotIndex b) 1) numRows in
  {| timeSlots := timeSlots_ b;
     indices :=
       array_ (setNumElements
                 {| array_ := indices'; numElements_ := numRows; maxCapacity_ := numRows |}
                 (add numTimeSlots 1) true appendedIndices);
     values :=
       array_ (setNumElements
                 {| array_ := values_ b; numElements_ := numRows; maxCapacity_ := numRows |}
                 numTimeSlots true appendedValues) |}.

(** * Properties *)

(** ** Machine integers and arrays *)

Lemma wrap32_small z : 0 <= z < modulus -> wrap32 z = z.
Proof. intros H. unfold wrap32. apply Z.mod_small. exact H. Qed.

Lemma wrap32_range z : 0 <= wrap32 z < modulus.
Proof. unfold wrap32. apply Z.mod_pos_bound. reflexivity. Qed.

Lemma length_wr l i v : length (wr l i v) = length l.
Proof. unfold wr. apply length_insert. Qed.

Lemma rd_wr_eq l i v : 0 <= i < Z.of_nat (length l) -> rd (wr l i v) i = v.
Proof.
  intros H. unfold rd, wr.
  rewrite list_lookup_insert_eq; [reflexivity | lia].
Qed.

Lemma rd_wr_ne l i j v : 0 <= i -> 0 <= j -> i <> j -> rd (wr l i v) j = rd l j.
Proof.
  intros Hi Hj Hne. unfold rd, wr.
  rewrite list_lookup_insert_ne; [reflexivity | lia].
Qed.

Lemma rd_app_middle (l1 l2 : list Z) x :
  rd (l1 ++ x :: l2) (Z.of_nat (length l1)) = x.
Proof.
  unfold rd. rewrite Nat2Z.id.
  rewrite lookup_app_r by lia.
  replace (length l1 - length l1)%nat with 0%nat by lia. reflexivity.
Qed.

Lemma rd_nonneg l i : Forall (fun v => 0 <= v) l -> 0 <= rd l i.
Proof.
  intros H. unfold rd. destruct (l !! Z.to_nat i) as [v|] eqn:E; simpl; [|lia].
  rewrite Forall_forall in H. apply H.
  apply list_elem_of_lookup. eauto.
Qed.

Lemma positions_nil first last : last <= first -> positions first last = [].
Proof.
  intros H. unfold positions. replace (Z.to_nat (last - first)) with 0%nat by lia.
  reflexivity.
Qed.

Lemma positions_cons first last :
  first < last -> positions first last = first :: positions (first + 1) last.
Proof.
  intros H. unfold positions.
  replace (Z.to_nat (last - first)) with (S (Z.to_nat (last - (first + 1)))) by lia.
  simpl. f_equal; [lia|].
  rewrite <- seq_shift, map_map. apply map_ext. intros k. lia.
Qed.

Lemma in_positions first last i : In i (positions first last) <-> first <= i < last.
Proof.
  unfold positions. rewrite in_map_iff. split.
  - intros (k & <- & Hk). apply in_seq in Hk. lia.
  - intros H. exists (Z.to_nat (i - first)). split; [lia|]. apply in_seq. lia.
Qed.

(** ** Rule evaluation: the loop computes the sums of the formula *)

Section SumsFacts.

Import Series.

Lemma sums_fold (g1 g2 p1 p2 : list Z) (s : Sums) :
  length g1 = length p1 -> length g2 = length p2 ->
  fold_left (sumsStep (g1 ++ g2) (p1 ++ p2)) (seq (length g1) (length g2)) s =
  {| xSum := fold_left fadd (map of_uint32 g2) (xSum s);
     xSquaredSum := fold_left fadd (map pow2 (map of_uint32 g2)) (xSquaredSum s);
     ySum := fold_left fadd (map of_uint32 p2) (ySum s);
     ySquaredSum := fold_left fadd (map pow2 (map of_uint32 p2)) (ySquaredSum s);
     productSum :=
       fold_left fadd (products (map of_uint32 g2) (map of_uint32 p2)) (productSum s) |}.
Proof.
  revert g1 p1 p2 s. induction g2 as [|x g2 IH]; intros g1 p1 p2 s H1 H2.
  - destruct p2; [|discriminate]. destruct s; reflexivity.
  - destruct p2 as [|y p2]; [discriminate|]. simpl in H2.
    cbn [length seq fold_left map].
    replace (g1 ++ x :: g2) with ((g1 ++ [x]) ++ g2) by (rewrite <- app_assoc; reflexivity).
    replace (p1 ++ y :: p2) with ((p1 ++ [y]) ++ p2) by (rewrite <- app_assoc; reflexivity).
    replace (S (length g1)) with (length (g1 ++ [x])) by (rewrite length_app; simpl; lia).
    assert (Hx : rd ((g1 ++ [x]) ++ g2) (Z.of_nat (length g1)) = x).
    { rewrite <- app_assoc. apply rd_app_middle. }
    assert (Hy : rd ((p1 ++ [y]) ++ p2) (Z.of_nat (length g1)) = y).
    { rewrite <- app_assoc, H1. apply rd_app_middle. }
    rewrite IH.
    + unfold sumsStep. rewrite Hx, Hy. reflexivity.
    + rewrite !length_app. simpl. lia.
    + lia.
Qed.

Lemma accumulateSums_spec (groundTruth predictions : list Z) :
  length groundTruth = length predictions ->
  accumulateSums groundTruth predictions =
  {| xSum := fsum (map of_uint32 groundTruth);
     xSquaredSum := fsum (map pow2 (map of_uint32 groundTruth));
     ySum := fsum (map of_uint32 predictions);
     ySquaredSum := fsum (map pow2 (map of_uint32 predictions));
     productSum := fsum (products (map of_uint32 groundTruth) (map of_uint32 predictions)) |}.
Proof.
  intros H. unfold accumulateSums. rewrite <- H.
  exact (sums_fold [] groundTruth [] predictions zeroSums eq_refl H).
Qed.

End SumsFacts.

(** ** The order of float64 values *)

Module FloatOrderFacts.

Import FloatOrder.

Lemma digits2_pos_bound m : Z.pos m < 2 ^ Z.pos (digits2_pos m).
Proof.
  induction m as [m IH|m IH|]; cbn [digits2_pos].
  - rewrite Pos2Z.inj_succ, Z.pow_succ_r by lia. lia.
  - rewrite Pos2Z.inj_succ, Z.pow_succ_r by lia. lia.
  - reflexivity.
Qed.

Lemma valid_finite s m e :
  valid_binary (S754_finite s m e) = true -> Z.pos m < 2 ^ 53 /\ -1074 <= e <= 971.
Proof.
  unfold SpecFloat.valid_binary, bounded, canonical_mantissa, fexp, SpecFloat.emin.
  intros H. apply andb_prop in H. destruct H as [H1 H2].
  apply Z.eqb_eq in H1. apply Z.leb_le in H2.
  change prec with 53 in *. change emax with 1024 in *.
  pose proof (digits2_pos_bound m) as Hd.
  assert (Hle : Z.pos (digits2_pos m) <= 53) by lia.
  split; [|lia].
  eapply Z.lt_le_trans; [exact Hd|].
  apply Z.pow_le_mono_r; lia.
Qed.

Lemma SFltb_iff a b :
  valid_binary a = true -> valid_binary b = true ->
  SFltb a b = true <-> (sfIsNan a = false /\ sfIsNan b = false /\ sfKey a < sfKey b).
Proof.
  intros Va Vb. unfold SFltb.
  destruct a as [sa|sa| |sa ma ea], b as [sb|sb| |sb mb eb];
    cbn [SFcompare sfKey sfIsNan];
    try (apply valid_finite in Va; destruct Va as [Ma Ea]);
    try (apply valid_finite in Vb; destruct Vb as [Mb Eb]);
    unfold keyBound;
    try (destruct sa); try (destruct sb);
    try (split; [intros ?; try discriminate; repeat split; lia
                | intros (? & ? & ?); try discriminate; try reflexivity; lia]).
  all: change (Pos.compare_cont Eq ma mb) with (Pos.compare ma mb);
    destruct (Z.compare_spec ea eb) as [He|He|He];
    destruct (Pos.compare_spec ma mb) as [Hm|Hm|Hm]; cbn [CompOpp];
    (split; [intros ?; try discriminate; repeat split; lia
            | intros (? & ? & ?); try discriminate; try reflexivity; lia]).
Qed.

Lemma flt_iff a b :
  flt a b = true <->
  (sfIsNan (Prim2SF a) = false /\ sfIsNan (Prim2SF b) = false
   /\ sfKey (Prim2SF a) < sfKey (Prim2SF b)).
Proof.
  unfold flt. rewrite ltb_spec. apply SFltb_iff; apply Prim2SF_valid.
Qed.

Lemma flt_trans a b c : flt a b = true -> flt b c = true -> flt a c = true.
Proof.
  rewrite !flt_iff. intros (Ha & Hb & Hab) (_ & Hc & Hbc). repeat split; [assumption..|lia].
Qed.

Lemma flt_irrefl a : flt a a = false.
Proof.
  destruct (flt a a) eqn:E; [|reflexivity].
  apply flt_iff in E. lia.
Qed.

Lemma flt_same_false a b : a = b -> flt a b = false.
Proof. intros ->. apply flt_irrefl. Qed.

Lemma sfKey_range x : valid_binary x = true -> - keyBound <= sfKey x <= keyBound.
Proof.
  intros V. destruct x as [s|s| |s m e]; cbn [sfKey]; unfold keyBound.
  - lia.
  - destruct s; lia.
  - lia.
  - apply valid_finite in V. destruct V as [M E]. destruct s; lia.
Qed.

Lemma flt_rank a b : flt a b = true -> (rank a < rank b)%nat.
Proof.
  intros H. apply flt_iff in H. destruct H as (_ & _ & H). unfold rank.
  pose proof (sfKey_range _ (Prim2SF_valid a)).
  pose proof (sfKey_range _ (Prim2SF_valid b)).
  lia.
Qed.

Lemma flt_nan_r a : flt a nan = false.
Proof.
  unfold flt. rewrite ltb_spec. unfold SFltb.
  replace (Prim2SF nan) with S754_nan by reflexivity.
  destruct (Prim2SF a); reflexivity.
Qed.

Lemma flt_nan_l a : flt nan a = false.
Proof. unfold flt. rewrite ltb_spec. reflexivity. Qed.

Lemma flt_infinity_l a : flt infinity a = false.
Proof.
  unfold flt. rewrite ltb_spec. unfold SFltb.
  replace (Prim2SF infinity) with (S754_infinity false) by reflexivity.
  destruct (Prim2SF a) as [s|s| |s m e]; try reflexivity. destruct s; reflexivity.
Qed.

End FloatOrderFacts.

(** ** The driver commits ever better rules *)

Lemma strictlyDecreasing_nil : strictlyDecreasing [].
Proof. intros i a b H. rewrite lookup_nil in H. discriminate. Qed.

Lemma strictlyDecreasing_snoc l q :
  strictlyDecreasing l ->
  (forall s, last l = Some s -> flt q s = true) ->
  strictlyDecreasing (l ++ [q]).
Proof.
  intros Hl Hq i a b Ha Hb.
  destruct (decide (S i < length l)%nat) as [Hlt|Hge].
  - rewrite lookup_app_l in Ha by lia. rewrite lookup_app_l in Hb by lia.
    exact (Hl i a b Ha Hb).
  - destruct (decide (S i = length l)) as [Heq|Hne].
    + rewrite lookup_app_l in Ha by lia.
      rewrite lookup_app_r in Hb by lia.
      replace (S i - length l)%nat with 0%nat in Hb by lia.
      simpl in Hb. injection Hb as <-.
      apply Hq. rewrite last_lookup. rewrite <- Heq. exact Ha.
    + apply lookup_lt_Some in Hb. rewrite length_app in Hb. simpl in Hb. lia.
Qed.

Section DriverFacts.

Variable labelMatrix : LabelMatrix.
Variable numRows : Z.
Variable featureMatrix : Z -> FeatureVector.
Variable isNominal : Z -> bool.
Variable Rng : Type.
Variable subSampleFeatures : Rng -> list Z * Rng.
Variable subSampleInstances : Rng -> list Z * Rng.
Variable minCoverage : Z.
Variable maxConditions_ : Z.
Variable stoppingCriteria : list StoppingCriterion.

Lemma conclude_cases (model : list Rule) (q : float) (s : Induction Rng) :
  let res := conclude labelMatrix Rng model q s in
  (success res = true /\
   exists h, bestHeadPtr s = Some h /\ flt (Head.overallQualityScore h) q = true /\
             quality res = Head.overallQualityScore h /\
             modelAfter res = model ++ [(conditions s, h)] /\
             statisticsAfter res =
               applyPrediction labelMatrix (thresholdsSubset s) (liveStatistics s))
  \/
  (success res = false /\ quality res = q /\ modelAfter res = model /\
   statisticsAfter res = liveStatistics s /\
   (bestHeadPtr s = None \/
    exists h, bestHeadPtr s = Some h /\ flt (Head.overallQualityScore h) q = false)).
Proof.
  unfold conclude. destruct (bestHeadPtr s) as [h|] eqn:Eh.
  - destruct (flt (Head.overallQualityScore h) q) eqn:Eq; cbn.
    + left. split; [reflexivity|]. exists h. repeat split; assumption.
    + right. repeat split. right. exists h. split; [reflexivity | assumption].
  - right. cbn. repeat split. left. reflexivity.
Qed.

Lemma driverInvariant_start hasDefaultRule uninitialised rng :
  driverInvariant (startDriver labelMatrix Rng hasDefaultRule uninitialised rng).
Proof.
  unfold driverInvariant, committedScores. cbn.
  split; [constructor|]. split; [apply strictlyDecreasing_nil | reflexivity].
Qed.

Lemma driverInvariant_step fuel d :
  driverInvariant d ->
  driverInvariant
    (fst (driveOnce labelMatrix numRows featureMatrix isNominal Rng subSampleFeatures
                    subSampleInstances minCoverage maxConditions_ stoppingCriteria fuel d)).
Proof.
  intros (Hneg & Hdec & Hq). unfold driveOnce.
  set (test := testStoppingCriteria stoppingCriteria (driverStatistics d) (numRules d)).
  assert (Hkeep : driverInvariant d) by (repeat split; assumption).
  assert (Hbody : forall numUsedRules',
    driverInvariant
      (fst (let '(weights, rng1) := subSampleInstances (driverRng d) in
            match induceRule labelMatrix numRows featureMatrix isNominal Rng
                             subSampleFeatures minCoverage maxConditions_ weights fuel
                             (driverStatistics d) rng1 (modelBuilder d)
                             (currentQuality d) with
            | None => (d, Starved)
            | Some result =>
                if success result then
                  ({| numRules := add (numRules d) 1;
                      numUsedRules := numUsedRules';
                      currentQuality := quality result;
                      driverStatistics := statisticsAfter result;
                      modelBuilder := modelAfter result;
                      visited := visited d ++ [getPredictions (statisticsAfter result)];
                      driverRng := rngAfter result |},
                   Running)
                else
                  ({| numRules := numRules d;
                      numUsedRules := numUsedRules';
                      currentQuality := quality result;
                      driverStatistics := statisticsAfter result;
                      modelBuilder := modelAfter result;
                      visited := visited d;
                      driverRng := rngAfter result |},
                   Stopped)
            end))).
  { intros numUsedRules'.
    destruct (subSampleInstances (driverRng d)) as [weights rng1].
    unfold induceRule.
    destruct (refineLoop _ _ _ _ _ _ _ _ _ _) as [s|]; [|exact Hkeep].
    destruct (conclude_cases (modelBuilder d) (currentQuality d) s)
      as [(Hs & h & _ & Hlt & Hqual & Hmodel & _) | (Hs & Hqual & Hmodel & _)];
      rewrite Hs; cbn [fst]; unfold driverInvariant, committedScores;
      cbn [modelBuilder currentQuality]; rewrite Hmodel, Hqual.
    - rewrite map_app. cbn [map snd].
      fold (committedScores d).
      assert (Hlast : forall s', last (committedScores d) = Some s' ->
                                 flt (Head.overallQualityScore h) s' = true).
      { intros s' Hs'. rewrite Hq, Hs' in Hlt. exact Hlt. }
      split; [|split].
      + apply Forall_app. split; [exact Hneg|]. constructor; [|constructor].
        destruct (last (committedScores d)) as [s'|] eqn:El.
        * apply FloatOrderFacts.flt_trans with s'; [apply Hlast; reflexivity|].
          rewrite Forall_forall in Hneg. apply Hneg.
          rewrite last_lookup in El. apply list_elem_of_lookup. eauto.
        * rewrite Hq in Hlt. exact Hlt.
      + apply strictlyDecreasing_snoc; assumption.
      + rewrite last_snoc. reflexivity.
    - fold (committedScores d). repeat split; assumption. }
  destruct (action test); [apply Hbody | apply Hbody | exact Hkeep].
Qed.

Lemma driverInvariant_loop rounds fuel d :
  driverInvariant d ->
  driverInvariant
    (fst (driveLoop labelMatrix numRows featureMatrix isNominal Rng subSampleFeatures
                    subSampleInstances minCoverage maxConditions_ stoppingCriteria
                    rounds fuel d)).
Proof.
  revert d. induction rounds as [|rounds IH]; intros d Hd; [exact Hd|].
  cbn [driveLoop].
  pose proof (driverInvariant_step fuel d Hd) as Hstep.
  destruct (driveOnce _ _ _ _ _ _ _ _ _ _ _ _) as [d' p]. cbn [fst] in Hstep.
  destruct p; [apply IH; exact Hstep | exact Hstep | exact Hstep].
Qed.

(** C10.  The driver starts with the current quality 0 and a rule is only
    committed with a quality score strictly lower than the current
    quality: in every state the driver reaches, all rules committed to
    the model have a strictly negative quality score, and their scores,
    in the order of commitment, are strictly decreasing. *)
Theorem committed_scores_negative_and_decreasing
    (rounds fuel : nat) (hasDefaultRule : bool) (uninitialised : list Z) (rng : Rng) :
  let d := fst (induceRules labelMatrix numRows featureMatrix isNominal Rng
                            subSampleFeatures subSampleInstances minCoverage
                            maxConditions_ stoppingCriteria rounds fuel hasDefaultRule
                            uninitialised rng) in
  Forall (fun s => flt s 0 = true) (committedScores d) /\
  strictlyDecreasing (committedScores d).
Proof.
  intros d.
  destruct (driverInvariant_loop rounds fuel _
              (driverInvariant_start hasDefaultRule uninitialised rng)) as (H1 & H2 & _).
  split; assumption.
Qed.

End DriverFacts.

(** ** Loops that write an array *)

Lemma fold_wr_length (f : nat -> Z) (l : list nat) (p : list Z) :
  length (fold_left (fun a i => wr a (Z.of_nat i) (f i)) l p) = length p.
Proof.
  revert p. induction l as [|i l IH]; intros p; [reflexivity|].
  cbn [fold_left]. rewrite IH. apply length_wr.
Qed.

Lemma fold_wr_rd (f : nat -> Z) (n a : nat) (p : list Z) (t : nat) :
  (a + n <= length p)%nat ->
  rd (fold_left (fun q i => wr q (Z.of_nat i) (f i)) (seq a n) p) (Z.of_nat t) =
  if bool_decide (a <= t < a + n)%nat then f t else rd p (Z.of_nat t).
Proof.
  revert a p. induction n as [|n IH]; intros a p Hlen.
  - cbn [seq fold_left]. rewrite bool_decide_eq_false_2 by lia. reflexivity.
  - cbn [seq fold_left]. rewrite IH by (rewrite length_wr; lia).
    destruct (decide (t = a)) as [->|Hne].
    + rewrite bool_decide_eq_false_2 by lia. rewrite bool_decide_eq_true_2 by lia.
      apply rd_wr_eq. lia.
    + rewrite rd_wr_ne by lia.
      destruct (decide (S a <= t < S a + n)%nat).
      * rewrite !bool_decide_eq_true_2 by lia. reflexivity.
      * rewrite !bool_decide_eq_false_2 by lia. reflexivity.
Qed.

Lemma copyArray_length from to n : length (copyArray from to n) = length to.
Proof. unfold copyArray. apply (fold_wr_length (fun i => rd from (Z.of_nat i))). Qed.

Lemma copyArray_all (from to : list Z) :
  length from = length to -> copyArray from to (length to) = from.
Proof.
  intros Hlen. apply list_eq. intros t.
  destruct (decide (t < length to)%nat) as [Hlt|Hge].
  - pose proof (fold_wr_rd (fun i => rd from (Z.of_nat i)) (length to) 0 to t
                  ltac:(lia)) as H.
    rewrite bool_decide_eq_true_2 in H by lia.
    fold (copyArray from to (length to)) in H. unfold rd in H.
    rewrite Nat2Z.id in H.
    destruct (lookup_lt_is_Some_2 from t ltac:(lia)) as [x Hx].
    destruct (lookup_lt_is_Some_2 (copyArray from to (length to)) t
                ltac:(rewrite copyArray_length; lia)) as [y Hy].
    rewrite Hx, Hy in *. simpl in H. congruence.
  - rewrite !lookup_ge_None_2; [reflexivity | lia | rewrite copyArray_length; lia].
Qed.

(** ** updatePredictions counts the covered examples of every slot *)

Lemma countSlot_fold (counts : list Z) (l : list Z) (acc : Z) :
  0 <= acc -> acc + Z.of_nat (length l) < modulus ->
  fold_left (fun prediction j => if 0 <? rd counts j then add prediction 1 else prediction)
            l acc =
  acc + Z.of_nat (length (filter (fun j => 0 < rd counts j) l)).
Proof.
  revert acc. induction l as [|j l IH]; intros acc H0 Hb.
  - cbn. lia.
  - cbn [fold_left]. cbn [length] in Hb.
    pose proof (length_filter (fun j => 0 < rd counts j) l) as Hf.
    destruct (0 <? rd counts j) eqn:E.
    + apply Z.ltb_lt in E. rewrite filter_cons_True by exact E.
      unfold add. rewrite wrap32_small by lia.
      rewrite IH by lia. cbn [length]. lia.
    + apply Z.ltb_ge in E. rewrite filter_cons_False by lia.
      rewrite IH by lia. reflexivity.
Qed.

Lemma positions_length first last : length (positions first last) = Z.to_nat (last - first).
Proof. unfold positions. rewrite length_map, length_seq. reflexivity. Qed.

Lemma countSlot_spec (counts : list Z) (first last : Z) :
  last - first < modulus ->
  countSlot counts first last = numCoveredInSlot counts first last.
Proof.
  intros H. unfold countSlot, numCoveredInSlot.
  rewrite countSlot_fold; [lia | lia |].
  rewrite positions_length. unfold modulus in *. lia.
Qed.

Lemma updatePredictions_rd (labelMatrix : LabelMatrix) (st : Statistics) (t : Z) :
  length (predictionVector st) = length (values labelMatrix) ->
  0 <= t < getNumTimeSlots labelMatrix ->
  rd (predictionVector (updatePredictions labelMatrix st)) t =
  countSlot (coverageCountVector st) (rd (indices labelMatrix) t)
            (rd (indices labelMatrix) (t + 1)).
Proof.
  intros Hlen Ht. unfold getNumTimeSlots in Ht. unfold updatePredictions.
  cbn [predictionVector].
  pose proof (fold_wr_rd
    (fun i => countSlot (coverageCountVector st) (rd (indices labelMatrix) (Z.of_nat i))
                        (rd (indices labelMatrix) (Z.of_nat i + 1)))
    (length (values labelMatrix)) 0 (predictionVector st) (Z.to_nat t) ltac:(lia)) as H.
  rewrite bool_decide_eq_true_2 in H by lia.
  rewrite Z2Nat.id in H by lia. exact H.
Qed.

Lemma increase_loop_prediction (mask : CoverageMask) (l : list Z) (st : Statistics) :
  predictionVector
    (fold_left (fun s i => if isCovered mask i then increaseCoverageCount s i else s) l st) =
  predictionVector st /\
  totalPredictionVector
    (fold_left (fun s i => if isCovered mask i then increaseCoverageCount s i else s) l st) =
  totalPredictionVector st.
Proof.
  revert st. induction l as [|i l IH]; intros st; [split; reflexivity|].
  cbn [fold_left]. destruct (IH (if isCovered mask i then increaseCoverageCount st i else st))
    as [H1 H2].
  rewrite H1, H2. destruct (isCovered mask i); split; reflexivity.
Qed.

Lemma rd_in_range (l : list Z) (i : Z) :
  Forall in_range l -> 0 <= rd l i < modulus.
Proof.
  intros H. unfold rd. destruct (l !! Z.to_nat i) as [v|] eqn:E; simpl.
  - rewrite Forall_forall in H. apply H. apply list_elem_of_lookup. eauto.
  - unfold modulus. lia.
Qed.

(** C4.  After [applyPrediction], the prediction of every time slot is the
    number of examples of the slot (the examples from its first index up to
    the first index of the next slot) whose coverage count is positive. *)
Theorem applyPrediction_counts_covered
    (labelMatrix : LabelMatrix) (ts : ThresholdsSubset) (st : Statistics) (t : Z) :
  length (predictionVector st) = length (values labelMatrix) ->
  Forall in_range (indices labelMatrix) ->
  0 <= t < getNumTimeSlots labelMatrix ->
  let st' := applyPrediction labelMatrix ts st in
  rd (predictionVector st') t =
  numCoveredInSlot (coverageCountVector st') (rd (indices labelMatrix) t)
                   (rd (indices labelMatrix) (t + 1)).
Proof.
  intros Hlen Hind Ht st'. subst st'. unfold applyPrediction.
  rewrite updatePredictions_rd.
  - cbn [updatePredictions coverageCountVector].
    apply countSlot_spec.
    pose proof (rd_in_range _ t Hind). pose proof (rd_in_range _ (t + 1) Hind). lia.
  - destruct (increase_loop_prediction (coverageMask_ ts)
                (positions 0 (getNumRows labelMatrix)) st) as [-> _]. exact Hlen.
  - exact Ht.
Qed.

Lemma applyPrediction_counts_covered_witness :
  rd (predictionVector
        (applyPrediction PerfectRule.labelMatrix (thresholdsSubset PerfectRule.grown)
                         (liveStatistics PerfectRule.grown))) 2 =
  numCoveredInSlot
    (coverageCountVector
       (applyPrediction PerfectRule.labelMatrix (thresholdsSubset PerfectRule.grown)
                        (liveStatistics PerfectRule.grown)))
    (rd (indices PerfectRule.labelMatrix) 2) (rd (indices PerfectRule.labelMatrix) (2 + 1)).
Proof.
  apply (applyPrediction_counts_covered PerfectRule.labelMatrix
           (thresholdsSubset PerfectRule.grown) (liveStatistics PerfectRule.grown) 2).
  - vm_compute. reflexivity.
  - repeat constructor; unfold modulus; simpl; lia.
  - unfold getNumTimeSlots. simpl. lia.
Defined.

(** ** adjustSplit *)

Section AdjustSplitFacts.

Variable featureVector : FeatureVector.
Variable ascending : bool.
Variable direction : Z.
Variable threshold' : float.

Lemma adjustLoop_shift (steps : nat) (first i adjusted : Z) :
  adjustLoop featureVector ascending first direction threshold' steps i adjusted =
  adjustLoop featureVector ascending (first + i * direction) direction threshold' steps 0
             adjusted.
Proof.
  revert first i adjusted.
  induction steps as [|steps IH]; intros first i adjusted; [reflexivity|].
  cbn [adjustLoop].
  replace (first + i * direction + 0 * direction) with (first + i * direction) by lia.
  destruct (if ascending then _ else _); [|reflexivity].
  rewrite (IH first (i + 1)). rewrite (IH (first + i * direction) (0 + 1)).
  f_equal. lia.
Qed.

(** The loop from position [p] on, written on the positions themselves. *)
Lemma adjustLoop_step (steps : nat) (p adjusted : Z) :
  adjustLoop featureVector ascending p direction threshold' (S steps) 0 adjusted =
  if (if ascending
      then fle (value (entryAt featureVector (wrap32 p))) threshold'
      else flt threshold' (value (entryAt featureVector (wrap32 p))))
  then adjustLoop featureVector ascending (p + direction) direction threshold' steps 0
                  (wrap32 p)
  else adjusted.
Proof.
  cbn [adjustLoop]. replace (p + 0 * direction) with p by lia.
  destruct (if ascending then _ else _); [|reflexivity].
  rewrite adjustLoop_shift. f_equal. lia.
Qed.

(** The loop stops after some [k] steps, at the position [k - 1] steps
    after [p]; taken up again from there, it does not move. *)
Lemma adjustLoop_settles (steps : nat) (p : Z) :
  (forall j, 0 <= j < Z.of_nat steps -> 0 <= p + j * direction < modulus) ->
  exists k : nat,
    (k <= steps)%nat /\
    adjustLoop featureVector ascending p direction threshold' steps 0 (p - direction) =
      p + (Z.of_nat k - 1) * direction /\
    adjustLoop featureVector ascending (p + Z.of_nat k * direction) direction threshold'
               (steps - k) 0 (p + (Z.of_nat k - 1) * direction) =
      p + (Z.of_nat k - 1) * direction.
Proof.
  revert p. induction steps as [|steps IH]; intros p Hrange.
  - exists 0%nat. cbn. split; [lia|]. split; lia.
  - rewrite adjustLoop_step.
    assert (Hp : wrap32 p = p).
    { apply wrap32_small. specialize (Hrange 0). replace (p + 0 * direction) with p in Hrange by lia.
      apply Hrange. lia. }
    rewrite Hp.
    destruct (if ascending
              then fle (value (entryAt featureVector p)) threshold'
              else flt threshold' (value (entryAt featureVector p))) eqn:E.
    + destruct (IH (p + direction)) as (k & Hk & Hres & Hidem).
      { intros j Hj. specialize (Hrange (j + 1)).
        replace (p + direction + j * direction) with (p + (j + 1) * direction) by lia.
        apply Hrange. lia. }
      replace (p + direction - direction) with p in Hres by lia.
      exists (S k). split; [lia|].
      replace (p + (Z.of_nat (S k) - 1) * direction)
        with (p + direction + (Z.of_nat k - 1) * direction) by lia.
      replace (p + Z.of_nat (S k) * direction)
        with (p + direction + Z.of_nat k * direction) by lia.
      split; [exact Hres|]. exact Hidem.
    + exists 0%nat. split; [lia|].
      replace (p + (Z.of_nat 0 - 1) * direction) with (p - direction) by lia.
      replace (p + Z.of_nat 0 * direction) with p by lia.
      split; [reflexivity|].
      replace (S steps - 0)%nat with (S steps) by lia.
      rewrite adjustLoop_step, Hp, E. reflexivity.
Qed.

End AdjustSplitFacts.

(** C6.  [adjustSplit] is idempotent: adjusting the position a first call
    returned, towards the same previous position and with the same
    threshold, returns that position.  The positions are those the search
    hands out: between -1 and the number of elements, and not both 0 or -1
    at once (the walk between them stays inside the vector). *)
Theorem adjustSplit_idempotent
    (featureVector : FeatureVector) (conditionEnd conditionPrevious : Z) (threshold' : float) :
  getNumElements featureVector < modulus ->
  -1 <= conditionEnd <= getNumElements featureVector ->
  -1 <= conditionPrevious <= getNumElements featureVector ->
  (conditionEnd = conditionPrevious -> 1 <= conditionEnd) ->
  adjustSplit featureVector
              (adjustSplit featureVector conditionEnd conditionPrevious threshold')
              conditionPrevious threshold' =
  adjustSplit featureVector conditionEnd conditionPrevious threshold'.
Proof.
  intros Hlen He Hp Heq. unfold modulus in Hlen.
  remember (adjustSplit featureVector conditionEnd conditionPrevious threshold') as R eqn:HR.
  unfold adjustSplit in HR.
  destruct (conditionEnd <? conditionPrevious) eqn:E;
    [apply Z.ltb_lt in E | apply Z.ltb_ge in E].
  - (* walking up *)
    set (n := Z.to_nat (wrap32 (Z.abs (conditionEnd + 1 - conditionPrevious)))) in HR.
    assert (Hn : Z.of_nat n = conditionPrevious - conditionEnd - 1).
    { subst n. rewrite wrap32_small by (unfold modulus; lia). lia. }
    destruct (adjustLoop_settles featureVector true 1 threshold' n (conditionEnd + 1))
      as (k & Hk & Hres & Hidem).
    { intros j Hj. unfold modulus. lia. }
    replace (conditionEnd + 1 - 1) with conditionEnd in Hres by lia.
    rewrite Hres in HR.
    replace (conditionEnd + 1 + (Z.of_nat k - 1) * 1) with (conditionEnd + Z.of_nat k)
      in * by lia.
    replace (conditionEnd + 1 + Z.of_nat k * 1) with (R + 1) in Hidem by lia.
    rewrite <- HR in Hidem.
    unfold adjustSplit.
    assert (Hlt : (R <? conditionPrevious) = true) by (apply Z.ltb_lt; lia).
    rewrite Hlt.
    replace (Z.to_nat (wrap32 (Z.abs (R + 1 - conditionPrevious)))) with (n - k)%nat;
      [exact Hidem|].
    rewrite wrap32_small by (unfold modulus; lia). lia.
  - (* walking down *)
    set (n := Z.to_nat (wrap32 (Z.abs (conditionEnd + -1 - conditionPrevious)))) in HR.
    assert (Hn : Z.of_nat n = Z.abs (conditionEnd - 1 - conditionPrevious)).
    { subst n. rewrite wrap32_small by (unfold modulus; lia). lia. }
    destruct (adjustLoop_settles featureVector false (-1) threshold' n (conditionEnd + -1))
      as (k & Hk & Hres & Hidem).
    { intros j Hj. unfold modulus. lia. }
    replace (conditionEnd + -1 - (-1)) with conditionEnd in Hres by lia.
    rewrite Hres in HR.
    replace (conditionEnd + -1 + (Z.of_nat k - 1) * (-1)) with (conditionEnd - Z.of_nat k)
      in * by lia.
    replace (conditionEnd + -1 + Z.of_nat k * (-1)) with (R + -1) in Hidem by lia.
    rewrite <- HR in Hidem.
    unfold adjustSplit.
    destruct (Z.eq_dec conditionEnd conditionPrevious) as [Hsame|Hdiff].
    + (* one step at most: either the position stays, or it moves below the
         previous position and the second call has nothing to walk *)
      destruct k as [|k].
      * replace R with conditionEnd by lia.
        assert (Hge : (conditionEnd <? conditionPrevious) = false) by (apply Z.ltb_ge; lia).
        rewrite Hge. fold n. rewrite Hres. lia.
      * assert (Hlt : (R <? conditionPrevious) = true) by (apply Z.ltb_lt; lia).
        rewrite Hlt.
        replace (Z.to_nat (wrap32 (Z.abs (R + 1 - conditionPrevious)))) with 0%nat;
          [reflexivity|].
        rewrite wrap32_small by (unfold modulus; lia). lia.
    + assert (Hge : (R <? conditionPrevious) = false) by (apply Z.ltb_ge; lia).
      rewrite Hge.
      replace (Z.to_nat (wrap32 (Z.abs (R + -1 - conditionPrevious)))) with (n - k)%nat;
        [exact Hidem|].
      rewrite wrap32_small by (unfold modulus; lia). lia.
Qed.

Lemma adjustSplit_idempotent_witness :
  adjustSplit SortedValues.featureVector
              (adjustSplit SortedValues.featureVector 3 1 0.25) 1 0.25 =
  adjustSplit SortedValues.featureVector 3 1 0.25.
Proof.
  apply (adjustSplit_idempotent SortedValues.featureVector 3 1 0.25).
  - reflexivity.
  - unfold getNumElements. simpl. lia.
  - unfold getNumElements. simpl. lia.
  - lia.
Defined.

(** ** The refinement search only scores candidates with enough coverage *)

Section SupportFacts.

Variable labelMatrix : LabelMatrix.
Variable statistics : Statistics.
Variable weights : list Z.
Variable featureVector : FeatureVector.
Variable numExamples_ : Z.
Variable nominal_ : bool.
Variable minCoverage : Z.

Local Abbreviation ok w := (supported minCoverage (search w)).

Lemma tryHead_supported n uncovered accumulated update s :
  minCoverage <= n -> supported minCoverage s ->
  supported minCoverage (tryHead labelMatrix n uncovered accumulated update s).
Proof.
  intros Hn Hs. unfold tryHead, supported.
  destruct (findHead _ _ _ _ _ _) as [[h|] hp]; cbn [evaluated];
    (apply Forall_app; split; [exact Hs | constructor; [exact Hn | constructor]]).
Qed.

(** A guarded call site: the candidate is only handed to [findHead] when
    its [numCovered] has passed the test against [minCoverage]. *)
Lemma guarded_supported (extra : bool) n uncovered accumulated update w :
  ok w ->
  ok (if (minCoverage <=? n) && extra
      then onSearch (tryHead labelMatrix n uncovered accumulated update) w
      else w).
Proof.
  intros Hw. destruct (minCoverage <=? n) eqn:E; cbn [andb]; [|exact Hw].
  destruct extra; [|exact Hw].
  cbn [onSearch search]. apply tryHead_supported; [apply Z.leb_le; exact E | exact Hw].
Qed.

Lemma guarded_supported' n uncovered accumulated update w :
  ok w ->
  ok (if minCoverage <=? n
      then onSearch (tryHead labelMatrix n uncovered accumulated update) w
      else w).
Proof.
  intros Hw. pose proof (guarded_supported true n uncovered accumulated update w Hw) as H.
  rewrite andb_true_r in H. exact H.
Qed.

Lemma restartGroup_supported r' w : ok w -> ok (restartGroup statistics r' w).
Proof. intros H. exact H. Qed.

Lemma takeFirst_supported r' w :
  ok w -> ok (takeFirst labelMatrix statistics weights featureVector r' w).
Proof. intros H. exact H. Qed.

Lemma takeNext_supported r' w :
  ok w -> ok (takeNext labelMatrix statistics weights featureVector r' w).
Proof. intros H. exact H. Qed.

Lemma splitAscending_supported r' currentThreshold w :
  ok w ->
  ok (splitAscending labelMatrix statistics numExamples_ nominal_ minCoverage r'
                     currentThreshold w).
Proof.
  intros Hw. unfold splitAscending.
  match goal with
  | |- context [if nominal_ then restartGroup _ _ ?w2 else ?w2] =>
      assert (H2 : ok w2)
  end.
  { apply guarded_supported. apply guarded_supported. exact Hw. }
  destruct nominal_; [apply restartGroup_supported|]; exact H2.
Qed.

Lemma splitDescending_supported r' currentThreshold w :
  ok w ->
  ok (splitDescending labelMatrix statistics numExamples_ nominal_ minCoverage r'
                      currentThreshold w).
Proof.
  intros Hw. unfold splitDescending.
  match goal with
  | |- context [if nominal_ then restartGroup _ _ ?w2 else ?w2] =>
      assert (H2 : ok w2)
  end.
  { apply guarded_supported. apply guarded_supported'. exact Hw. }
  destruct nominal_; [apply restartGroup_supported|]; exact H2.
Qed.

Lemma firstNegative_supported fuel r' w :
  ok w -> ok (firstNegative labelMatrix statistics weights featureVector fuel r' w).
Proof.
  revert r' w. induction fuel as [|fuel IH]; intros r' w Hw; [exact Hw|].
  cbn [firstNegative].
  destruct (r' <? getNumElements featureVector); [|exact Hw].
  destruct (fle 0 (value (entryAt featureVector r'))); [exact Hw|].
  destruct (0 <? getWeight weights (index (entryAt featureVector r'))).
  - apply takeFirst_supported. exact Hw.
  - apply IH. exact Hw.
Qed.

Lemma restNegative_supported fuel r' w :
  ok w ->
  ok (restNegative labelMatrix statistics weights featureVector numExamples_ nominal_
                   minCoverage fuel r' w).
Proof.
  revert r' w. induction fuel as [|fuel IH]; intros r' w Hw; [exact Hw|].
  cbn [restNegative].
  destruct (r' <? getNumElements featureVector); [|exact Hw].
  destruct (fle 0 (value (entryAt featureVector r'))); [exact Hw|].
  destruct (0 <? getWeight weights (index (entryAt featureVector r'))).
  - apply IH. apply takeNext_supported.
    destruct (negb _); [apply splitAscending_supported|]; exact Hw.
  - apply IH. exact Hw.
Qed.

Lemma lastGroupNegative_supported w :
  ok w -> ok (lastGroupNegative labelMatrix numExamples_ nominal_ minCoverage w).
Proof.
  intros Hw. unfold lastGroupNegative.
  destruct (_ && _ && _); [|exact Hw].
  apply guarded_supported. apply guarded_supported'. exact Hw.
Qed.

Lemma sweepNegative_supported w :
  ok w ->
  ok (sweepNegative labelMatrix statistics weights featureVector numExamples_ nominal_
                    minCoverage w).
Proof.
  intros Hw. unfold sweepNegative.
  pose proof (firstNegative_supported (length (entries featureVector)) 0 w Hw) as H1.
  cbn zeta. cbn [numExamples r].
  destruct (0 <? numExamples _); [|exact H1].
  cbn [onSearch search onSubset evaluated].
  apply (lastGroupNegative_supported
           (restNegative labelMatrix statistics weights featureVector numExamples_
              nominal_ minCoverage _ _ _)).
  apply restNegative_supported. exact H1.
Qed.

Lemma firstNonNegative_supported fuel r' w :
  ok w -> ok (firstNonNegative labelMatrix statistics weights featureVector fuel r' w).
Proof.
  revert r' w. induction fuel as [|fuel IH]; intros r' w Hw; [exact Hw|].
  cbn [firstNonNegative].
  destruct (lastNegativeR w <? r'); [|exact Hw].
  destruct (0 <? getWeight weights (index (entryAt featureVector r'))).
  - apply takeFirst_supported. exact Hw.
  - apply IH. exact Hw.
Qed.

Lemma restNonNegative_supported fuel r' w :
  ok w ->
  ok (restNonNegative labelMatrix statistics weights featureVector numExamples_ nominal_
                      minCoverage fuel r' w).
Proof.
  revert r' w. induction fuel as [|fuel IH]; intros r' w Hw; [exact Hw|].
  cbn [restNonNegative].
  destruct (lastNegativeR w <? r'); [|exact Hw].
  destruct (0 <? getWeight weights (index (entryAt featureVector r'))).
  - apply IH. apply takeNext_supported.
    destruct (negb _); [apply splitDescending_supported|]; exact Hw.
  - apply IH. exact Hw.
Qed.

Lemma lastGroupNonNegative_supported w :
  ok w -> ok (lastGroupNonNegative labelMatrix numExamples_ nominal_ minCoverage w).
Proof.
  intros Hw. unfold lastGroupNonNegative.
  destruct (_ && _ && _); [|exact Hw].
  apply guarded_supported. apply guarded_supported'. exact Hw.
Qed.

Lemma sweepNonNegative_supported w :
  ok w ->
  ok (sweepNonNegative labelMatrix statistics weights featureVector numExamples_ nominal_
                       minCoverage w).
Proof.
  intros Hw. unfold sweepNonNegative. cbn zeta.
  apply lastGroupNonNegative_supported.
  pose proof (firstNonNegative_supported (length (entries featureVector))
                (firstR (startDescending featureVector w))
                (startDescending featureVector w) Hw) as H1.
  cbn [numExamples r].
  destruct (0 <? numExamples _); [|exact H1].
  apply restNonNegative_supported. exact H1.
Qed.

Lemma sparseBridge_supported total w :
  ok w ->
  ok (sparseBridge labelMatrix statistics featureVector numExamples_ nominal_ minCoverage
                   total w).
Proof.
  intros Hw. unfold sparseBridge.
  destruct (_ && _); [|exact Hw]. cbn zeta.
  apply guarded_supported. apply guarded_supported.
  destruct nominal_; exact Hw.
Qed.

Lemma negativeBridge_supported thresholdNegative rNegative accNegative total w :
  ok w ->
  ok (negativeBridge labelMatrix numExamples_ nominal_ minCoverage thresholdNegative
                     rNegative accNegative total w).
Proof.
  intros Hw. unfold negativeBridge.
  destruct (_ && _ && _); [|exact Hw]. cbn zeta.
  apply guarded_supported'. apply guarded_supported. exact Hw.
Qed.

(** Every candidate refinement that [findRefinement] evaluates, in each of
    the four phases of the sweep and for the covered condition as for its
    complement, has passed the test of its counter [numCovered] against
    [minCoverage]: a head is only searched for a candidate that passed this
    test. *)
Theorem evaluated_candidates_reach_min_coverage
    (featureIndex' : Z) (currentHead : option Head.t) :
  Forall (fun n => minCoverage <= n)
         (evaluatedCandidates labelMatrix statistics weights featureVector numExamples_
                              nominal_ minCoverage featureIndex' currentHead).
Proof.
  unfold evaluatedCandidates, runSweeps. cbn zeta.
  apply negativeBridge_supported, sparseBridge_supported, sweepNonNegative_supported,
    sweepNegative_supported.
  constructor.
Qed.

End SupportFacts.

(** ** Counters below zero *)

(** C7 (the code departs from it).  In the scenario
    [ComplementWithMissing] the minimum coverage is (uint32) (0.5 * 4) = 2.
    The search evaluates one candidate, the complement [f <= 2.5] of the
    condition [f > 2.5] that covers the example 0; its counter is
    [numExamples_ - numExamples] = 4 - 1 = 3 and passes the test.  The
    counter includes the examples 1 and 2, whose value is missing, while
    the statistics subset has taken them out of the candidate's
    predictions ([addToMissing]) and [filterCurrentVector] marks them as
    uncovered: the rule that is added to the model covers the example 3
    alone, fewer examples than the minimum coverage. *)
Theorem complement_candidate_counts_missing_examples :
  ComplementWithMissing.minCoverage = 2 /\
  evaluatedCandidates ComplementWithMissing.labelMatrix ComplementWithMissing.statistics
                      ComplementWithMissing.weights (ComplementWithMissing.featureMatrix 0)
                      4 false ComplementWithMissing.minCoverage 0 None = [3] /\
  exists result head,
    ComplementWithMissing.induced = Some result /\
    success result = true /\
    map (fun c => (covered c, comparator c, threshold c, numCovered c))
        (default [] (fst <$> last (modelAfter result)))
      = [(false, LEQ, 2.5%float, 3)] /\
    snd <$> last (modelAfter result) = Some head /\
    coverageCountVector (statisticsAfter result) = [0; 0; 0; 1] /\
    predictionVector (statisticsAfter result) = [0; 0; 0; 1].
Proof.
  split; [vm_compute; reflexivity|]. split; [vm_compute; reflexivity|].
  destruct ComplementWithMissing.induced as [result|] eqn:E; [|vm_compute in E; discriminate].
  vm_compute in E. injection E as <-.
  eexists _, _. repeat split; vm_compute; reflexivity.
Qed.

(** C9 (the code departs from it).  In the scenario
    [MissingAfterCondition] the first pass adds a condition on feature 0
    that covers the examples 0, 1 and 2, and the second pass a condition on
    feature 1 that covers the examples 0 and 1.  The vector of feature 1 was
    filtered for the second pass, which kept the example 2 among its missing
    indices, and the second condition was applied to that vector in place,
    which left them as they were.  The loop goes on, and in the third pass
    the search of feature 1 calls [addToMissing] for the example 2, which
    the rule does not cover any more and whose coverage count is 0: the
    counter of its slot is decremented from 0 and wraps around to
    2^32 - 1. *)
Theorem stale_missing_example_wraps_counter :
  map featureIndex (conditions MissingAfterCondition.afterTwo) = [0; 1] /\
  continues unit (-1) MissingAfterCondition.afterTwo = true /\
  missingIndices MissingAfterCondition.handedOut = [2] /\
  isCovered (coverageMask_ MissingAfterCondition.thirdPass) 2 = false /\
  rd (coverageCountVector (liveStatistics MissingAfterCondition.afterTwo)) 2 = 0 /\
  totalPredictionVector (liveStatistics MissingAfterCondition.afterTwo) = [2; 0; 0] /\
  uncoveredPredictionVector MissingAfterCondition.afterMissing = [2; modulus - 1; 0].
Proof. repeat split; vm_compute; reflexivity. Qed.

(** Examples outside the sample are a second way to the same wrap-around,
    when the sample is installed as [updateSampledStatisticsInternally]
    has it.  In the scenario [MissingOutsideSample] the statistics count
    one uncovered example in the first slot and none in the second when the
    rule starts to grow; the search then calls [addToMissing] for the
    example outside the sample, whose coverage count is 0, and the counter
    of its slot is decremented from 0. *)
Example missing_example_outside_sample_wraps_counter :
  totalPredictionVector MissingOutsideSample.statistics = [1; 0] /\
  rd (coverageCountVector MissingOutsideSample.statistics) 1 = 0 /\
  getWeight MissingOutsideSample.weights 1 = 0 /\
  uncoveredPredictionVector MissingOutsideSample.afterMissing = [1; 4294967295].
Proof. repeat split; vm_compute; reflexivity. Qed.

(** ** Candidates without variance *)

Module ExactSumsFacts.

Import ExactSums.

Lemma sumZ_replicate (n : nat) (c : Z) : sumZ (replicate n c) = Z.of_nat n * c.
Proof.
  unfold sumZ. induction n as [|n IH]; [reflexivity|].
  cbn [replicate fold_right]. lia.
Qed.

Lemma dotZ_replicate_r (x : list Z) (n : nat) (c : Z) :
  length x = n -> dotZ x (replicate n c) = c * sumZ x.
Proof.
  intros <-. unfold dotZ, sumZ. induction x as [|a x IH]; [cbn; lia|].
  cbn [length replicate zip_with fold_right]. lia.
Qed.

Lemma dotZ_replicate_l (y : list Z) (n : nat) (c : Z) :
  length y = n -> dotZ (replicate n c) y = c * sumZ y.
Proof.
  intros <-. unfold dotZ, sumZ. induction y as [|a y IH]; [cbn; lia|].
  cbn [length replicate zip_with fold_right]. lia.
Qed.

Lemma varianceZ_replicate (n : nat) (c : Z) : varianceZ (replicate n c) = 0.
Proof.
  unfold varianceZ.
  rewrite (dotZ_replicate_r _ n c) by apply length_replicate.
  rewrite sumZ_replicate, length_replicate. lia.
Qed.

Lemma varianceZ_constant (v : list Z) : constant v -> varianceZ v = 0.
Proof. intros [c ->]. apply varianceZ_replicate. Qed.

Lemma numeratorZ_constant_r (x y : list Z) :
  length x = length y -> constant y -> numeratorZ x y = 0.
Proof.
  intros Hlen [c Hc]. revert Hlen Hc. generalize (length y) at 1 2 as n.
  intros n Hlen ->. unfold numeratorZ.
  rewrite (dotZ_replicate_r x n c Hlen), sumZ_replicate, length_replicate. lia.
Qed.

Lemma numeratorZ_constant_l (x y : list Z) :
  length x = length y -> constant x -> numeratorZ x y = 0.
Proof.
  intros Hlen [c Hc]. revert Hlen Hc. generalize (length x) at 1 2 as n.
  intros n Hlen ->. unfold numeratorZ.
  rewrite (dotZ_replicate_l y n c (eq_sym Hlen)), sumZ_replicate, <- Hlen. lia.
Qed.

End ExactSumsFacts.

(** ** Integers in float64: the arithmetic is exact *)

Module IntegerFloatsFacts.

Import IntegerFloats.

(** What [iter_pos] iterates. *)
Lemma iter_pos_nat {A : Type} (f : A -> A) (p : positive) (x : A) :
  SpecFloat.iter_pos f p x = Nat.iter (Pos.to_nat p) f x.
Proof.
  revert x. induction p as [p IH|p IH|]; intros x; cbn [SpecFloat.iter_pos].
  - rewrite !IH. rewrite Pos2Nat.inj_xI.
    replace (S (2 * Pos.to_nat p)) with (Pos.to_nat p + (Pos.to_nat p + 1))%nat by lia.
    rewrite !Nat.iter_add. reflexivity.
  - rewrite !IH. rewrite Pos2Nat.inj_xO.
    replace (2 * Pos.to_nat p)%nat with (Pos.to_nat p + Pos.to_nat p)%nat by lia.
    rewrite Nat.iter_add. reflexivity.
  - reflexivity.
Qed.

Lemma shr_1_even (m : Z) :
  0 < m -> (2 | m) ->
  shr_1 {| shr_m := m; shr_r := false; shr_s := false |}
  = {| shr_m := m / 2; shr_r := false; shr_s := false |}.
Proof.
  intros Hm [q Hq]. subst m. rewrite Z.div_mul by lia.
  destruct q as [|q|q]; [lia| |lia].
  replace (Z.pos q * 2) with (Z.pos q~0) by lia. reflexivity.
Qed.

(** Shifting out zero bits leaves no remainder. *)
Lemma shr_exact (k : nat) (m : Z) :
  0 < m -> (2 ^ Z.of_nat k | m) ->
  Nat.iter k shr_1 {| shr_m := m; shr_r := false; shr_s := false |}
  = {| shr_m := m / 2 ^ Z.of_nat k; shr_r := false; shr_s := false |}.
Proof.
  induction k as [|k IH]; intros Hm Hdiv.
  - cbn. rewrite Z.div_1_r. reflexivity.
  - rewrite Nat.iter_succ. rewrite Nat2Z.inj_succ, Z.pow_succ_r in * by lia.
    destruct Hdiv as [q Hq].
    assert (Hk : 0 < 2 ^ Z.of_nat k) by (apply Z.pow_pos_nonneg; lia).
    rewrite IH; [|lia|exists (q * 2); lia].
    replace (m / 2 ^ Z.of_nat k) with (q * 2)
      by (subst m; replace (q * (2 * 2 ^ Z.of_nat k)) with (q * 2 * 2 ^ Z.of_nat k) by lia;
          rewrite Z.div_mul; lia).
    rewrite shr_1_even; [|nia|exists q; lia].
    f_equal. subst m. rewrite Z.div_mul by lia.
    rewrite Z.div_mul by lia. reflexivity.
Qed.

Lemma digits2_pos_lower m : 2 ^ (Z.pos (digits2_pos m) - 1) <= Z.pos m.
Proof.
  induction m as [m IH|m IH|]; cbn [digits2_pos].
  - rewrite Pos2Z.inj_succ. replace (Z.succ (Z.pos (digits2_pos m)) - 1)
      with (Z.succ (Z.pos (digits2_pos m) - 1)) by lia.
    rewrite Z.pow_succ_r by lia. lia.
  - rewrite Pos2Z.inj_succ. replace (Z.succ (Z.pos (digits2_pos m)) - 1)
      with (Z.succ (Z.pos (digits2_pos m) - 1)) by lia.
    rewrite Z.pow_succ_r by lia. lia.
  - reflexivity.
Qed.

Lemma digits2_pos_unique (m : positive) (d : Z) :
  2 ^ (d - 1) <= Z.pos m < 2 ^ d -> Z.pos (digits2_pos m) = d.
Proof.
  intros [Hlo Hhi].
  pose proof (digits2_pos_lower m) as Hl.
  pose proof (FloatOrderFacts.digits2_pos_bound m) as Hu.
  destruct (Z_lt_le_dec d 1) as [Hd|Hd].
  { assert (2 ^ d <= 2 ^ 0) by (destruct (Z_lt_le_dec d 0);
      [rewrite Z.pow_neg_r by lia; cbn; lia | apply Z.pow_le_mono_r; lia]).
    cbn in *. lia. }
  destruct (Z.lt_trichotomy (Z.pos (digits2_pos m)) d) as [H|[H|H]]; [|exact H|].
  - assert (2 ^ Z.pos (digits2_pos m) <= 2 ^ (d - 1)) by (apply Z.pow_le_mono_r; lia). lia.
  - assert (2 ^ d <= 2 ^ (Z.pos (digits2_pos m) - 1)) by (apply Z.pow_le_mono_r; lia). lia.
Qed.

(** The digits of an integer shifted to the left. *)
Lemma digits2_pos_shift (v m : positive) (k : Z) :
  0 <= k -> Z.pos m = Z.pos v * 2 ^ k ->
  Z.pos (digits2_pos m) = Z.pos (digits2_pos v) + k.
Proof.
  intros Hk Hm. apply digits2_pos_unique. rewrite Hm.
  pose proof (digits2_pos_lower v) as Hl.
  pose proof (FloatOrderFacts.digits2_pos_bound v) as Hu.
  replace (Z.pos (digits2_pos v) + k - 1) with (Z.pos (digits2_pos v) - 1 + k) by lia.
  rewrite !Z.pow_add_r by lia.
  assert (0 < 2 ^ k) by (apply Z.pow_pos_nonneg; lia). nia.
Qed.

Lemma shr_zero_bits (m : positive) (e n : Z) :
  0 <= n -> (2 ^ n | Z.pos m) ->
  shr {| shr_m := Z.pos m; shr_r := false; shr_s := false |} e n
  = ({| shr_m := Z.pos m / 2 ^ n; shr_r := false; shr_s := false |}, e + n).
Proof.
  intros Hn Hdiv. unfold shr. destruct n as [|p|p]; [| |lia].
  - rewrite Z.div_1_r, Z.add_0_r. reflexivity.
  - rewrite iter_pos_nat.
    rewrite <- (positive_nat_Z p) in Hdiv |- *.
    rewrite shr_exact by (try lia; exact Hdiv). reflexivity.
Qed.

(** Rounding a mantissa of at least 53 bits whose surplus bits are zero
    only shifts it. *)
Lemma round_aux_exact (s : bool) (m : positive) (e : Z) :
  let d := Z.pos (digits2_pos m) in
  53 <= d -> (2 ^ (d - 53) | Z.pos m) -> -1074 <= e + d - 53 <= 971 ->
  binary_round_aux 53 1024 s (Z.pos m) e loc_Exact
  = S754_finite s (Z.to_pos (Z.pos m / 2 ^ (d - 53))) (e + d - 53).
Proof.
  intros d Hd Hdiv He.
  assert (Hpow : 0 < 2 ^ (d - 53)) by (apply Z.pow_pos_nonneg; lia).
  pose proof (digits2_pos_lower m) as Hl.
  pose proof (FloatOrderFacts.digits2_pos_bound m) as Hu. fold d in Hl, Hu.
  destruct Hdiv as [q Hq].
  assert (Hquot : Z.pos m / 2 ^ (d - 53) = q) by (rewrite Hq; apply Z.div_mul; lia).
  assert (Hqd : 2 ^ 52 <= q < 2 ^ 53).
  { assert (H1 : 2 ^ (d - 1) = 2 ^ 52 * 2 ^ (d - 53))
      by (rewrite <- Z.pow_add_r by lia; f_equal; lia).
    assert (H2 : 2 ^ d = 2 ^ 53 * 2 ^ (d - 53))
      by (rewrite <- Z.pow_add_r by lia; f_equal; lia).
    rewrite H1 in Hl. rewrite H2 in Hu. nia. }
  destruct q as [|qp|qp]; [cbn in Hqd; lia| |cbn in Hqd; lia].
  assert (Hdq : Z.pos (digits2_pos qp) = 53) by (apply digits2_pos_unique; exact Hqd).
  unfold binary_round_aux, shr_fexp.
  cbn [Zdigits2 shr_record_of_loc]. fold d.
  replace (fexp 53 1024 (d + e) - e) with (d - 53) by (unfold fexp, emin; lia).
  rewrite shr_zero_bits by (try lia; exists (Z.pos qp); exact Hq).
  rewrite Hquot. cbn [shr_m loc_of_shr_record round_nearest_even Zdigits2 shr_record_of_loc].
  rewrite Hdq.
  replace (fexp 53 1024 (53 + (e + (d - 53))) - (e + (d - 53))) with 0
    by (unfold fexp, emin; lia).
  cbn [shr shr_m].
  replace (e + (d - 53) <=? 1024 - 53) with true by (symmetry; apply Z.leb_le; lia).
  cbn [Z.to_pos]. f_equal. lia.
Qed.

Lemma iter_xO_value (m d : positive) : Z.pos (Pos.iter xO m d) = Z.pos m * 2 ^ Z.pos d.
Proof.
  revert m. induction d as [|d IH] using Pos.peano_ind; intros m.
  - cbn. lia.
  - rewrite Pos.iter_succ, Pos2Z.inj_succ, Z.pow_succ_r by lia.
    rewrite Pos2Z.inj_xO, IH. lia.
Qed.

Lemma shl_align_value (mx : positive) (ex ex' : Z) :
  ex' <= ex ->
  Z.pos (fst (shl_align mx ex ex')) = Z.pos mx * 2 ^ (ex - ex') /\
  snd (shl_align mx ex ex') = ex'.
Proof.
  intros H. unfold shl_align. destruct (ex' - ex) as [|d|d] eqn:E; cbn [fst snd].
  - replace (ex - ex') with 0 by lia. split; lia.
  - lia.
  - rewrite iter_xO_value. replace (ex - ex') with (Z.pos d) by lia. split; lia.
Qed.

(** Rounding a mantissa and an exponent that stand for a positive integer
    below 2^53 gives the float of that integer. *)
Lemma binary_round_aux_value (s : bool) (m v : positive) (e : Z) :
  e <= 0 -> Z.pos m = Z.pos v * 2 ^ (- e) -> Z.pos v < 2 ^ 53 ->
  53 <= Z.pos (digits2_pos m) ->
  binary_round_aux 53 1024 s (Z.pos m) e loc_Exact = canon s v.
Proof.
  intros He Hm Hv Hd.
  pose proof (digits2_pos_shift v m (- e) ltac:(lia) Hm) as Hdm.
  pose proof (digits2_pos_lower v) as Hl.
  pose proof (FloatOrderFacts.digits2_pos_bound v) as Hu.
  assert (Hdv : 1 <= Z.pos (digits2_pos v) <= 53).
  { split; [lia|].
    destruct (Z_lt_le_dec 53 (Z.pos (digits2_pos v))) as [H|H]; [|exact H].
    assert (2 ^ 53 <= 2 ^ (Z.pos (digits2_pos v) - 1)) by (apply Z.pow_le_mono_r; lia). lia. }
  set (dv := Z.pos (digits2_pos v)) in *.
  assert (Hsplit : Z.pos m = Z.pos v * 2 ^ (53 - dv) * 2 ^ (Z.pos (digits2_pos m) - 53)).
  { rewrite Hm, <- Z.mul_assoc, <- Z.pow_add_r by lia. f_equal. f_equal. lia. }
  rewrite round_aux_exact; [|exact Hd| |lia].
  - unfold canon. fold dv. f_equal; [|lia].
    rewrite Hsplit at 1. rewrite Z.div_mul; [reflexivity|].
    apply Z.pow_nonzero; lia.
  - exists (Z.pos v * 2 ^ (53 - dv)). exact Hsplit.
Qed.

Lemma binary_round_value (s : bool) (m v : positive) (e : Z) :
  e <= 0 -> Z.pos m = Z.pos v * 2 ^ (- e) -> Z.pos v < 2 ^ 53 ->
  binary_round 53 1024 s m e = canon s v.
Proof.
  intros He Hm Hv. unfold binary_round.
  pose proof (digits2_pos_shift v m (- e) ltac:(lia) Hm) as Hdm.
  pose proof (digits2_pos_lower v) as Hl.
  pose proof (FloatOrderFacts.digits2_pos_bound v) as Hu.
  assert (Hdv : 1 <= Z.pos (digits2_pos v) <= 53).
  { split; [lia|].
    destruct (Z_lt_le_dec 53 (Z.pos (digits2_pos v))) as [H|H]; [|exact H].
    assert (2 ^ 53 <= 2 ^ (Z.pos (digits2_pos v) - 1)) by (apply Z.pow_le_mono_r; lia). lia. }
  set (dv := Z.pos (digits2_pos v)) in *.
  set (dm := Z.pos (digits2_pos m)) in *.
  replace (fexp 53 1024 (dm + e)) with (dm + e - 53) by (unfold fexp, emin; lia).
  destruct (Z_lt_le_dec dm 53) as [Hlt|Hge].
  - destruct (shl_align_value m e (dm + e - 53) ltac:(lia)) as [Hval Hexp].
    destruct (shl_align m e (dm + e - 53)) as [mz ez]. cbn [fst snd] in Hval, Hexp. subst ez.
    apply binary_round_aux_value; [lia | | exact Hv |].
    + rewrite Hval, Hm, <- Z.mul_assoc, <- Z.pow_add_r by lia. f_equal. f_equal. lia.
    + rewrite (digits2_pos_shift m mz (53 - dm)); [fold dm; lia | lia |].
      rewrite Hval. f_equal. f_equal. lia.
  - assert (Hsh : shl_align m e (dm + e - 53) = (m, e)).
    { unfold shl_align. destruct (dm + e - 53 - e) eqn:E; try reflexivity. lia. }
    rewrite Hsh. apply binary_round_aux_value; [lia | exact Hm | exact Hv | exact Hge].
Qed.

(** Normalising an integer multiple of a power of two. *)
Lemma binary_normalize_value (M v : Z) (e : Z) :
  e <= 0 -> M = v * 2 ^ (- e) -> Z.abs v < 2 ^ 53 ->
  binary_normalize 53 1024 M e false = intSF v.
Proof.
  intros He HM Hv.
  assert (Hpow : 0 < 2 ^ (- e)) by (apply Z.pow_pos_nonneg; lia).
  unfold binary_normalize. destruct M as [|m|m].
  - assert (v = 0) by nia. subst v. reflexivity.
  - destruct v as [|v|v]; [lia| |lia]. cbn [intSF].
    apply binary_round_value; [lia | exact HM | lia].
  - destruct v as [|v|v]; [lia|lia|]. cbn [intSF].
    apply binary_round_value; [lia | lia | lia].
Qed.

Lemma canon_fields (s : bool) (v : positive) :
  Z.pos v < 2 ^ 53 ->
  exists mz ez,
    canon s v = S754_finite s mz ez /\ -52 <= ez <= 0 /\
    Z.pos mz = Z.pos v * 2 ^ (- ez) /\ Z.pos (digits2_pos mz) = 53.
Proof.
  intros Hv.
  pose proof (digits2_pos_lower v) as Hl.
  pose proof (FloatOrderFacts.digits2_pos_bound v) as Hu.
  assert (Hdv : 1 <= Z.pos (digits2_pos v) <= 53).
  { split; [lia|].
    destruct (Z_lt_le_dec 53 (Z.pos (digits2_pos v))) as [H|H]; [|exact H].
    assert (2 ^ 53 <= 2 ^ (Z.pos (digits2_pos v) - 1)) by (apply Z.pow_le_mono_r; lia). lia. }
  unfold canon. set (dv := Z.pos (digits2_pos v)) in *.
  assert (Hpow : 0 < 2 ^ (53 - dv)) by (apply Z.pow_pos_nonneg; lia).
  exists (Z.to_pos (Z.pos v * 2 ^ (53 - dv))), (dv - 53).
  assert (Hval : Z.pos (Z.to_pos (Z.pos v * 2 ^ (53 - dv))) = Z.pos v * 2 ^ (- (dv - 53))).
  { rewrite Z2Pos.id by nia. f_equal. f_equal. lia. }
  split; [reflexivity|]. split; [lia|]. split; [exact Hval|].
  rewrite (digits2_pos_shift v _ (- (dv - 53)) ltac:(lia) Hval). fold dv. lia.
Qed.

Lemma intSF_add (a b : Z) :
  0 <= a -> 0 <= b -> a + b < 2 ^ 53 ->
  SF64add (intSF a) (intSF b) = intSF (a + b).
Proof.
  intros Ha Hb Hab.
  destruct a as [|va|va]; [|destruct b as [|vb|vb]|]; try lia.
  - rewrite Z.add_0_l. destruct b as [|vb|vb]; [reflexivity| |lia]. cbn [intSF].
    destruct (canon_fields false vb ltac:(lia)) as (mz & ez & E & _). rewrite E. reflexivity.
  - rewrite Z.add_0_r. cbn [intSF].
    destruct (canon_fields false va ltac:(lia)) as (mz & ez & E & _). rewrite E. reflexivity.
  - cbn [intSF].
    destruct (canon_fields false va ltac:(lia)) as (mx & ex & -> & Hex & Hmx & _).
    destruct (canon_fields false vb ltac:(lia)) as (my & ey & -> & Hey & Hmy & _).
    unfold SF64add, SFadd. cbn [cond_Zopp].
    set (ez := Z.min ex ey).
    destruct (shl_align_value mx ex ez ltac:(lia)) as [Hx _].
    destruct (shl_align_value my ey ez ltac:(lia)) as [Hy _].
    rewrite Hx, Hy, Hmx, Hmy.
    change (Z.pos va + Z.pos vb) with (Z.pos (va + vb)).
    apply binary_normalize_value; [lia | | lia].
    rewrite <- !Z.mul_assoc, <- !Z.pow_add_r by lia.
    replace (- ex + (ex - ez)) with (- ez) by lia.
    replace (- ey + (ey - ez)) with (- ez) by lia. lia.
Qed.

Lemma intSF_sub (a b : Z) :
  0 <= a < 2 ^ 53 -> 0 <= b < 2 ^ 53 ->
  SF64sub (intSF a) (intSF b) = intSF (a - b).
Proof.
  intros Ha Hb.
  destruct a as [|va|va]; [|destruct b as [|vb|vb]|]; try lia.
  - rewrite Z.sub_0_l. destruct b as [|vb|vb]; [reflexivity| |lia]. cbn [intSF Z.opp].
    unfold canon. reflexivity.
  - rewrite Z.sub_0_r. cbn [intSF].
    destruct (canon_fields false va ltac:(lia)) as (mz & ez & E & _). rewrite E. reflexivity.
  - cbn [intSF].
    destruct (canon_fields false va ltac:(lia)) as (mx & ex & -> & Hex & Hmx & _).
    destruct (canon_fields false vb ltac:(lia)) as (my & ey & -> & Hey & Hmy & _).
    unfold SF64sub, SFsub. cbn [cond_Zopp].
    set (ez := Z.min ex ey).
    destruct (shl_align_value mx ex ez ltac:(lia)) as [Hx _].
    destruct (shl_align_value my ey ez ltac:(lia)) as [Hy _].
    rewrite Hx, Hy, Hmx, Hmy.
    apply binary_normalize_value; [lia | | lia].
    rewrite <- !Z.mul_assoc, <- !Z.pow_add_r by lia.
    replace (- ex + (ex - ez)) with (- ez) by lia.
    replace (- ey + (ey - ez)) with (- ez) by lia. lia.
Qed.

Lemma intSF_mul (a b : Z) :
  0 <= a -> 0 <= b -> a * b < 2 ^ 53 ->
  SF64mul (intSF a) (intSF b) = intSF (a * b).
Proof.
  intros Ha Hb Hab.
  destruct a as [|va|va]; [|destruct b as [|vb|vb]|]; try lia.
  - rewrite Z.mul_0_l. destruct b as [|vb|vb]; [reflexivity| |lia]. cbn [intSF].
    unfold canon. reflexivity.
  - rewrite Z.mul_0_r. cbn [intSF]. unfold canon. reflexivity.
  - assert (Hva : Z.pos va < 2 ^ 53) by nia.
    assert (Hvb : Z.pos vb < 2 ^ 53) by nia.
    cbn [intSF Z.mul].
    destruct (canon_fields false va Hva) as (mx & ex & -> & Hex & Hmx & Hdx).
    destruct (canon_fields false vb Hvb) as (my & ey & -> & Hey & Hmy & Hdy).
    unfold SF64mul, SFmul. cbn [xorb].
    pose proof (digits2_pos_lower mx) as Hlx. rewrite Hdx in Hlx.
    pose proof (digits2_pos_lower my) as Hly. rewrite Hdy in Hly.
    pose proof (digits2_pos_lower (mx * my)) as Hl.
    pose proof (FloatOrderFacts.digits2_pos_bound (mx * my)) as Hu.
    apply binary_round_aux_value; [lia | | exact Hab |].
    + rewrite !Pos2Z.inj_mul, Hmx, Hmy.
      replace (- (ex + ey)) with (- ex + - ey) by lia. rewrite Z.pow_add_r by lia. lia.
    + destruct (Z_lt_le_dec (Z.pos (digits2_pos (mx * my))) 53) as [H|H]; [|exact H].
      assert (2 ^ Z.pos (digits2_pos (mx * my)) <= 2 ^ 52) by (apply Z.pow_le_mono_r; lia).
      rewrite Pos2Z.inj_mul in Hu. cbn in Hlx, Hly. nia.
Qed.

Lemma of_uint32_intSF (z : Z) :
  0 <= z < 2 ^ 53 -> Prim2SF (of_uint32 z) = intSF z.
Proof.
  intros Hz. unfold of_uint32. rewrite of_uint63_spec, Uint63.of_Z_spec.
  rewrite Z.mod_small by (change Uint63Axioms.wB with (2 ^ 63); lia).
  apply binary_normalize_value; [lia | cbn; lia | lia].
Qed.

Lemma of_Z_intSF (z : Z) :
  Z.abs z < 2 ^ 53 -> Prim2SF (ExactSums.of_Z z) = intSF z.
Proof.
  intros Hz. unfold ExactSums.of_Z. destruct (z <? 0) eqn:E.
  - apply Z.ltb_lt in E. unfold fneg. rewrite opp_spec, of_uint32_intSF by lia.
    destruct z as [|v|v]; try lia. cbn [Z.opp intSF]. reflexivity.
  - apply Z.ltb_ge in E. apply of_uint32_intSF. lia.
Qed.

(** A float whose specification is the float of an integer is [of_Z] of
    that integer. *)
Lemma intSF_of_Z (x : float) (z : Z) :
  Z.abs z < 2 ^ 53 -> Prim2SF x = intSF z -> x = ExactSums.of_Z z.
Proof.
  intros Hz Hx. apply Prim2SF_inj. rewrite Hx. symmetry. apply of_Z_intSF. exact Hz.
Qed.

End IntegerFloatsFacts.

Module ExactSumsDerivation.

Import IntegerFloats IntegerFloatsFacts ExactSums Series.

Lemma sumZ_nonneg (l : list Z) : Forall (fun z => 0 <= z) l -> 0 <= sumZ l.
Proof.
  unfold sumZ. induction 1 as [|z l Hz _ IH]; cbn [fold_right]; lia.
Qed.

(** Adding up floats of non-negative integers is exact below 2^53. *)
Lemma fold_fadd_exact (fs : list float) (zs : list Z) (acc : float) (A : Z) :
  Forall2 (fun f z => Prim2SF f = intSF z /\ 0 <= z) fs zs ->
  0 <= A -> A + sumZ zs < 2 ^ 53 -> Prim2SF acc = intSF A ->
  Prim2SF (fold_left fadd fs acc) = intSF (A + sumZ zs).
Proof.
  intros H. revert acc A. induction H as [|f z fs zs [Hf Hz] Hrest IH]; intros acc A HA Hsum Hacc.
  - cbn. rewrite Z.add_0_r. exact Hacc.
  - cbn [fold_left]. unfold sumZ in *. cbn [fold_right] in *.
    assert (Hnn : 0 <= fold_right Z.add 0 zs).
    { apply sumZ_nonneg. clear - Hrest. induction Hrest as [|? ? ? ? [_ ?]]; constructor; auto. }
    rewrite Z.add_assoc. apply IH; [lia | lia |].
    unfold fadd. rewrite add_spec, Hacc, Hf. apply intSF_add; lia.
Qed.

Lemma fsum_exact (fs : list float) (zs : list Z) :
  Forall2 (fun f z => Prim2SF f = intSF z /\ 0 <= z) fs zs ->
  sumZ zs < 2 ^ 53 ->
  Prim2SF (fsum fs) = intSF (sumZ zs).
Proof.
  intros H Hsum. unfold fsum.
  rewrite (fold_fadd_exact fs zs 0%float 0 H); [reflexivity | lia | lia | reflexivity].
Qed.

Section Bounds.

Variable B : Z.

Local Abbreviation within l := (Forall (fun c => 0 <= c <= B) l).

Lemma sumZ_bound (l : list Z) : within l -> 0 <= sumZ l <= Z.of_nat (length l) * B.
Proof.
  unfold sumZ. induction 1 as [|z l Hz _ IH]; cbn [fold_right length]; [lia|].
  rewrite Nat2Z.inj_succ. lia.
Qed.

Lemma dotZ_bound (x y : list Z) :
  within x -> within y -> length x = length y ->
  0 <= dotZ x y <= Z.of_nat (length y) * (B * B).
Proof.
  intros Hx. revert y. unfold dotZ, sumZ.
  induction Hx as [|a x Ha _ IH]; intros y Hy Hlen.
  - destruct y; [cbn; lia | discriminate].
  - destruct y as [|b y]; [discriminate|]. inversion Hy as [|? ? Hb Hy']; subst.
    cbn [zip_with fold_right length]. rewrite Nat2Z.inj_succ.
    specialize (IH y Hy' ltac:(cbn in Hlen; lia)). nia.
Qed.

Lemma floats_of_counts (l : list Z) :
  within l -> B < 2 ^ 53 ->
  Forall2 (fun f z => Prim2SF f = intSF z /\ 0 <= z) (map of_uint32 l) l.
Proof.
  intros H HB. induction H as [|z l Hz _ IH]; constructor; [|exact IH].
  split; [apply of_uint32_intSF; lia | lia].
Qed.

Lemma floats_of_products (x y : list Z) :
  within x -> within y -> B * B < 2 ^ 53 ->
  Forall2 (fun f z => Prim2SF f = intSF z /\ 0 <= z)
          (products (map of_uint32 x) (map of_uint32 y)) (zip_with Z.mul x y).
Proof.
  intros Hx. revert y. induction Hx as [|a x Ha _ IH]; intros y Hy HB.
  - constructor.
  - destruct y as [|b y]; [constructor|]. inversion Hy as [|? ? Hb Hy']; subst.
    cbn [map products zip_with]. constructor; [|exact (IH y Hy' HB)].
    assert (Hab : a * b <= B * B) by nia.
    split; [|nia].
    unfold fmul. rewrite mul_spec, !of_uint32_intSF by nia.
    apply intSF_mul; nia.
Qed.

Lemma floats_of_squares (l : list Z) :
  within l -> B * B < 2 ^ 53 ->
  Forall2 (fun f z => Prim2SF f = intSF z /\ 0 <= z)
          (map pow2 (map of_uint32 l)) (zip_with Z.mul l l).
Proof.
  intros H HB. induction H as [|z l Hz _ IH]; [constructor|].
  cbn [map zip_with]. constructor; [|exact IH].
  split; [|nia]. unfold pow2, fmul. rewrite mul_spec, !of_uint32_intSF by nia.
  apply intSF_mul; nia.
Qed.

End Bounds.

(** With small counts the numerator and the two variance terms of the rule
    evaluation come out without rounding. *)
Lemma smallCounts_exact (B : Z) (x y : list Z) : smallCounts B x y -> exact x y.
Proof.
  intros (Hlen & Hx & Hy & HB & Hn).
  destruct (decide (y = [])) as [->|Hne].
  { destruct x; [|cbn in Hlen; lia]. repeat split; vm_compute; reflexivity. }
  assert (Hn1 : 1 <= Z.of_nat (length y)) by (destruct y; [congruence | cbn [length]; lia]).
  unfold exact, numeratorZ, varianceZ. cbn zeta. rewrite Hlen.
  set (n := Z.of_nat (length y)) in *.
  assert (Hpow : 2 ^ 26 * 2 ^ 26 < 2 ^ 53) by (cbn; lia).
  assert (HnB : n * B * (n * B) <= 2 ^ 26 * 2 ^ 26) by nia.
  assert (HBB : B * B < 2 ^ 53) by nia.
  pose proof (sumZ_bound B x Hx) as Bx. rewrite Hlen in Bx. fold n in Bx.
  pose proof (sumZ_bound B y Hy) as By. fold n in By.
  pose proof (dotZ_bound B x y Hx Hy Hlen) as Bxy. fold n in Bxy.
  pose proof (dotZ_bound B x x Hx Hx eq_refl) as Bxx. rewrite Hlen in Bxx. fold n in Bxx.
  pose proof (dotZ_bound B y y Hy Hy eq_refl) as Byy. fold n in Byy.
  assert (Sx : Prim2SF (fsum (map of_uint32 x)) = intSF (sumZ x))
    by (apply fsum_exact; [apply (floats_of_counts B); [exact Hx | nia] | nia]).
  assert (Sy : Prim2SF (fsum (map of_uint32 y)) = intSF (sumZ y))
    by (apply fsum_exact; [apply (floats_of_counts B); [exact Hy | nia] | nia]).
  assert (Sxx : Prim2SF (fsum (map pow2 (map of_uint32 x))) = intSF (dotZ x x))
    by (apply fsum_exact; [apply (floats_of_squares B); assumption | unfold dotZ in Bxx; nia]).
  assert (Syy : Prim2SF (fsum (map pow2 (map of_uint32 y))) = intSF (dotZ y y))
    by (apply fsum_exact; [apply (floats_of_squares B); assumption | unfold dotZ in Byy; nia]).
  assert (Sxy : Prim2SF (fsum (products (map of_uint32 x) (map of_uint32 y)))
                = intSF (dotZ x y))
    by (apply fsum_exact; [apply (floats_of_products B); assumption | unfold dotZ in Bxy; nia]).
  assert (Sn : Prim2SF (of_uint32 n) = intSF n) by (apply of_uint32_intSF; nia).
  rewrite (accumulateSums_spec x y Hlen).
  unfold numeratorOf, xVarianceTerm, yVarianceTerm.
  cbn [xSum xSquaredSum ySum ySquaredSum productSum].
  set (fx := fsum (map of_uint32 x)) in *. set (fy := fsum (map of_uint32 y)) in *.
  set (fxx := fsum (map pow2 (map of_uint32 x))) in *.
  set (fyy := fsum (map pow2 (map of_uint32 y))) in *.
  unfold pow2.
  refine (conj _ (conj _ _)); apply intSF_of_Z; try nia;
    unfold fsub, fmul; rewrite sub_spec, !mul_spec, ?Sx, ?Sy, ?Sxx, ?Syy, ?Sxy, ?Sn;
    rewrite !intSF_mul by nia; apply intSF_sub; nia.
Qed.

End ExactSumsDerivation.

Module NanFacts.

Lemma fmul_zero_l (b : float) :
  Prim2SF (fmul 0 b) = S754_nan \/ exists s, Prim2SF (fmul 0 b) = S754_zero s.
Proof.
  unfold fmul. rewrite mul_spec.
  replace (Prim2SF 0) with (S754_zero false) by reflexivity.
  destruct (Prim2SF b) as [s|s| |s m e]; cbn; eauto.
Qed.

Lemma fmul_zero_r (a : float) :
  Prim2SF (fmul a 0) = S754_nan \/ exists s, Prim2SF (fmul a 0) = S754_zero s.
Proof.
  unfold fmul. rewrite mul_spec.
  replace (Prim2SF 0) with (S754_zero false) by reflexivity.
  destruct (Prim2SF a) as [s|s| |s m e]; cbn; eauto.
Qed.

Lemma fdiv_zero_by (d : float) :
  (Prim2SF d = S754_nan \/ exists s, Prim2SF d = S754_zero s) -> fdiv 0 d = nan.
Proof.
  intros H. apply Prim2SF_inj. unfold fdiv. rewrite div_spec.
  replace (Prim2SF 0) with (S754_zero false) by reflexivity.
  replace (Prim2SF nan) with S754_nan by reflexivity.
  destruct H as [-> | [s ->]]; reflexivity.
Qed.

(** With a numerator of zero and one of the variance terms zero, the
    quotient is 0 / 0 or 0 / NaN. *)
Lemma qualityOf_nan (n : float) (s : Sums) :
  numeratorOf n s = 0%float ->
  xVarianceTerm n s = 0%float \/ yVarianceTerm n s = 0%float ->
  qualityOf n s = nan.
Proof.
  intros Hnum Hvar. unfold qualityOf. cbn zeta. rewrite Hnum.
  assert (H : fdiv 0 (fmul (fsqrt (xVarianceTerm n s)) (fsqrt (yVarianceTerm n s))) = nan).
  { apply fdiv_zero_by. destruct Hvar as [-> | ->].
    - replace (fsqrt 0) with 0%float by reflexivity. apply fmul_zero_l.
    - replace (fsqrt 0) with 0%float by reflexivity. apply fmul_zero_r. }
  rewrite H. reflexivity.
Qed.

End NanFacts.

Lemma zero_variance_quality (groundTruth : LabelMatrix) (predictions : list Z) :
  length (values groundTruth) = length predictions ->
  ExactSums.exact (values groundTruth) predictions ->
  ExactSums.constant (values groundTruth) \/ ExactSums.constant predictions ->
  overallQualityScore (calculateLabelWisePrediction predictions groundTruth) = nan.
Proof.
  intros Hlen (Hnum & Hx & Hy) Hconst.
  unfold calculateLabelWisePrediction. cbn [overallQualityScore].
  apply NanFacts.qualityOf_nan.
  - rewrite Hnum.
    replace (ExactSums.numeratorZ (values groundTruth) predictions) with 0; [reflexivity|].
    symmetry. destruct Hconst as [Hc | Hc].
    + apply ExactSumsFacts.numeratorZ_constant_l; assumption.
    + apply ExactSumsFacts.numeratorZ_constant_r; assumption.
  - destruct Hconst as [Hc | Hc]; [left; rewrite Hx | right; rewrite Hy];
      rewrite (ExactSumsFacts.varianceZ_constant _ Hc); reflexivity.
Qed.

(** C1 (as the code has it).  For a candidate whose prediction vector or
    whose ground truth is constant over the time slots, with counts small
    enough for the float64 sums to be exact (every count at most [B], and
    [B] times the number of time slots at most 2^26), the quality score is
    NaN and the head is rejected, whether or not the search already has a
    best head: [findHead] yields no head, and the refinement, the best head
    and the head owned by the head refinement stay as they are. *)
Theorem zero_variance_head_is_rejected
    (labelMatrix : LabelMatrix) (numCovered' : Z) (uncovered accumulated : bool)
    (update : Refinement -> Refinement) (s : Search) (B : Z) :
  let candidate := selectPredictions (subset s) uncovered accumulated in
  smallCounts B (values labelMatrix) candidate ->
  ExactSums.constant (values labelMatrix) \/ ExactSums.constant candidate ->
  let s' := tryHead labelMatrix numCovered' uncovered accumulated update s in
  overallQualityScore
    (subsetCalculateLabelWisePrediction labelMatrix (subset s) uncovered accumulated) = nan /\
  fst (findHead labelMatrix (bestHead s) (subset s) uncovered accumulated
                (headRefinement s)) = None /\
  refinement s' = refinement s /\ bestHead s' = bestHead s /\
  headRefinement s' = headRefinement s.
Proof.
  intros candidate Hsmall Hconst s'.
  pose proof (ExactSumsDerivation.smallCounts_exact B _ _ Hsmall) as Hexact.
  destruct Hsmall as (Hlen & _).
  pose proof (zero_variance_quality labelMatrix candidate Hlen Hexact Hconst) as Hq.
  split; [exact Hq|].
  subst s'. unfold tryHead, findHead.
  unfold subsetCalculateLabelWisePrediction in *. fold candidate. rewrite Hq.
  change (is_finite nan) with false. cbn. repeat split.
Qed.

Lemma zero_variance_head_is_rejected_witness :
  let best := {| Head.predictedScores := [1%float]; Head.overallQualityScore := (-0.5)%float |} in
  let s := {| subset := {| coveredPredictionVector := [1; 1];
                           uncoveredPredictionVector := [0; 1];
                           accumulatedCoveredPredictionVector := None;
                           accumulatedUncoveredPredictionVector := None |};
              headRefinement := Some best; bestHead := Some best;
              refinement := emptyRefinement; evaluated := [] |} in
  let s0 := {| subset := subset s; headRefinement := None; bestHead := None;
               refinement := emptyRefinement; evaluated := [] |} in
  bestHead (tryHead ConstantCandidate.labelMatrix 2 false false
                    (setCondition 2 0 1 2 true GR 2) s) = Some best /\
  bestHead (tryHead ConstantCandidate.labelMatrix 2 false false
                    (setCondition 2 0 1 2 true GR 2) s0) = None.
Proof.
  intros best s s0. split.
  - refine (proj1 (proj2 (proj2 (proj2
      (zero_variance_head_is_rejected ConstantCandidate.labelMatrix 2 false
         false (setCondition 2 0 1 2 true GR 2) s 2 _ _))))).
    + unfold smallCounts. cbn. repeat split; try lia; repeat constructor; lia.
    + right. exists 1. reflexivity.
  - refine (proj1 (proj2 (proj2 (proj2
      (zero_variance_head_is_rejected ConstantCandidate.labelMatrix 2 false
         false (setCondition 2 0 1 2 true GR 2) s0 2 _ _))))).
    + unfold smallCounts. cbn. repeat split; try lia; repeat constructor; lia.
    + right. exists 1. reflexivity.
Defined.

(** C1, the claim refuted.  With larger counts the sums are rounded.  In
    the scenario [RoundedVariance] the ground truth is the same in every
    time slot, so its variance is zero; the float64 variance term of the
    evaluation is not, the score of the first candidate is -0, a finite
    number, and the head is accepted: the search returns the refinement
    built from it. *)
Lemma rounded_zero_variance_head_is_returned :
  ExactSums.constant (values RoundedVariance.labelMatrix) /\
  ExactSums.varianceZ (values RoundedVariance.labelMatrix) = 0 /\
  overallQualityScore (calculateLabelWisePrediction [0; 0; 1] RoundedVariance.labelMatrix)
    = (-0)%float /\
  is_finite (-0)%float = true /\
  headPtr RoundedVariance.found
    = Some {| Head.predictedScores := [1%float]; Head.overallQualityScore := (-0)%float |} /\
  covered RoundedVariance.found = true /\
  comparator RoundedVariance.found = GR /\
  threshold RoundedVariance.found = 2.5%float /\
  numCovered RoundedVariance.found = 1.
Proof.
  split; [exists 2418525393; reflexivity|].
  repeat split; vm_compute; reflexivity.
Qed.

(** ** The score and the Pearson quotient *)

(** C2 (as the code has it).  For a prediction vector and a ground truth
    over the same time slots, with counts small enough for the float64
    sums to be exact (every count at most [B], and [B] times the number of
    time slots at most 2^26), the overall quality score of the rule
    evaluation is the negated absolute Pearson quotient of the two series:
    numerator n * sum(x*y) - sum(x) * sum(y) and variance terms
    n * sum(x^2) - sum(x)^2 and n * sum(y^2) - sum(y)^2 as they are over
    the integers, divided and rooted in float64. *)
Theorem quality_is_pearson_score_of_small_counts
    (predictions : list Z) (groundTruth : LabelMatrix) (B : Z) :
  smallCounts B (values groundTruth) predictions ->
  overallQualityScore (calculateLabelWisePrediction predictions groundTruth)
  = ExactSums.pearsonScore (values groundTruth) predictions.
Proof.
  intros Hsmall.
  destruct (ExactSumsDerivation.smallCounts_exact B _ _ Hsmall) as (Hnum & Hx & Hy).
  unfold calculateLabelWisePrediction, ExactSums.pearsonScore, qualityOf.
  cbn [overallQualityScore]. cbn zeta in *.
  rewrite Hnum, Hx, Hy. reflexivity.
Qed.

Lemma quality_is_pearson_score_of_small_counts_witness :
  overallQualityScore
    (calculateLabelWisePrediction [2; 1; 2]
       {| timeSlots := [0; 0; 1; 1; 2; 2]; indices := [0; 2; 4; 6]; values := [2; 0; 2] |})
  = ExactSums.pearsonScore [2; 0; 2] [2; 1; 2].
Proof.
  apply (quality_is_pearson_score_of_small_counts [2; 1; 2]
           {| timeSlots := [0; 0; 1; 1; 2; 2]; indices := [0; 2; 4; 6]; values := [2; 0; 2] |}
           2).
  unfold smallCounts. cbn. repeat split; try lia; repeat constructor; lia.
Defined.

(** C2, the claim refuted.  The predictions 0, 1, 2 and the ground truth
    4000000000, 4000000001, 4000000002 are perfectly correlated: numerator
    and both variance terms are 6, the Pearson correlation is 1.  The float64
    sums of the evaluation are rounded, and the score is about -0.0191.
    With the ground truth 100000000, 100000001, 100000002 the rounded
    variance term is zero and the score is minus infinity. *)
Lemma rounded_sums_miss_the_correlation :
  ExactSums.numeratorZ [4000000000; 4000000001; 4000000002] [0; 1; 2] = 6 /\
  ExactSums.varianceZ [4000000000; 4000000001; 4000000002] = 6 /\
  ExactSums.varianceZ [0; 1; 2] = 6 /\
  overallQualityScore
    (calculateLabelWisePrediction [0; 1; 2]
       {| timeSlots := [0; 1; 2]; indices := [0; 1; 2; 3];
          values := [4000000000; 4000000001; 4000000002] |})
    = (-0x1.3988e1409212fp-6)%float /\
  ExactSums.numeratorZ [100000000; 100000001; 100000002] [0; 1; 2] = 6 /\
  ExactSums.varianceZ [100000000; 100000001; 100000002] = 6 /\
  overallQualityScore
    (calculateLabelWisePrediction [0; 1; 2]
       {| timeSlots := [0; 1; 2]; indices := [0; 1; 2; 3];
          values := [100000000; 100000001; 100000002] |})
    = neg_infinity.
Proof. repeat split; vm_compute; reflexivity. Qed.

(** ** Total predictions and predictions *)


Lemma increase_loop_length (mask : CoverageMask) (l : list Z) (st : Statistics) :
  length (coverageCountVector
            (fold_left (fun s i => if isCovered mask i then increaseCoverageCount s i else s)
                       l st)) =
  length (coverageCountVector st).
Proof.
  revert st. induction l as [|i l IH]; intros st; [reflexivity|].
  cbn [fold_left]. rewrite IH. destruct (isCovered mask i); [|reflexivity].
  cbn [increaseCoverageCount coverageCountVector]. apply length_wr.
Qed.

(** The loop of [applyPrediction] over the examples [first .. first + n - 1]. *)
Lemma increase_loop_rd (mask : CoverageMask) (n : nat) (first : Z) (st : Statistics) (j : Z) :
  0 <= first -> first + Z.of_nat n <= Z.of_nat (length (coverageCountVector st)) -> 0 <= j ->
  rd (coverageCountVector
        (fold_left (fun s i => if isCovered mask i then increaseCoverageCount s i else s)
                   (positions first (first + Z.of_nat n)) st)) j =
  if bool_decide (first <= j < first + Z.of_nat n) && isCovered mask j
  then add (rd (coverageCountVector st) j) 1
  else rd (coverageCountVector st) j.
Proof.
  revert first st. induction n as [|n IH]; intros first st Hf Hlen Hj.
  - rewrite positions_nil by lia. cbn [fold_left].
    rewrite bool_decide_eq_false_2 by lia. reflexivity.
  - rewrite positions_cons by lia. cbn [fold_left].
    replace (first + Z.of_nat (S n)) with (first + 1 + Z.of_nat n) by lia.
    rewrite IH; [|lia| |lia].
    2:{ destruct (isCovered mask first); [|lia].
        cbn [increaseCoverageCount coverageCountVector]. rewrite length_wr. lia. }
    destruct (decide (j = first)) as [->|Hne].
    + rewrite bool_decide_eq_false_2 by lia. rewrite bool_decide_eq_true_2 by lia.
      cbn [andb]. destruct (isCovered mask first); [|reflexivity].
      cbn [increaseCoverageCount coverageCountVector]. apply rd_wr_eq. lia.
    + assert (Hsame : rd (coverageCountVector
                            (if isCovered mask first then increaseCoverageCount st first
                             else st)) j = rd (coverageCountVector st) j).
      { destruct (isCovered mask first); [|reflexivity].
        cbn [increaseCoverageCount coverageCountVector]. apply rd_wr_ne; lia. }
      rewrite Hsame.
      destruct (decide (first + 1 <= j < first + 1 + Z.of_nat n)).
      * rewrite !bool_decide_eq_true_2 by lia. reflexivity.
      * rewrite !bool_decide_eq_false_2 by lia. reflexivity.
Qed.

(** Counting the examples with a positive count after the increments. *)
Lemma count_after_increase (mask : CoverageMask) (counts counts' : list Z) (l : list Z) :
  (forall j, In j l ->
     0 <= rd counts j < modulus - 1 /\
     rd counts' j = if isCovered mask j then add (rd counts j) 1 else rd counts j) ->
  Z.of_nat (length (filter (fun j => 0 < rd counts' j) l)) =
  Z.of_nat (length (filter (fun j => 0 < rd counts j) l)) +
  Z.of_nat (length (filter (fun j => isCovered mask j && (rd counts j =? 0) = true) l)).
Proof.
  induction l as [|j l IH]; intros H; [reflexivity|].
  destruct (H j ltac:(left; reflexivity)) as [Hr Hj].
  specialize (IH ltac:(intros k Hk; apply H; right; exact Hk)).
  destruct (isCovered mask j) eqn:Ec.
  - unfold add in Hj. rewrite wrap32_small in Hj by lia.
    rewrite (filter_cons_True (fun j => 0 < rd counts' j)) by lia.
    destruct (decide (rd counts j = 0)) as [Hz|Hnz].
    + rewrite (filter_cons_False (fun j => 0 < rd counts j)) by lia.
      rewrite (filter_cons_True
                 (fun j => isCovered mask j && (rd counts j =? 0) = true)).
      2:{ rewrite Ec. cbn [andb]. apply Z.eqb_eq. exact Hz. }
      cbn [length]. lia.
    + rewrite (filter_cons_True (fun j => 0 < rd counts j)) by lia.
      rewrite (filter_cons_False
                 (fun j => isCovered mask j && (rd counts j =? 0) = true)).
      2:{ rewrite Ec. cbn [andb]. intros E. apply Z.eqb_eq in E. lia. }
      cbn [length]. lia.
  - rewrite (filter_cons_False
               (fun j => isCovered mask j && (rd counts j =? 0) = true)).
    2:{ rewrite Ec. cbn [andb]. discriminate. }
    destruct (decide (0 < rd counts j)) as [Hp|Hnp].
    + rewrite (filter_cons_True (fun j => 0 < rd counts' j)) by lia.
      rewrite (filter_cons_True (fun j => 0 < rd counts j)) by lia.
      cbn [length]. lia.
    + rewrite (filter_cons_False (fun j => 0 < rd counts' j)) by lia.
      rewrite (filter_cons_False (fun j => 0 < rd counts j)) by lia.
      exact IH.
Qed.

Lemma numCovered_after_applyPrediction (labelMatrix : LabelMatrix) (mask : CoverageMask)
    (st : Statistics) (first last : Z) :
  length (coverageCountVector st) = length (timeSlots labelMatrix) ->
  Forall (fun c => 0 <= c < modulus - 1) (coverageCountVector st) ->
  0 <= first -> last <= getNumRows labelMatrix ->
  numCoveredInSlot
    (coverageCountVector
       (fold_left (fun s i => if isCovered mask i then increaseCoverageCount s i else s)
                  (positions 0 (getNumRows labelMatrix)) st))
    first last =
  numCoveredInSlot (coverageCountVector st) first last
  + numFreshInSlot mask (coverageCountVector st) first last.
Proof.
  intros Hlen Hcc Hf Hl. unfold numCoveredInSlot, numFreshInSlot.
  rewrite (count_after_increase mask (coverageCountVector st)); [lia|].
  intros j Hj. apply in_positions in Hj. split.
  - unfold rd. destruct (coverageCountVector st !! Z.to_nat j) as [c|] eqn:E; simpl.
    + rewrite Forall_forall in Hcc. apply Hcc. apply list_elem_of_lookup. eauto.
    + unfold modulus. lia.
  - pose proof (increase_loop_rd mask (length (timeSlots labelMatrix)) 0 st j
                  ltac:(lia) ltac:(lia) ltac:(lia)) as H.
    unfold getNumRows in *. rewrite !Z.add_0_l in H. rewrite H.
    rewrite bool_decide_eq_true_2 by lia. reflexivity.
Qed.




(** The equality of the two vectors after a committed rule needs the
    examples outside the sample to be accounted for: here the rule
    [f <= 0.5] is committed; its condition keeps the complement of the swept
    range, so the last example, which has weight 0 and was never counted in
    the total predictions, is taken out of them all the same.  When the rule
    is done the total of the last slot is 0, while its prediction, the
    number of its covered examples, is 1. *)
Example totals_differ_after_rule_outside_sample :
  option_map (fun r => (success r,
                        predictionVector (statisticsAfter r),
                        totalPredictionVector (statisticsAfter r)))
    RuleOutsideSample.induced
  = Some (true, [1; 2; 1], [1; 2; 0]).
Proof. vm_compute. reflexivity. Qed.

(** ** Growing a rule leaves the committed statistics alone *)

Lemma fold_left_invariant {A S : Type} (P : S -> Prop) (f : S -> A -> S) (l : list A) (s : S) :
  (forall a x, P a -> P (f a x)) -> P s -> P (fold_left f l s).
Proof.
  intros Hstep. revert s. induction l as [|x l IH]; intros s Hs; [exact Hs|].
  cbn [fold_left]. apply IH. apply Hstep. exact Hs.
Qed.

Lemma sameCommitted_refl st : sameCommitted st st.
Proof. split; reflexivity. Qed.

Lemma sameCommitted_trans a b c : sameCommitted a b -> sameCommitted b c -> sameCommitted a c.
Proof. intros [H1 H2] [H3 H4]. split; congruence. Qed.

Lemma updateCoveredStatistic_committed labelMatrix st i w remove :
  sameCommitted (updateCoveredStatistic labelMatrix st i w remove) st.
Proof.
  unfold updateCoveredStatistic.
  destruct (rd (coverageCountVector st) i =? 0); split; reflexivity.
Qed.

Lemma resetCoveredStatistics_committed st : sameCommitted (resetCoveredStatistics st) st.
Proof. split; reflexivity. Qed.

Lemma createSubset_committed labelMatrix numRows weights st :
  sameCommitted (snd (createSubset labelMatrix numRows weights st)) st.
Proof.
  cbn [createSubset snd]. unfold updateSampledStatisticsInternally.
  apply (fold_left_invariant (fun s => sameCommitted s st)).
  - intros a i Ha. destruct (getWeight weights i =? 0); [exact Ha|].
    eapply sameCommitted_trans; [apply updateCoveredStatistic_committed | exact Ha].
  - apply resetCoveredStatistics_committed.
Qed.

Section FilterFacts.

Variable labelMatrix : LabelMatrix.
Variable weights : list Z.

Lemma filterCurrentVector_committed vector cacheEntry conditionStart conditionEnd comparator'
    covered' numConditions' coverageMask st :
  sameCommitted
    (snd (filterCurrentVector labelMatrix weights vector cacheEntry conditionStart
                              conditionEnd comparator' covered' numConditions' coverageMask st))
    st.
Proof.
  unfold filterCurrentVector. cbn zeta. cbn [snd].
  set (P := fun f : Filtering => sameCommitted (fStatistics f) st).
  assert (Hseti : forall i a, P a -> P (setI i a)) by (intros ? a Ha; exact Ha).
  assert (Hupd : forall s i w remove,
             sameCommitted s st ->
             sameCommitted (updateCoveredStatistic labelMatrix s i w remove) st).
  { intros s i w remove Hs.
    eapply sameCommitted_trans; [apply updateCoveredStatistic_committed | exact Hs]. }
  match goal with |- sameCommitted (fStatistics ?f) st => change (P f) end.
  destruct covered', (conditionEnd <? conditionStart), comparator';
    repeat (first
      [ apply Hseti
      | apply (fold_left_invariant P);
        [ intros a x Ha;
          unfold P, retainCovered, discardUncovered, discardMissing, moveEntry;
          cbn [fStatistics]; first [exact Ha | apply Hupd; exact Ha]
        | ] ]);
    unfold P; cbn [fStatistics];
    first [apply sameCommitted_refl | apply resetCoveredStatistics_committed].
Qed.

End FilterFacts.

Section RuleInductionFacts.

Variable labelMatrix : LabelMatrix.
Variable numRows : Z.
Variable featureMatrix : Z -> FeatureVector.
Variable isNominal : Z -> bool.
Variable Rng : Type.
Variable subSampleFeatures : Rng -> list Z * Rng.
Variable minCoverage : Z.
Variable maxConditions_ : Z.
Variable weights : list Z.

Local Abbreviation grow :=
  (refineOnce labelMatrix featureMatrix isNominal Rng subSampleFeatures minCoverage weights).

Local Abbreviation growLoop :=
  (refineLoop labelMatrix featureMatrix isNominal Rng subSampleFeatures minCoverage
              maxConditions_ weights).

Lemma filterThresholds_facts ts st rf :
  let result := filterThresholds labelMatrix featureMatrix weights ts st rf in
  sameCommitted (snd (fst result)) st /\ headPtr (snd result) = headPtr rf.
Proof.
  unfold filterThresholds. cbn zeta.
  match goal with
  | |- context [filterCurrentVector ?a ?b ?c ?d ?e ?f ?g ?h ?i ?j ?k] =>
      pose proof (filterCurrentVector_committed a b c d e f g h i j k) as H;
      destruct (filterCurrentVector a b c d e f g h i j k) as [[entry mask'] st']
  end.
  cbn [fst snd] in *. split; [exact H|].
  destruct (hasZeroWeights weights && _); reflexivity.
Qed.

(** The reduction: while nothing was found the best refinement is the one
    it started from, and what is found is strictly better than that. *)
Lemma pickBest_facts features refinements best :
  let '(_, best', found) := pickBest features (refinements, best, false) in
  if found then isBetterThan best' best = true else best' = best.
Proof.
  unfold pickBest.
  set (P := fun a : gmap Z ExactRuleRefinement * Refinement * bool =>
              if snd a then isBetterThan (snd (fst a)) best = true else snd (fst a) = best).
  assert (H : P (fold_left pickStep features (refinements, best, false))).
  { apply (fold_left_invariant P); [|reflexivity].
    intros [[rs b] found] j Ha. unfold P in *. cbn [fst snd] in *. unfold pickStep.
    destruct (rs !! j) as [rr|]; [|exact Ha].
    destruct (refinementPtr_ rr) as [rf|]; [|exact Ha].
    destruct (isBetterThan rf b) eqn:E; [|exact Ha].
    cbn [fst snd]. destruct found.
    - unfold isBetterThan in *. eapply FloatOrderFacts.flt_trans; eassumption.
    - subst b. exact E. }
  destruct (fold_left pickStep features (refinements, best, false)) as [[rs b] found].
  exact H.
Qed.

Lemma refineOnce_facts (s : Induction Rng) :
  sameCommitted (liveStatistics (grow s)) (liveStatistics s) /\
  (foundRefinement (grow s) = true ->
   flt (qualityOfRefinement (bestRefinementPtr (grow s)))
       (qualityOfRefinement (bestRefinementPtr s)) = true).
Proof.
  unfold refineOnce.
  destruct (subSampleFeatures (rngState s)) as [features rng'].
  destruct (createRefinements _ _ _) as [ts1 refinements1].
  destruct (searchFeatures _ _ _ _ _ _ _ _) as [ts2 refinements2].
  pose proof (pickBest_facts features refinements2 (bestRefinementPtr s)) as Hpick.
  destruct (pickBest features (refinements2, bestRefinementPtr s, false))
    as [[refinements3 best] found].
  destruct found.
  - pose proof (filterThresholds_facts ts2 (liveStatistics s) best) as [Hc Hh].
    destruct (filterThresholds _ _ _ _ _ _) as [[ts3 st3] best'].
    cbn [fst snd] in *. cbn [liveStatistics foundRefinement bestRefinementPtr].
    split; [exact Hc|]. intros _.
    unfold isBetterThan in Hpick. unfold qualityOfRefinement in *. rewrite Hh. exact Hpick.
  - cbn [liveStatistics foundRefinement]. split; [apply sameCommitted_refl | discriminate].
Qed.

Lemma refineLoop_committed fuel (s s' : Induction Rng) :
  growLoop fuel s = Some s' -> sameCommitted (liveStatistics s') (liveStatistics s).
Proof.
  revert s. induction fuel as [|fuel IH]; intros s H; cbn [refineLoop] in H.
  - destruct (continues _ _ s); [discriminate|]. injection H as <-. apply sameCommitted_refl.
  - destruct (continues _ _ s).
    + eapply sameCommitted_trans; [apply IH; exact H | apply refineOnce_facts].
    + injection H as <-. apply sameCommitted_refl.
Qed.

Lemma refineLoop_more_fuel fuel fuel' (s s' : Induction Rng) :
  growLoop fuel s = Some s' -> (fuel <= fuel')%nat -> growLoop fuel' s = Some s'.
Proof.
  revert fuel' s. induction fuel as [|fuel IH]; intros fuel' s H Hle; cbn [refineLoop] in H.
  - destruct (continues _ _ s) eqn:E; [discriminate|].
    destruct fuel'; cbn [refineLoop]; rewrite E; exact H.
  - destruct fuel' as [|fuel']; [lia|]. cbn [refineLoop].
    destruct (continues _ _ s); [|exact H]. apply IH; [exact H | lia].
Qed.

Lemma refineLoop_deterministic fuel1 fuel2 (s a b : Induction Rng) :
  growLoop fuel1 s = Some a -> growLoop fuel2 s = Some b -> a = b.
Proof.
  intros H1 H2.
  pose proof (refineLoop_more_fuel _ (Nat.max fuel1 fuel2) _ _ H1 ltac:(lia)) as H1'.
  pose proof (refineLoop_more_fuel _ (Nat.max fuel1 fuel2) _ _ H2 ltac:(lia)) as H2'.
  congruence.
Qed.

Lemma refineLoop_unfold fuel (s : Induction Rng) :
  growLoop (S fuel) s =
  if continues Rng maxConditions_ s then growLoop fuel (grow s) else Some s.
Proof. reflexivity. Qed.

Lemma refineLoop_stops fuel (s : Induction Rng) :
  continues Rng maxConditions_ s = false -> growLoop fuel s = Some s.
Proof. intros H. destruct fuel; cbn [refineLoop]; rewrite H; reflexivity. Qed.

(** The loop ends: every pass that does not end it lowers the quality score
    of the best refinement, and scores cannot be lowered forever. *)
Lemma refineLoop_terminates (s : Induction Rng) :
  exists s', growLoop (S (S (FloatOrder.rank (qualityOfRefinement (bestRefinementPtr s))))) s
             = Some s'.
Proof.
  remember (FloatOrder.rank (qualityOfRefinement (bestRefinementPtr s))) as n eqn:Hn.
  assert (Hle : (FloatOrder.rank (qualityOfRefinement (bestRefinementPtr s)) <= n)%nat)
    by lia.
  clear Hn. revert s Hle. induction n as [|n IH]; intros s Hle.
  - rewrite refineLoop_unfold.
    destruct (continues Rng maxConditions_ s) eqn:E; [|eauto].
    destruct (continues Rng maxConditions_ (grow s)) eqn:E1.
    + unfold continues in E1. apply andb_prop in E1. destruct E1 as [Hfound _].
      destruct (refineOnce_facts s) as [_ Hprog].
      pose proof (FloatOrderFacts.flt_rank _ _ (Hprog Hfound)). lia.
    + exists (grow s). apply refineLoop_stops. exact E1.
  - rewrite refineLoop_unfold.
    destruct (continues Rng maxConditions_ s) eqn:E; [|eauto].
    destruct (continues Rng maxConditions_ (grow s)) eqn:E1.
    + pose proof E1 as E2.
      unfold continues in E2. apply andb_prop in E2. destruct E2 as [Hfound _].
      destruct (refineOnce_facts s) as [_ Hprog].
      pose proof (FloatOrderFacts.flt_rank _ _ (Hprog Hfound)) as Hlt.
      apply IH. lia.
    + exists (grow s). apply refineLoop_stops. exact E1.
Qed.

End RuleInductionFacts.

(** C5.  [induceRule] returns: its loop ends.  It adds a rule to the model
    builder and returns (true, s), s being the quality score of the best
    head, if and only if a best head was found and its score is strictly
    lower than the current quality.  In every other case it returns
    (false, currentQuality), the model builder is as it was, and so are the
    coverage counts and the predictions of the statistics. *)
Theorem induceRule_commits_iff_strictly_better
    (labelMatrix : LabelMatrix) (numRows : Z) (featureMatrix : Z -> FeatureVector)
    (isNominal : Z -> bool) (Rng : Type) (subSampleFeatures : Rng -> list Z * Rng)
    (minCoverage maxConditions_ : Z) (weights : list Z)
    (statistics : Statistics) (rng : Rng) (model : list Rule) (currentQuality' : float) :
  exists (fuel : nat) (grownRule : Induction Rng) (result : Induced Rng),
    refineLoop labelMatrix featureMatrix isNominal Rng subSampleFeatures minCoverage
               maxConditions_ weights fuel
               (startInduction labelMatrix numRows Rng weights statistics rng)
      = Some grownRule /\
    induceRule labelMatrix numRows featureMatrix isNominal Rng subSampleFeatures minCoverage
               maxConditions_ weights fuel statistics rng model currentQuality'
      = Some result /\
    (forall fuel' result',
        induceRule labelMatrix numRows featureMatrix isNominal Rng subSampleFeatures
                   minCoverage maxConditions_ weights fuel' statistics rng model
                   currentQuality' = Some result' ->
        result' = result) /\
    (success result = true <->
     exists head, bestHeadPtr grownRule = Some head /\
                  flt (Head.overallQualityScore head) currentQuality' = true) /\
    (success result = true ->
     exists head, bestHeadPtr grownRule = Some head /\
                  quality result = Head.overallQualityScore head /\
                  modelAfter result = model ++ [(conditions grownRule, head)]) /\
    (success result = false ->
     quality result = currentQuality' /\
     modelAfter result = model /\
     coverageCountVector (statisticsAfter result) = coverageCountVector statistics /\
     predictionVector (statisticsAfter result) = predictionVector statistics).
Proof.
  destruct (refineLoop_terminates labelMatrix featureMatrix isNominal Rng subSampleFeatures
              minCoverage maxConditions_ weights
              (startInduction labelMatrix numRows Rng weights statistics rng))
    as [grownRule Hloop].
  eexists _, grownRule, (conclude labelMatrix Rng model currentQuality' grownRule).
  split; [exact Hloop|].
  split; [unfold induceRule; rewrite Hloop; reflexivity|].
  split.
  { intros fuel' result' H. unfold induceRule in H.
    destruct (refineLoop _ _ _ _ _ _ _ _ fuel' _) as [s''|] eqn:E; [|discriminate].
    injection H as <-.
    rewrite (refineLoop_deterministic _ _ _ _ _ _ _ _ _ _ _ _ _ E Hloop). reflexivity. }
  assert (Hframe : sameCommitted (liveStatistics grownRule) statistics).
  { eapply sameCommitted_trans; [eapply refineLoop_committed; exact Hloop|].
    apply (createSubset_committed labelMatrix numRows weights statistics). }
  destruct (conclude_cases labelMatrix Rng model currentQuality' grownRule)
    as [(Hs & h & Hh & Hlt & Hq & Hm & _) | (Hs & Hq & Hm & Hst & Hno)].
  - split; [|split].
    + split; [intros _; exists h; split; assumption | intros _; exact Hs].
    + intros _. exists h. repeat split; assumption.
    + intros Hf. rewrite Hs in Hf. discriminate.
  - split; [|split].
    + split; [intros Ht; rewrite Hs in Ht; discriminate|].
      intros (h & Hh & Hlt). destruct Hno as [Hnone | (h' & Hh' & Hge)]; congruence.
    + intros Ht. rewrite Hs in Ht. discriminate.
    + intros _. rewrite Hst. destruct Hframe as [Hc Hp]. repeat split; assumption.
Qed.

(** ** The parallel search does not depend on the schedule *)

Lemma fold_left_permutation {A S : Type} (I : S -> Prop) (f : S -> A -> S) :
  (forall s x, I s -> I (f s x)) ->
  (forall s x y, I s -> x <> y -> f (f s x) y = f (f s y) x) ->
  forall l l', Permutation l l' -> NoDup l ->
  forall s, I s -> fold_left f l s = fold_left f l' s.
Proof.
  intros Hinv Hcomm l l' Hperm.
  induction Hperm as [|x l l' Hperm IH|x y l|l l' l'' H1 IH1 H2 IH2]; intros Hnd s Hs.
  - reflexivity.
  - cbn [fold_left]. apply NoDup_cons in Hnd. destruct Hnd as [_ Hnd].
    apply IH; [exact Hnd | apply Hinv; exact Hs].
  - cbn [fold_left]. f_equal. apply Hcomm; [exact Hs|].
    apply NoDup_cons in Hnd. destruct Hnd as [Hin _].
    intros ->. apply Hin. left.
  - rewrite IH1 by assumption. apply IH2; [|exact Hs].
    rewrite <- H1. exact Hnd.
Qed.

Section ScheduleFacts.

Variable labelMatrix : LabelMatrix.
Variable featureMatrix : Z -> FeatureVector.
Variable isNominal : Z -> bool.
Variable minCoverage : Z.
Variable weights : list Z.
Variable statistics : Statistics.
Variable currentHead : option Head.t.

Local Abbreviation task :=
  (searchTask labelMatrix featureMatrix minCoverage weights statistics currentHead).

(** A task for the feature [j] reads and writes the cache entry and the
    refinement object of [j], and nothing else that changes. *)
Lemma searchTask_local (ts : ThresholdsSubset) (refinements : gmap Z ExactRuleRefinement)
    (j : Z) :
  wellKeyed refinements ->
  exists (entry : option FilteredCacheEntry) (object : option ExactRuleRefinement),
    (forall rr, object = Some rr -> featureIndex_ rr = j) /\
    forall ts2 refinements2,
      sameFor j ts2 ts -> refinements2 !! j = refinements !! j ->
      task (ts2, refinements2) j =
      (writeCacheEntry entry j ts2, writeRefinement object j refinements2).
Proof.
  intros Hkeys.
  destruct (refinements !! j) as [rr|] eqn:Err.
  2:{ exists None, None. split; [discriminate|].
      intros ts2 refinements2 _ Hlk. unfold searchTask. cbn [fst snd].
      rewrite Hlk. reflexivity. }
  pose proof (Hkeys j rr Err) as Hidx.
  pose (cacheEntry := default newFilteredCacheEntry (cacheFiltered_ ts !! j)).
  pose (featureVector := match vectorPtr cacheEntry with
                         | Some v => v
                         | None => featureMatrix j
                         end).
  destruct (numConditions cacheEntry <? numModifications_ ts) eqn:Estale.
  - pose (cacheEntry' := filterAnyVector featureVector cacheEntry (numModifications_ ts)
                                         (coverageMask_ ts)).
    exists (Some cacheEntry').
    exists (Some {| numExamples_ := numExamples_ rr; featureIndex_ := j;
                    nominal_ := nominal_ rr;
                    refinementPtr_ :=
                      Some (findRefinement labelMatrix statistics weights
                              (default featureVector (vectorPtr cacheEntry'))
                              (numExamples_ rr) (nominal_ rr) minCoverage j
                              currentHead) |}).
    split.
    { intros rr' H. injection H as <-. reflexivity. }
    intros ts2 refinements2 (Hm & Hn & Hc) Hlk.
    unfold searchTask. cbn [fst snd]. rewrite Hlk.
    unfold searchFeature, callbackGet, cacheEntryOf.
    rewrite Hidx, Hc, Hm, Hn. fold cacheEntry. rewrite Estale. fold featureVector.
    fold cacheEntry'. unfold writeCacheEntry, writeRefinement, setCache. reflexivity.
  - exists None.
    exists (Some {| numExamples_ := numExamples_ rr; featureIndex_ := j;
                    nominal_ := nominal_ rr;
                    refinementPtr_ :=
                      Some (findRefinement labelMatrix statistics weights featureVector
                              (numExamples_ rr) (nominal_ rr) minCoverage j
                              currentHead) |}).
    split.
    { intros rr' H. injection H as <-. reflexivity. }
    intros ts2 refinements2 (Hm & Hn & Hc) Hlk.
    unfold searchTask. cbn [fst snd]. rewrite Hlk.
    unfold searchFeature, callbackGet, cacheEntryOf.
    rewrite Hidx, Hc, Hn. fold cacheEntry. rewrite Estale. fold featureVector.
    unfold writeCacheEntry, writeRefinement. reflexivity.
Qed.

Lemma sameFor_refl j ts : sameFor j ts ts.
Proof. repeat split. Qed.

Lemma sameFor_write entry j k ts : j <> k -> sameFor k (writeCacheEntry entry j ts) ts.
Proof.
  intros Hne. destruct entry as [e|]; [|apply sameFor_refl].
  repeat split. cbn. apply lookup_insert_ne. exact Hne.
Qed.

Lemma writeRefinement_lookup object j k refinements :
  j <> k -> writeRefinement object j refinements !! k = refinements !! k.
Proof.
  intros Hne. destruct object as [rr|]; [|reflexivity].
  cbn. apply lookup_insert_ne. exact Hne.
Qed.

Lemma writeCacheEntry_commute e1 e2 j k ts :
  j <> k ->
  writeCacheEntry e2 k (writeCacheEntry e1 j ts) =
  writeCacheEntry e1 j (writeCacheEntry e2 k ts).
Proof.
  intros Hne. destruct e1 as [a|], e2 as [b|]; cbn; try reflexivity.
  f_equal. apply insert_insert_ne. congruence.
Qed.

Lemma writeRefinement_commute o1 o2 j k (refinements : gmap Z ExactRuleRefinement) :
  j <> k ->
  writeRefinement o2 k (writeRefinement o1 j refinements) =
  writeRefinement o1 j (writeRefinement o2 k refinements).
Proof.
  intros Hne. destruct o1 as [a|], o2 as [b|]; cbn; try reflexivity.
  apply insert_insert_ne. congruence.
Qed.

Lemma searchTask_wellKeyed a j : wellKeyed (snd a) -> wellKeyed (snd (task a j)).
Proof.
  destruct a as [ts refinements]. cbn [snd]. intros Hkeys.
  destruct (searchTask_local ts refinements j Hkeys) as (entry & object & Hobj & Hshape).
  rewrite (Hshape ts refinements (sameFor_refl j ts) eq_refl). cbn [snd].
  destruct object as [rr|]; [|exact Hkeys].
  intros k rr' Hk. cbn in Hk.
  destruct (decide (j = k)) as [<-|Hne].
  - rewrite lookup_insert_eq in Hk. injection Hk as <-. apply Hobj. reflexivity.
  - rewrite lookup_insert_ne in Hk by exact Hne. apply (Hkeys k rr' Hk).
Qed.

Lemma searchTask_commute a j k :
  wellKeyed (snd a) -> j <> k -> task (task a j) k = task (task a k) j.
Proof.
  destruct a as [ts refinements]. cbn [snd]. intros Hkeys Hne.
  destruct (searchTask_local ts refinements j Hkeys) as (ej & oj & _ & Hj).
  destruct (searchTask_local ts refinements k Hkeys) as (ek & ok & _ & Hk).
  rewrite (Hj ts refinements (sameFor_refl j ts) eq_refl).
  rewrite (Hk ts refinements (sameFor_refl k ts) eq_refl).
  rewrite (Hk _ _ (sameFor_write ej j k ts Hne) (writeRefinement_lookup oj j k _ Hne)).
  rewrite (Hj _ _ (sameFor_write ek k j ts ltac:(congruence))
              (writeRefinement_lookup ok k j _ ltac:(congruence))).
  rewrite (writeCacheEntry_commute ej ek j k ts Hne).
  rewrite (writeRefinement_commute oj ok j k refinements Hne).
  reflexivity.
Qed.

Lemma createRefinements_wellKeyed features ts refinements :
  wellKeyed refinements ->
  wellKeyed (snd (createRefinements isNominal features (ts, refinements))).
Proof.
  intros Hkeys. unfold createRefinements.
  apply (fold_left_invariant (fun a => wellKeyed (snd a))); [|exact Hkeys].
  intros [ts' rs] j Ha. cbn [fst snd] in *.
  unfold createRuleRefinement. cbn [snd].
  intros k rr Hk. destruct (decide (j = k)) as [<-|Hne].
  - rewrite lookup_insert_eq in Hk. injection Hk as <-. reflexivity.
  - rewrite lookup_insert_ne in Hk by exact Hne. apply (Ha k rr Hk).
Qed.

Lemma isBetterThan_tie rf best :
  qualityOfRefinement rf = qualityOfRefinement best -> isBetterThan rf best = false.
Proof. intros H. unfold isBetterThan. rewrite H. apply FloatOrderFacts.flt_irrefl. Qed.

(** C8.  The outcome of a pass of the search does not depend on the order
    in which the tasks of the parallel loop run: whatever the schedule
    [order] of the distinct sampled features, the thresholds subset and the
    refinement objects are the same after the loop, and so is what the
    reduction picks from them.  The reduction itself walks the sampled
    features in their order and keeps the best refinement so far against a
    candidate of equal score. *)
Theorem search_pass_is_schedule_independent
    (ts : ThresholdsSubset) (refinements : gmap Z ExactRuleRefinement)
    (features order : list Z) (best : Refinement) :
  wellKeyed refinements -> NoDup features -> Permutation order features ->
  let created := createRefinements isNominal features (ts, refinements) in
  let scheduled :=
    searchFeatures labelMatrix featureMatrix minCoverage weights statistics currentHead
                   order created in
  let inOrder :=
    searchFeatures labelMatrix featureMatrix minCoverage weights statistics currentHead
                   features created in
  scheduled = inOrder /\
  pickBest features (snd scheduled, best, false) = pickBest features (snd inOrder, best, false) /\
  (forall rs b found j rr rf,
      rs !! j = Some rr -> refinementPtr_ rr = Some rf ->
      qualityOfRefinement rf = qualityOfRefinement b ->
      snd (fst (pickStep (rs, b, found) j)) = b /\ snd (pickStep (rs, b, found) j) = found).
Proof.
  intros Hkeys Hnd Hperm created scheduled inOrder.
  assert (Heq : scheduled = inOrder).
  { subst scheduled inOrder. unfold searchFeatures. symmetry.
    apply (fold_left_permutation (fun a => wellKeyed (snd a))).
    - intros s x Hs. apply searchTask_wellKeyed. exact Hs.
    - intros s x y Hs Hxy. apply searchTask_commute; assumption.
    - symmetry. exact Hperm.
    - exact Hnd.
    - apply createRefinements_wellKeyed. exact Hkeys. }
  split; [exact Heq|]. split; [rewrite Heq; reflexivity|].
  intros rs b found j rr rf Hrr Hrf Htie. unfold pickStep. rewrite Hrr, Hrf.
  rewrite (isBetterThan_tie rf b Htie). split; reflexivity.
Qed.

End ScheduleFacts.

Lemma search_pass_is_schedule_independent_witness :
  let start :=
    startInduction PerfectRule.labelMatrix 6 unit PerfectRule.weights
                   (newStatistics PerfectRule.labelMatrix [7; 7; 7]) tt in
  let created :=
    createRefinements PerfectRule.isNominal [0; 1] (thresholdsSubset start, ∅) in
  searchFeatures PerfectRule.labelMatrix PerfectRule.featureMatrix 0 PerfectRule.weights
                 (liveStatistics start) None [1; 0] created =
  searchFeatures PerfectRule.labelMatrix PerfectRule.featureMatrix 0 PerfectRule.weights
                 (liveStatistics start) None [0; 1] created.
Proof.
  intros start created.
  refine (proj1 (search_pass_is_schedule_independent PerfectRule.labelMatrix
                   PerfectRule.featureMatrix PerfectRule.isNominal 0 PerfectRule.weights
                   (liveStatistics start) None (thresholdsSubset start) ∅ [0; 1] [1; 0]
                   emptyRefinement _ _ _)).
  - intros j rr H. rewrite lookup_empty in H. discriminate H.
  - apply NoDup_cons. split; [|apply NoDup_singleton].
    intros H. apply list_elem_of_singleton in H. discriminate H.
  - apply perm_swap.
Defined.

(** ** How far [adjustSplit] walks *)

Section AdjustSplitWalk.

Variable featureVector : FeatureVector.
Variable ascending : bool.
Variable direction : Z.
Variable threshold' : float.

(** The test of the loop at position [q]. *)
Local Abbreviation adjusts q :=
  (if ascending
   then fle (value (entryAt featureVector q)) threshold'
   else flt threshold' (value (entryAt featureVector q))).

Lemma adjustLoop_walk (steps : nat) (p : Z) :
  (forall j, 0 <= j < Z.of_nat steps -> 0 <= p + j * direction < modulus) ->
  exists k : nat,
    (k <= steps)%nat /\
    adjustLoop featureVector ascending p direction threshold' steps 0 (p - direction) =
      p + (Z.of_nat k - 1) * direction /\
    (forall j, 0 <= j < Z.of_nat k -> adjusts (p + j * direction) = true) /\
    ((k < steps)%nat -> adjusts (p + Z.of_nat k * direction) = false).
Proof.
  revert p. induction steps as [|steps IH]; intros p Hrange.
  - exists 0%nat. cbn. repeat split; try lia.
  - rewrite adjustLoop_step.
    assert (Hp : wrap32 p = p).
    { apply wrap32_small. specialize (Hrange 0).
      replace (p + 0 * direction) with p in Hrange by lia. apply Hrange. lia. }
    rewrite Hp.
    destruct (adjusts p) eqn:E.
    + destruct (IH (p + direction)) as (k & Hk & Hres & Hall & Hstop).
      { intros j Hj. specialize (Hrange (j + 1)).
        replace (p + direction + j * direction) with (p + (j + 1) * direction) by lia.
        apply Hrange. lia. }
      replace (p + direction - direction) with p in Hres by lia.
      exists (S k). split; [lia|]. split; [|split].
      * rewrite Hres. lia.
      * intros j Hj. destruct (Z.eq_dec j 0) as [->|Hj0].
        -- replace (p + 0 * direction) with p by lia. exact E.
        -- specialize (Hall (j - 1) ltac:(lia)).
           replace (p + direction + (j - 1) * direction) with (p + j * direction)
             in Hall by lia.
           exact Hall.
      * intros Hlt. specialize (Hstop ltac:(lia)).
        replace (p + direction + Z.of_nat k * direction)
          with (p + Z.of_nat (S k) * direction) in Hstop by lia.
        exact Hstop.
    + exists 0%nat. split; [lia|]. split; [|split].
      * lia.
      * intros j Hj. lia.
      * intros _. replace (p + Z.of_nat 0 * direction) with p by lia. exact E.
Qed.

End AdjustSplitWalk.

(** X1.  Walking up ([conditionEnd < conditionPrevious]), [adjustSplit]
    returns a position from [conditionEnd] up to, but not including,
    [conditionPrevious]; every position it has passed holds a value that is
    at most the threshold, and the position after it, unless it is
    [conditionPrevious], holds a value that is not. *)
Theorem adjustSplit_walks_up
    (featureVector : FeatureVector) (conditionEnd conditionPrevious : Z) (threshold' : float) :
  getNumElements featureVector < modulus ->
  -1 <= conditionEnd < conditionPrevious ->
  conditionPrevious <= getNumElements featureVector ->
  let adjusted := adjustSplit featureVector conditionEnd conditionPrevious threshold' in
  conditionEnd <= adjusted < conditionPrevious /\
  (forall q, conditionEnd < q <= adjusted ->
             fle (value (entryAt featureVector q)) threshold' = true) /\
  (adjusted + 1 < conditionPrevious ->
   fle (value (entryAt featureVector (adjusted + 1))) threshold' = false).
Proof.
  intros Hlen He Hp adjusted. subst adjusted. unfold adjustSplit.
  assert (E : (conditionEnd <? conditionPrevious) = true) by (apply Z.ltb_lt; lia).
  rewrite E. unfold modulus in Hlen.
  set (n := Z.to_nat (wrap32 (Z.abs (conditionEnd + 1 - conditionPrevious)))).
  assert (Hn : Z.of_nat n = conditionPrevious - conditionEnd - 1).
  { subst n. rewrite wrap32_small by (unfold modulus; lia). lia. }
  destruct (adjustLoop_walk featureVector true 1 threshold' n (conditionEnd + 1))
    as (k & Hk & Hres & Hall & Hstop).
  { intros j Hj. unfold modulus. lia. }
  replace (conditionEnd + 1 - 1) with conditionEnd in Hres by lia.
  rewrite Hres. split; [lia|]. split.
  - intros q Hq. specialize (Hall (q - conditionEnd - 1) ltac:(lia)).
    replace (conditionEnd + 1 + (q - conditionEnd - 1) * 1) with q in Hall by lia.
    exact Hall.
  - intros Hnext. specialize (Hstop ltac:(lia)).
    replace (conditionEnd + 1 + Z.of_nat k * 1)
      with (conditionEnd + 1 + (Z.of_nat k - 1) * 1 + 1) in Hstop by lia.
    exact Hstop.
Qed.

Lemma adjustSplit_walks_up_witness :
  let adjusted := adjustSplit SortedValues.featureVector 0 4 0.75 in
  0 <= adjusted < 4 /\
  (forall q, 0 < q <= adjusted ->
             fle (value (entryAt SortedValues.featureVector q)) 0.75 = true) /\
  (adjusted + 1 < 4 ->
   fle (value (entryAt SortedValues.featureVector (adjusted + 1))) 0.75 = false).
Proof.
  apply (adjustSplit_walks_up SortedValues.featureVector 0 4 0.75).
  - reflexivity.
  - lia.
  - unfold getNumElements. simpl. lia.
Defined.

(** X2.  Walking down ([conditionPrevious < conditionEnd]), [adjustSplit]
    returns a position from [conditionEnd] down to, but not including,
    [conditionPrevious]; every position it has passed holds a value above
    the threshold, and the position before it, unless it is
    [conditionPrevious], holds a value that is not. *)
Theorem adjustSplit_walks_down
    (featureVector : FeatureVector) (conditionEnd conditionPrevious : Z) (threshold' : float) :
  getNumElements featureVector < modulus ->
  -1 <= conditionPrevious < conditionEnd ->
  conditionEnd <= getNumElements featureVector ->
  let adjusted := adjustSplit featureVector conditionEnd conditionPrevious threshold' in
  conditionPrevious < adjusted <= conditionEnd /\
  (forall q, adjusted <= q < conditionEnd ->
             flt threshold' (value (entryAt featureVector q)) = true) /\
  (conditionPrevious < adjusted - 1 ->
   flt threshold' (value (entryAt featureVector (adjusted - 1))) = false).
Proof.
  intros Hlen Hp He adjusted. subst adjusted. unfold adjustSplit.
  assert (E : (conditionEnd <? conditionPrevious) = false) by (apply Z.ltb_ge; lia).
  rewrite E. unfold modulus in Hlen.
  set (n := Z.to_nat (wrap32 (Z.abs (conditionEnd + -1 - conditionPrevious)))).
  assert (Hn : Z.of_nat n = conditionEnd - conditionPrevious - 1).
  { subst n. rewrite wrap32_small by (unfold modulus; lia). lia. }
  destruct (adjustLoop_walk featureVector false (-1) threshold' n (conditionEnd + -1))
    as (k & Hk & Hres & Hall & Hstop).
  { intros j Hj. unfold modulus. lia. }
  replace (conditionEnd + -1 - -1) with conditionEnd in Hres by lia.
  rewrite Hres. split; [lia|]. split.
  - intros q Hq. specialize (Hall (conditionEnd - 1 - q) ltac:(lia)).
    replace (conditionEnd + -1 + (conditionEnd - 1 - q) * -1) with q in Hall by lia.
    exact Hall.
  - intros Hnext. specialize (Hstop ltac:(lia)).
    replace (conditionEnd + -1 + Z.of_nat k * -1)
      with (conditionEnd + -1 + (Z.of_nat k - 1) * -1 - 1) in Hstop by lia.
    exact Hstop.
Qed.

Lemma adjustSplit_walks_down_witness :
  let adjusted := adjustSplit SortedValues.featureVector 4 0 0.75 in
  0 < adjusted <= 4 /\
  (forall q, adjusted <= q < 4 ->
             flt 0.75 (value (entryAt SortedValues.featureVector q)) = true) /\
  (0 < adjusted - 1 ->
   flt 0.75 (value (entryAt SortedValues.featureVector (adjusted - 1))) = false).
Proof.
  apply (adjustSplit_walks_down SortedValues.featureVector 4 0 0.75).
  - reflexivity.
  - lia.
  - unfold getNumElements. simpl. lia.
Defined.

(** ** The test of the stopping criteria *)

Section StoppingFacts.

Variable statistics : Statistics.
Variable numRules' : Z.

Local Abbreviation answer c := (action (c statistics numRules')).

Lemma testStoppingCriteriaFrom_cases (criteria : list StoppingCriterion) (r0 : StoppingResult) :
  let result := testStoppingCriteriaFrom criteria statistics numRules' r0 in
  (exists before c after,
      criteria = before ++ c :: after /\ answer c = FORCE_STOP /\
      Forall (fun c' => answer c' <> FORCE_STOP) before /\
      result = {| action := FORCE_STOP;
                  numRulesToUse := numRulesToUse (c statistics numRules') |})
  \/ (Forall (fun c' => answer c' <> FORCE_STOP) criteria /\
      exists before c after,
        criteria = before ++ c :: after /\ answer c = STORE_STOP /\
        Forall (fun c' => answer c' = CONTINUE) after /\
        result = {| action := STORE_STOP;
                    numRulesToUse := numRulesToUse (c statistics numRules') |})
  \/ (Forall (fun c' => answer c' = CONTINUE) criteria /\ result = r0).
Proof.
  revert r0. induction criteria as [|c rest IH]; intros r0; cbn zeta.
  - right. right. split; [constructor | reflexivity].
  - cbn [testStoppingCriteriaFrom].
    destruct (answer c) eqn:E.
    + (* CONTINUE *)
      destruct (IH r0) as [(b & c' & a & -> & Hc & Hb & Hr) | [(Hnf & b & c' & a & -> & Hc & Ha & Hr)
                                                           | (Hall & Hr)]].
      * left. exists (c :: b), c', a. repeat split; try assumption.
        constructor; [congruence | exact Hb].
      * right. left. split; [constructor; [congruence | exact Hnf]|].
        exists (c :: b), c', a. repeat split; assumption.
      * right. right. split; [constructor; assumption | exact Hr].
    + (* STORE_STOP *)
      destruct (IH {| action := STORE_STOP;
                      numRulesToUse := numRulesToUse (c statistics numRules') |})
        as [(b & c' & a & -> & Hc & Hb & Hr) | [(Hnf & b & c' & a & -> & Hc & Ha & Hr)
                                              | (Hall & Hr)]].
      * left. exists (c :: b), c', a. repeat split; try assumption.
        constructor; [congruence | exact Hb].
      * right. left. split; [constructor; [congruence | exact Hnf]|].
        exists (c :: b), c', a. repeat split; assumption.
      * right. left. split.
        -- constructor; [congruence|].
           eapply Forall_impl; [exact Hall|]. cbn. intros x Hx. congruence.
        -- exists [], c, rest. repeat split; assumption.
    + (* FORCE_STOP *)
      left. exists [], c, rest. repeat split; [assumption | constructor].
Qed.

(** X3.  [testStoppingCriteria] asks the criteria in their order.  The
    first one that answers FORCE_STOP ends the test, and its answer is
    the result; when none does, the result is the answer of the last one
    that answers STORE_STOP; when none does either, the action is
    CONTINUE. *)
Theorem testStoppingCriteria_cases (criteria : list StoppingCriterion) :
  let result := testStoppingCriteria criteria statistics numRules' in
  (exists before c after,
      criteria = before ++ c :: after /\ answer c = FORCE_STOP /\
      Forall (fun c' => answer c' <> FORCE_STOP) before /\
      action result = FORCE_STOP /\
      numRulesToUse result = numRulesToUse (c statistics numRules'))
  \/ (Forall (fun c' => answer c' <> FORCE_STOP) criteria /\
      exists before c after,
        criteria = before ++ c :: after /\ answer c = STORE_STOP /\
        Forall (fun c' => answer c' = CONTINUE) after /\
        action result = STORE_STOP /\
        numRulesToUse result = numRulesToUse (c statistics numRules'))
  \/ (Forall (fun c' => answer c' = CONTINUE) criteria /\ action result = CONTINUE).
Proof.
  cbn zeta. unfold testStoppingCriteria.
  destruct (testStoppingCriteriaFrom_cases criteria {| action := CONTINUE; numRulesToUse := 0 |})
    as [(b & c & a & Hs & Hc & Hb & Hr) | [(Hnf & b & c & a & Hs & Hc & Ha & Hr) | (Hall & Hr)]].
  - left. exists b, c, a. rewrite Hr. repeat split; assumption.
  - right. left. split; [exact Hnf|]. exists b, c, a. rewrite Hr. repeat split; assumption.
  - right. right. split; [exact Hall|]. rewrite Hr. reflexivity.
Qed.

End StoppingFacts.

(** ** The bookkeeping of the driver *)

Section DriverBookkeeping.

Variable labelMatrix : LabelMatrix.
Variable numRows : Z.
Variable featureMatrix : Z -> FeatureVector.
Variable isNominal : Z -> bool.
Variable Rng : Type.
Variable subSampleFeatures : Rng -> list Z * Rng.
Variable subSampleInstances : Rng -> list Z * Rng.
Variable minCoverage : Z.
Variable maxConditions_ : Z.
Variable stoppingCriteria : list StoppingCriterion.

Local Abbreviation pass :=
  (driveOnce labelMatrix numRows featureMatrix isNominal Rng subSampleFeatures
             subSampleInstances minCoverage maxConditions_ stoppingCriteria).

Local Abbreviation passes :=
  (driveLoop labelMatrix numRows featureMatrix isNominal Rng subSampleFeatures
             subSampleInstances minCoverage maxConditions_ stoppingCriteria).

Lemma driveLoop_invariant (P : Driver Rng -> Prop) (fuel : nat) :
  (forall d, P d -> P (fst (pass fuel d))) ->
  forall rounds d, P d -> P (fst (passes rounds fuel d)).
Proof.
  intros Hstep. induction rounds as [|rounds IH]; intros d Hd; [exact Hd|].
  cbn [driveLoop]. specialize (Hstep d Hd).
  destruct (pass fuel d) as [d' [| |]]; cbn [fst] in *;
    [apply IH; exact Hstep | exact Hstep | exact Hstep].
Qed.

(** What a pass does to the driver, whatever the stopping criteria say:
    either the driver keeps its rules, visits and predictions, or one rule
    is added, its predictions are visited and the number of rules is
    incremented. *)
Lemma driveOnce_cases (fuel : nat) (d : Driver Rng) :
  let d' := fst (pass fuel d) in
  (numRules d' = numRules d /\ modelBuilder d' = modelBuilder d /\
   visited d' = visited d /\
   predictionVector (driverStatistics d') = predictionVector (driverStatistics d))
  \/
  (numRules d' = add (numRules d) 1 /\
   (exists rule, modelBuilder d' = modelBuilder d ++ [rule]) /\
   visited d' = visited d ++ [predictionVector (driverStatistics d')]).
Proof.
  cbn zeta. unfold driveOnce.
  set (test := testStoppingCriteria stoppingCriteria (driverStatistics d) (numRules d)).
  assert (Hbody : forall numUsedRules',
    let d' :=
      fst (let '(weights, rng1) := subSampleInstances (driverRng d) in
           match induceRule labelMatrix numRows featureMatrix isNominal Rng
                            subSampleFeatures minCoverage maxConditions_ weights fuel
                            (driverStatistics d) rng1 (modelBuilder d)
                            (currentQuality d) with
           | None => (d, Starved)
           | Some result =>
               if success result then
                 ({| numRules := add (numRules d) 1;
                     numUsedRules := numUsedRules';
                     currentQuality := quality result;
                     driverStatistics := statisticsAfter result;
                     modelBuilder := modelAfter result;
                     visited := visited d ++ [getPredictions (statisticsAfter result)];
                     driverRng := rngAfter result |},
                  Running)
               else
                 ({| numRules := numRules d;
                     numUsedRules := numUsedRules';
                     currentQuality := quality result;
                     driverStatistics := statisticsAfter result;
                     modelBuilder := modelAfter result;
                     visited := visited d;
                     driverRng := rngAfter result |},
                  Stopped)
           end) in
    (numRules d' = numRules d /\ modelBuilder d' = modelBuilder d /\
     visited d' = visited d /\
     predictionVector (driverStatistics d') = predictionVector (driverStatistics d))
    \/
    (numRules d' = add (numRules d) 1 /\
     (exists rule, modelBuilder d' = modelBuilder d ++ [rule]) /\
     visited d' = visited d ++ [predictionVector (driverStatistics d')])).
  { intros numUsedRules'. cbn zeta.
    destruct (subSampleInstances (driverRng d)) as [weights rng1].
    unfold induceRule.
    destruct (refineLoop _ _ _ _ _ _ _ _ _ _) as [s|] eqn:Eloop; cbn [fst].
    - pose proof (refineLoop_committed _ _ _ _ _ _ _ _ _ _ _ Eloop) as [_ Hpred].
      unfold startInduction in Hpred.
      pose proof (createSubset_committed labelMatrix numRows weights (driverStatistics d))
        as [_ Hpred0].
      destruct (createSubset labelMatrix numRows weights (driverStatistics d))
        as [ts0 st0] eqn:Ecs.
      cbn [liveStatistics snd] in Hpred, Hpred0.
      destruct (conclude_cases labelMatrix Rng (modelBuilder d) (currentQuality d) s)
        as [(Hs & h & _ & _ & _ & Hm & _) | (Hs & _ & Hm & Hst & _)];
        rewrite Hs; cbn [fst numRules modelBuilder visited driverStatistics].
      + right. split; [reflexivity|]. split; [eauto|]. reflexivity.
      + left. repeat split; [exact Hm|]. rewrite Hst. congruence.
    - left. repeat split. }
  destruct (action test).
  - apply Hbody.
  - apply Hbody.
  - cbn [fst]. left. repeat split.
Qed.

(** X4.  However many passes the driver makes, and however they end, the
    prediction visitor has been called once for every rule that was added
    to the model, the number of rules is the number of rules of the model
    (plus one when a default rule is counted), and the predictions that
    were visited last are the predictions the statistics hold at the
    end. *)
Theorem driver_visits_one_prediction_per_rule
    (rounds fuel : nat) (hasDefaultRule : bool) (uninitialised : list Z) (rng : Rng) :
  let d := fst (induceRules labelMatrix numRows featureMatrix isNominal Rng
                            subSampleFeatures subSampleInstances minCoverage
                            maxConditions_ stoppingCriteria rounds fuel hasDefaultRule
                            uninitialised rng) in
  length (visited d) = length (modelBuilder d) /\
  numRules d = wrap32 ((if hasDefaultRule then 1 else 0) + Z.of_nat (length (modelBuilder d))) /\
  (visited d = [] \/ last (visited d) = Some (predictionVector (driverStatistics d))).
Proof.
  cbn zeta. unfold induceRules.
  apply (driveLoop_invariant
           (fun d => length (visited d) = length (modelBuilder d) /\
                     numRules d = wrap32 ((if hasDefaultRule then 1 else 0)
                                          + Z.of_nat (length (modelBuilder d))) /\
                     (visited d = [] \/
                      last (visited d) = Some (predictionVector (driverStatistics d))))).
  - intros d (Hlen & Hnum & Hlast).
    destruct (driveOnce_cases fuel d) as [(Hn & Hm & Hv & Hp) | (Hn & (rule & Hm) & Hv)].
    + rewrite Hn, Hm, Hv, Hp. repeat split; assumption.
    + rewrite Hn, Hm, Hv. rewrite !length_app. cbn [length]. split; [lia|]. split.
      * rewrite Hnum. unfold add, wrap32. rewrite Zplus_mod_idemp_l. f_equal. lia.
      * right. apply last_snoc.
  - cbn. split; [reflexivity|]. split; [|left; reflexivity].
    destruct hasDefaultRule; reflexivity.
Qed.

(** X5.  The number of rules to be used is stored once: as soon as it is
    not zero, no pass of the driver changes it, whatever the stopping
    criteria answer later. *)
Theorem driver_keeps_stored_number_of_used_rules
    (rounds fuel : nat) (d : Driver Rng) :
  numUsedRules d <> 0 ->
  numUsedRules (fst (passes rounds fuel d)) = numUsedRules d.
Proof.
  intros Hd.
  apply (driveLoop_invariant (fun d' => numUsedRules d' = numUsedRules d)); [|reflexivity].
  clear rounds. intros d' Hd'. unfold driveOnce.
  assert (Hz : (numUsedRules d' =? 0) = false) by (apply Z.eqb_neq; congruence).
  destruct (action _); cbn zeta; rewrite ?Hz;
    try (destruct (subSampleInstances (driverRng d')) as [weights rng1];
         destruct (induceRule _ _ _ _ _ _ _ _ _ _ _ _ _ _) as [result|]; cbn [fst];
         [destruct (success result); cbn [fst numUsedRules]; exact Hd' | exact Hd']).
  exact Hd'.
Qed.

End DriverBookkeeping.

Lemma driver_keeps_stored_number_of_used_rules_witness :
  let d := {| numRules := 3; numUsedRules := 2; currentQuality := 0;
              driverStatistics := newStatistics PerfectRule.labelMatrix [0; 0; 0];
              modelBuilder := []; visited := []; driverRng := tt |} in
  numUsedRules
    (fst (driveLoop PerfectRule.labelMatrix 6 PerfectRule.featureMatrix PerfectRule.isNominal
                    unit PerfectRule.subSampleFeatures (fun rng => (PerfectRule.weights, rng))
                    1 (-1) [fun _ _ => {| action := STORE_STOP; numRulesToUse := 7 |}]
                    2 5 d)) = numUsedRules d.
Proof.
  intros d.
  apply (driver_keeps_stored_number_of_used_rules
           PerfectRule.labelMatrix 6 PerfectRule.featureMatrix PerfectRule.isNominal unit
           PerfectRule.subSampleFeatures (fun rng => (PerfectRule.weights, rng)) 1 (-1)
           [fun _ _ => {| action := STORE_STOP; numRulesToUse := 7 |}] 2 5 d).
  cbn. lia.
Defined.

(** ** What the refinement search keeps

    A property of the search state that survives every update of the
    statistics subset, and every call of [findHead] for a candidate that
    has passed the test against [minCoverage] and that writes its
    condition with [setCondition], holds after the four phases if it
    holds before them. *)

Section SweepInvariant.

Variable labelMatrix : LabelMatrix.
Variable statistics : Statistics.
Variable weights : list Z.
Variable featureVector : FeatureVector.
Variable numExamples_ : Z.
Variable nominal_ : bool.
Variable minCoverage : Z.

Variable Q : Search -> Prop.

Hypothesis Q_onSubset : forall f s, Q s -> Q (onSubset f s).

Hypothesis Q_tryHead :
  forall n uncovered accumulated first last previous' covered' comparator' threshold' s,
    minCoverage <= n -> Q s ->
    Q (tryHead labelMatrix n uncovered accumulated
               (setCondition first last previous' n covered' comparator' threshold') s).

Local Abbreviation keeps w := (Q (search w)).

Lemma guarded_keeps (extra : bool) n uncovered accumulated update w :
  (exists first last previous' covered' comparator' threshold',
      update = setCondition first last previous' n covered' comparator' threshold') ->
  keeps w ->
  keeps (if (minCoverage <=? n) && extra
         then onSearch (tryHead labelMatrix n uncovered accumulated update) w
         else w).
Proof.
  intros Hupd Hw. destruct (minCoverage <=? n) eqn:E; cbn [andb]; [|exact Hw].
  destruct extra; [|exact Hw]. cbn [onSearch search].
  destruct Hupd as (a & b & c & d & e & f & ->).
  apply Q_tryHead; [apply Z.leb_le; exact E | exact Hw].
Qed.

Lemma guarded_keeps' n uncovered accumulated update w :
  (exists first last previous' covered' comparator' threshold',
      update = setCondition first last previous' n covered' comparator' threshold') ->
  keeps w ->
  keeps (if minCoverage <=? n
         then onSearch (tryHead labelMatrix n uncovered accumulated update) w
         else w).
Proof.
  intros Hupd Hw.
  pose proof (guarded_keeps true n uncovered accumulated update w Hupd Hw) as H.
  rewrite andb_true_r in H. exact H.
Qed.

Local Ltac written :=
  repeat match goal with
         | |- context [if ?b then setCondition _ _ _ _ _ _ _ else _] => destruct b
         end;
  do 6 eexists; reflexivity.

Lemma restartGroup_keeps r' w : keeps w -> keeps (restartGroup statistics r' w).
Proof. intros H. cbn [restartGroup search]. apply Q_onSubset. exact H. Qed.

Lemma takeFirst_keeps r' w :
  keeps w -> keeps (takeFirst labelMatrix statistics weights featureVector r' w).
Proof. intros H. cbn [takeFirst search]. apply Q_onSubset. exact H. Qed.

Lemma takeNext_keeps r' w :
  keeps w -> keeps (takeNext labelMatrix statistics weights featureVector r' w).
Proof. intros H. cbn [takeNext search]. apply Q_onSubset. exact H. Qed.

Lemma splitAscending_keeps r' currentThreshold w :
  keeps w ->
  keeps (splitAscending labelMatrix statistics numExamples_ nominal_ minCoverage r'
                        currentThreshold w).
Proof.
  intros Hw. unfold splitAscending.
  match goal with
  | |- context [if nominal_ then restartGroup _ _ ?w2 else ?w2] =>
      assert (H2 : keeps w2)
  end.
  { apply guarded_keeps; [written|]. apply guarded_keeps; [written|]. exact Hw. }
  destruct nominal_; [apply restartGroup_keeps|]; exact H2.
Qed.

Lemma splitDescending_keeps r' currentThreshold w :
  keeps w ->
  keeps (splitDescending labelMatrix statistics numExamples_ nominal_ minCoverage r'
                         currentThreshold w).
Proof.
  intros Hw. unfold splitDescending.
  match goal with
  | |- context [if nominal_ then restartGroup _ _ ?w2 else ?w2] =>
      assert (H2 : keeps w2)
  end.
  { apply guarded_keeps; [written|]. apply guarded_keeps'; [written|]. exact Hw. }
  destruct nominal_; [apply restartGroup_keeps|]; exact H2.
Qed.

Lemma firstNegative_keeps fuel r' w :
  keeps w -> keeps (firstNegative labelMatrix statistics weights featureVector fuel r' w).
Proof.
  revert r' w. induction fuel as [|fuel IH]; intros r' w Hw; [exact Hw|].
  cbn [firstNegative].
  destruct (r' <? getNumElements featureVector); [|exact Hw].
  destruct (fle 0 (value (entryAt featureVector r'))); [exact Hw|].
  destruct (0 <? getWeight weights (index (entryAt featureVector r'))).
  - apply takeFirst_keeps. exact Hw.
  - apply IH. exact Hw.
Qed.

Lemma restNegative_keeps fuel r' w :
  keeps w ->
  keeps (restNegative labelMatrix statistics weights featureVector numExamples_ nominal_
                      minCoverage fuel r' w).
Proof.
  revert r' w. induction fuel as [|fuel IH]; intros r' w Hw; [exact Hw|].
  cbn [restNegative].
  destruct (r' <? getNumElements featureVector); [|exact Hw].
  destruct (fle 0 (value (entryAt featureVector r'))); [exact Hw|].
  destruct (0 <? getWeight weights (index (entryAt featureVector r'))).
  - apply IH. apply takeNext_keeps.
    destruct (negb _); [apply splitAscending_keeps|]; exact Hw.
  - apply IH. exact Hw.
Qed.

Lemma lastGroupNegative_keeps w :
  keeps w -> keeps (lastGroupNegative labelMatrix numExamples_ nominal_ minCoverage w).
Proof.
  intros Hw. unfold lastGroupNegative.
  destruct (_ && _ && _); [|exact Hw].
  apply guarded_keeps; [written|]. apply guarded_keeps'; [written|]. exact Hw.
Qed.

Lemma sweepNegative_keeps w :
  keeps w ->
  keeps (sweepNegative labelMatrix statistics weights featureVector numExamples_ nominal_
                       minCoverage w).
Proof.
  intros Hw. unfold sweepNegative.
  pose proof (firstNegative_keeps (length (entries featureVector)) 0 w Hw) as H1.
  cbn zeta. cbn [numExamples r].
  destruct (0 <? numExamples _); [|exact H1].
  cbn [onSearch search]. apply Q_onSubset.
  apply (lastGroupNegative_keeps
           (restNegative labelMatrix statistics weights featureVector numExamples_
              nominal_ minCoverage _ _ _)).
  apply restNegative_keeps. exact H1.
Qed.

Lemma firstNonNegative_keeps fuel r' w :
  keeps w -> keeps (firstNonNegative labelMatrix statistics weights featureVector fuel r' w).
Proof.
  revert r' w. induction fuel as [|fuel IH]; intros r' w Hw; [exact Hw|].
  cbn [firstNonNegative].
  destruct (lastNegativeR w <? r'); [|exact Hw].
  destruct (0 <? getWeight weights (index (entryAt featureVector r'))).
  - apply takeFirst_keeps. exact Hw.
  - apply IH. exact Hw.
Qed.

Lemma restNonNegative_keeps fuel r' w :
  keeps w ->
  keeps (restNonNegative labelMatrix statistics weights featureVector numExamples_ nominal_
                         minCoverage fuel r' w).
Proof.
  revert r' w. induction fuel as [|fuel IH]; intros r' w Hw; [exact Hw|].
  cbn [restNonNegative].
  destruct (lastNegativeR w <? r'); [|exact Hw].
  destruct (0 <? getWeight weights (index (entryAt featureVector r'))).
  - apply IH. apply takeNext_keeps.
    destruct (negb _); [apply splitDescending_keeps|]; exact Hw.
  - apply IH. exact Hw.
Qed.

Lemma lastGroupNonNegative_keeps w :
  keeps w -> keeps (lastGroupNonNegative labelMatrix numExamples_ nominal_ minCoverage w).
Proof.
  intros Hw. unfold lastGroupNonNegative.
  destruct (_ && _ && _); [|exact Hw].
  apply guarded_keeps; [written|]. apply guarded_keeps'; [written|]. exact Hw.
Qed.

Lemma sweepNonNegative_keeps w :
  keeps w ->
  keeps (sweepNonNegative labelMatrix statistics weights featureVector numExamples_ nominal_
                          minCoverage w).
Proof.
  intros Hw. unfold sweepNonNegative. cbn zeta.
  apply lastGroupNonNegative_keeps.
  pose proof (firstNonNegative_keeps (length (entries featureVector))
                (firstR (startDescending featureVector w))
                (startDescending featureVector w) Hw) as H1.
  cbn [numExamples r].
  destruct (0 <? numExamples _); [|exact H1].
  apply restNonNegative_keeps. exact H1.
Qed.

Lemma sparseBridge_keeps total w :
  keeps w ->
  keeps (sparseBridge labelMatrix statistics featureVector numExamples_ nominal_ minCoverage
                      total w).
Proof.
  intros Hw. unfold sparseBridge.
  destruct (_ && _); [|exact Hw]. cbn zeta.
  apply guarded_keeps; [written|]. apply guarded_keeps; [written|].
  destruct nominal_; [cbn [search]; apply Q_onSubset|]; exact Hw.
Qed.

Lemma negativeBridge_keeps thresholdNegative rNegative accNegative total w :
  keeps w ->
  keeps (negativeBridge labelMatrix numExamples_ nominal_ minCoverage thresholdNegative
                        rNegative accNegative total w).
Proof.
  intros Hw. unfold negativeBridge.
  destruct (_ && _ && _); [|exact Hw]. cbn zeta.
  apply guarded_keeps'; [written|]. apply guarded_keeps; [written|]. exact Hw.
Qed.

Lemma runSweeps_keeps (featureIndex' : Z) (currentHead : option Head.t) :
  keeps (initialSweep labelMatrix statistics weights featureVector featureIndex' currentHead) ->
  keeps (runSweeps labelMatrix statistics weights featureVector numExamples_ nominal_
                   minCoverage featureIndex' currentHead).
Proof.
  intros H. unfold runSweeps. cbn zeta.
  apply negativeBridge_keeps, sparseBridge_keeps, sweepNonNegative_keeps,
    sweepNegative_keeps.
  exact H.
Qed.

End SweepInvariant.

Lemma runSweeps_featureIndex
    (labelMatrix : LabelMatrix) (statistics : Statistics) (weights : list Z)
    (featureVector : FeatureVector) (numExamples_ : Z) (nominal_ : bool) (minCoverage : Z)
    (featureIndex' : Z) (currentHead : option Head.t) :
  featureIndex (refinement (search (runSweeps labelMatrix statistics weights featureVector
                                              numExamples_ nominal_ minCoverage
                                              featureIndex' currentHead)))
  = featureIndex'.
Proof.
  apply (runSweeps_keeps labelMatrix statistics weights featureVector numExamples_ nominal_
           minCoverage (fun s => featureIndex (refinement s) = featureIndex')).
  - intros f s H. exact H.
  - intros n u a first last previous' covered' comparator' threshold' s _ H.
    unfold tryHead. destruct (findHead _ _ _ _ _ _) as [[h|] hp]; cbn; exact H.
  - reflexivity.
Qed.

(** X6.  The refinement [findRefinement] returns carries the index of the
    feature it was searched for, whatever the feature vector holds and
    whichever candidates were accepted. *)
Theorem findRefinement_keeps_feature_index
    (labelMatrix : LabelMatrix) (statistics : Statistics) (weights : list Z)
    (featureVector : FeatureVector) (numExamples_ : Z) (nominal_ : bool) (minCoverage : Z)
    (featureIndex' : Z) (currentHead : option Head.t) :
  featureIndex (findRefinement labelMatrix statistics weights featureVector numExamples_
                               nominal_ minCoverage featureIndex' currentHead)
  = featureIndex'.
Proof. unfold findRefinement. cbn [featureIndex]. apply runSweeps_featureIndex. Qed.

(** X7.  The condition of the refinement [findRefinement] returns was
    written for a candidate that had passed the test against
    [minCoverage]: its [numCovered] is at least [minCoverage], unless no
    candidate was accepted at all and the refinement is still the one the
    search started with. *)
Theorem findRefinement_condition_reaches_min_coverage
    (labelMatrix : LabelMatrix) (statistics : Statistics) (weights : list Z)
    (featureVector : FeatureVector) (numExamples_ : Z) (nominal_ : bool) (minCoverage : Z)
    (featureIndex' : Z) (currentHead : option Head.t) :
  refinement (search (runSweeps labelMatrix statistics weights featureVector numExamples_
                                nominal_ minCoverage featureIndex' currentHead))
  = refinement (search (initialSweep labelMatrix statistics weights featureVector
                                     featureIndex' currentHead))
  \/ minCoverage <= numCovered (findRefinement labelMatrix statistics weights featureVector
                                               numExamples_ nominal_ minCoverage
                                               featureIndex' currentHead).
Proof.
  unfold findRefinement. cbn [numCovered].
  set (initial := refinement (search (initialSweep labelMatrix statistics weights
                                                   featureVector featureIndex' currentHead))).
  apply (runSweeps_keeps labelMatrix statistics weights featureVector numExamples_ nominal_
           minCoverage
           (fun s => refinement s = initial \/ minCoverage <= numCovered (refinement s))).
  - intros f s H. exact H.
  - intros n u a first last previous' covered' comparator' threshold' s Hn H.
    unfold tryHead. destruct (findHead _ _ _ _ _ _) as [[h|] hp]; cbn [refinement].
    + right. exact Hn.
    + exact H.
  - left. reflexivity.
Qed.

(** ** A feature without an example of the sample *)

Section IdleSearch.

Variable labelMatrix : LabelMatrix.
Variable statistics : Statistics.
Variable weights : list Z.
Variable featureVector : FeatureVector.
Variable numExamples_ : Z.
Variable nominal_ : bool.
Variable minCoverage : Z.

Hypothesis outside :
  forall r', 0 <= r' < getNumElements featureVector ->
             getWeight weights (index (entryAt featureVector r')) <= 0.

Lemma firstNegative_idle fuel r' w :
  0 <= r' -> -1 <= lastNegativeR w ->
  let w' := firstNegative labelMatrix statistics weights featureVector fuel r' w in
  search w' = search w /\ numExamples w' = numExamples w /\ -1 <= lastNegativeR w'.
Proof.
  revert r' w. induction fuel as [|fuel IH]; intros r' w Hr Hl; cbn zeta.
  - cbn. repeat split; assumption.
  - cbn [firstNegative].
    destruct (r' <? getNumElements featureVector) eqn:E; [|cbn; repeat split; assumption].
    apply Z.ltb_lt in E.
    destruct (fle 0 (value (entryAt featureVector r'))); [cbn; repeat split; assumption|].
    assert (Hw : (0 <? getWeight weights (index (entryAt featureVector r'))) = false).
    { apply Z.ltb_ge. apply outside. lia. }
    rewrite Hw.
    destruct (IH (r' + 1) (setLastNegativeR r' w) ltac:(lia) ltac:(cbn; lia))
      as (H1 & H2 & H3).
    repeat split; assumption.
Qed.

Lemma firstNonNegative_idle fuel r' w :
  r' < getNumElements featureVector -> -1 <= lastNegativeR w ->
  let w' := firstNonNegative labelMatrix statistics weights featureVector fuel r' w in
  search w' = search w /\ numExamples w' = numExamples w.
Proof.
  revert r' w. induction fuel as [|fuel IH]; intros r' w Hr Hl; cbn zeta.
  - cbn. split; reflexivity.
  - cbn [firstNonNegative].
    destruct (lastNegativeR w <? r') eqn:E; [|cbn; split; reflexivity].
    apply Z.ltb_lt in E.
    assert (Hw : (0 <? getWeight weights (index (entryAt featureVector r'))) = false).
    { apply Z.ltb_ge. apply outside. lia. }
    rewrite Hw. apply IH; [lia | exact Hl].
Qed.

Lemma runSweeps_idle (featureIndex' : Z) (currentHead : option Head.t) :
  search (runSweeps labelMatrix statistics weights featureVector numExamples_ nominal_
                    minCoverage featureIndex' currentHead)
  = search (initialSweep labelMatrix statistics weights featureVector featureIndex'
                         currentHead).
Proof.
  unfold runSweeps. cbn zeta.
  set (w0 := initialSweep labelMatrix statistics weights featureVector featureIndex'
                          currentHead).
  (* the values < 0 *)
  assert (Hneg :
    let w1 := sweepNegative labelMatrix statistics weights featureVector numExamples_
                            nominal_ minCoverage w0 in
    search w1 = search w0 /\ accumulatedNumExamples w1 = 0 /\ -1 <= lastNegativeR w1).
  { cbn zeta. unfold sweepNegative. cbn zeta.
    destruct (firstNegative_idle (length (entries featureVector)) 0 w0 ltac:(lia)
                ltac:(cbn; lia)) as (H1 & H2 & H3).
    cbn [numExamples]. rewrite H2. cbn [w0 initialSweep numExamples]. cbn.
    repeat split; [exact H1 | exact H3]. }
  cbn zeta in Hneg. destruct Hneg as (Hs1 & Ha1 & Hl1).
  set (w1 := sweepNegative labelMatrix statistics weights featureVector numExamples_
                           nominal_ minCoverage w0) in *.
  (* the other values *)
  assert (Hpos :
    let w2 := sweepNonNegative labelMatrix statistics weights featureVector numExamples_
                               nominal_ minCoverage w1 in
    search w2 = search w1 /\ accumulatedNumExamples w2 = 0).
  { cbn zeta. unfold sweepNonNegative. cbn zeta.
    destruct (firstNonNegative_idle (length (entries featureVector))
                (firstR (startDescending featureVector w1))
                (startDescending featureVector w1)
                ltac:(cbn; unfold getNumElements; lia) ltac:(cbn; exact Hl1))
      as (H1 & H2).
    cbn [numExamples r]. rewrite H2. cbn [startDescending numExamples].
    change (0 <? 0) with false. cbn iota. unfold lastGroupNonNegative.
    cbn [numExamples]. rewrite ?H2. cbn [startDescending numExamples].
    change (0 <? 0) with false. rewrite andb_false_r. cbn.
    split; [exact H1 | reflexivity]. }
  cbn zeta in Hpos. destruct Hpos as (Hs2 & Ha2).
  set (w2 := sweepNonNegative labelMatrix statistics weights featureVector numExamples_
                              nominal_ minCoverage w1) in *.
  rewrite Ha1, Ha2.
  change (add 0 0) with 0.
  unfold sparseBridge. change (0 <? 0) with false. cbn [andb].
  unfold negativeBridge. change (0 <? 0) with false.
  rewrite andb_false_r. cbn [andb]. congruence.
Qed.

(** X8.  When no example that the feature vector lists has a positive
    weight (none of them belongs to the sample; in particular when the
    vector is empty), [findRefinement] asks for no head at all: no
    candidate is evaluated and the refinement comes back without a
    head. *)
Theorem findRefinement_without_sampled_examples
    (featureIndex' : Z) (currentHead : option Head.t) :
  evaluatedCandidates labelMatrix statistics weights featureVector numExamples_ nominal_
                      minCoverage featureIndex' currentHead = []
  /\ headPtr (findRefinement labelMatrix statistics weights featureVector numExamples_
                             nominal_ minCoverage featureIndex' currentHead) = None.
Proof.
  unfold evaluatedCandidates, findRefinement. cbn [headPtr].
  rewrite runSweeps_idle. split; reflexivity.
Qed.

End IdleSearch.

Lemma findRefinement_without_sampled_examples_witness :
  let featureVector :=
    {| entries := [ {| value := 1; index := 1 |} ]; missingIndices := [] |} in
  evaluatedCandidates MissingOutsideSample.labelMatrix MissingOutsideSample.statistics
                      [1; 0] featureVector 1 false 0 0 None = []
  /\ headPtr (findRefinement MissingOutsideSample.labelMatrix MissingOutsideSample.statistics
                             [1; 0] featureVector 1 false 0 0 None) = None.
Proof.
  intros featureVector.
  apply (findRefinement_without_sampled_examples
           MissingOutsideSample.labelMatrix MissingOutsideSample.statistics
           [1; 0] featureVector 1 false 0).
  intros r' Hr. unfold getNumElements in Hr. cbn in Hr.
  replace r' with 0 by lia. vm_compute. discriminate.
Defined.

(** ** The conditions of an induced rule *)

Section RuleConditions.

Variable labelMatrix : LabelMatrix.
Variable numRows : Z.
Variable featureMatrix : Z -> FeatureVector.
Variable isNominal : Z -> bool.
Variable Rng : Type.
Variable subSampleFeatures : Rng -> list Z * Rng.
Variable minCoverage : Z.
Variable maxConditions_ : Z.
Variable weights : list Z.

Local Abbreviation grow :=
  (refineOnce labelMatrix featureMatrix isNominal Rng subSampleFeatures minCoverage weights).

Local Abbreviation growLoop :=
  (refineLoop labelMatrix featureMatrix isNominal Rng subSampleFeatures minCoverage
              maxConditions_ weights).

(** A pass either adds one condition, which comes with a head, or leaves
    the conditions, their number and the best head as they are. *)
Lemma refineOnce_conditions (s : Induction Rng) :
  (exists rf, conditions (grow s) = conditions s ++ [rf] /\
              numConditionsGrown (grow s) = add (numConditionsGrown s) 1 /\
              bestHeadPtr (grow s) = headPtr rf)
  \/ (conditions (grow s) = conditions s /\
      numConditionsGrown (grow s) = numConditionsGrown s /\
      bestHeadPtr (grow s) = bestHeadPtr s).
Proof.
  unfold refineOnce.
  destruct (subSampleFeatures (rngState s)) as [features rng'].
  destruct (createRefinements _ _ _) as [ts1 refinements1].
  destruct (searchFeatures _ _ _ _ _ _ _ _) as [ts2 refinements2].
  destruct (pickBest features (refinements2, bestRefinementPtr s, false))
    as [[refinements3 best] found].
  destruct found.
  - destruct (filterThresholds labelMatrix featureMatrix weights ts2 (liveStatistics s) best)
      as [[ts3 statistics3] best'].
    left. exists best'. cbn. repeat split.
  - right. cbn. repeat split.
Qed.

Lemma refineLoop_conditions fuel (s s' : Induction Rng) :
  growLoop fuel s = Some s' ->
  (bestHeadPtr s = None \/ conditions s <> []) ->
  (0 <= maxConditions_ < modulus ->
   Z.of_nat (length (conditions s)) = numConditionsGrown s /\
   numConditionsGrown s <= maxConditions_) ->
  (bestHeadPtr s' = None \/ conditions s' <> []) /\
  (0 <= maxConditions_ < modulus -> Z.of_nat (length (conditions s')) <= maxConditions_).
Proof.
  revert s. induction fuel as [|fuel IH]; intros s H Hhead Hnum; cbn [refineLoop] in H.
  - destruct (continues _ _ s); [discriminate|]. injection H as <-.
    split; [exact Hhead|]. intros Hm. specialize (Hnum Hm). lia.
  - destruct (continues Rng maxConditions_ s) eqn:E.
    + apply (IH (grow s) H).
      * destruct (refineOnce_conditions s) as [(rf & Hc & _ & _) | (Hc & _ & Hb)].
        -- right. rewrite Hc. intros Hnil. apply app_eq_nil in Hnil. destruct Hnil; discriminate.
        -- rewrite Hc, Hb. exact Hhead.
      * intros Hm. specialize (Hnum Hm). destruct Hnum as [Hlen Hle].
        unfold continues in E. apply andb_prop in E. destruct E as [_ E].
        apply orb_prop in E. destruct E as [E|E]; [apply Z.eqb_eq in E; lia|].
        apply Z.ltb_lt in E.
        destruct (refineOnce_conditions s) as [(rf & Hc & Hn & _) | (Hc & Hn & _)];
          rewrite Hc, Hn.
        -- rewrite length_app. cbn [length]. unfold add.
           rewrite wrap32_small by (unfold modulus in *; lia). lia.
        -- lia.
    + injection H as <-. split; [exact Hhead|]. intros Hm. specialize (Hnum Hm). lia.
Qed.

(** A pass that finds no refinement ends the loop; one that finds a
    refinement counts it. *)
Lemma refineOnce_progress (s : Induction Rng) :
  numConditionsGrown (grow s) = add (numConditionsGrown s) 1
  \/ foundRefinement (grow s) = false.
Proof.
  unfold refineOnce.
  destruct (subSampleFeatures (rngState s)) as [features rng'].
  destruct (createRefinements _ _ _) as [ts1 refinements1].
  destruct (searchFeatures _ _ _ _ _ _ _ _) as [ts2 refinements2].
  destruct (pickBest features (refinements2, bestRefinementPtr s, false))
    as [[refinements3 best] found].
  destruct found.
  - destruct (filterThresholds labelMatrix featureMatrix weights ts2 (liveStatistics s) best)
      as [[ts3 statistics3] best'].
    left. reflexivity.
  - right. reflexivity.
Qed.

(** With a limit on the number of conditions, the loop ends within as many
    passes as conditions are left to grow. *)
Lemma refineLoop_ends fuel (s : Induction Rng) :
  0 <= maxConditions_ < modulus ->
  0 <= numConditionsGrown s ->
  maxConditions_ - numConditionsGrown s <= Z.of_nat fuel ->
  growLoop fuel s <> None.
Proof.
  intros Hm. revert s. induction fuel as [|fuel IH]; intros s Hn Hfuel; cbn [refineLoop].
  - destruct (continues Rng maxConditions_ s) eqn:E; [|discriminate].
    unfold continues in E. apply andb_prop in E. destruct E as [_ E].
    apply orb_prop in E. destruct E as [E|E]; [apply Z.eqb_eq in E | apply Z.ltb_lt in E]; lia.
  - destruct (continues Rng maxConditions_ s) eqn:E; [|discriminate].
    unfold continues in E. apply andb_prop in E. destruct E as [_ E].
    apply orb_prop in E. destruct E as [E|E]; [apply Z.eqb_eq in E; lia|].
    apply Z.ltb_lt in E.
    destruct (refineOnce_progress s) as [Hcount|Hstop].
    + apply IH; rewrite Hcount; unfold add;
        rewrite wrap32_small by (unfold modulus in *; lia); lia.
    + destruct fuel; cbn [refineLoop]; unfold continues; rewrite Hstop; discriminate.
Qed.

(** X9.  With a limit on the number of conditions (one that fits 32 bits),
    the loop of [induceRule] ends within [maxConditions_] passes.  A rule
    that [induceRule] adds to the model has at least one condition and,
    with such a limit, at most [maxConditions_] of them; when no rule is
    added the model is left as it was. *)
Theorem induced_rule_conditions_are_bounded
    (fuel : nat) (statistics : Statistics) (rng : Rng) (modelBuilder : list Rule)
    (currentQuality : float) :
  (0 <= maxConditions_ < modulus -> maxConditions_ <= Z.of_nat fuel ->
   induceRule labelMatrix numRows featureMatrix isNominal Rng subSampleFeatures
              minCoverage maxConditions_ weights fuel statistics rng modelBuilder
              currentQuality <> None)
  /\
  match induceRule labelMatrix numRows featureMatrix isNominal Rng subSampleFeatures
                   minCoverage maxConditions_ weights fuel statistics rng modelBuilder
                   currentQuality with
  | Some result =>
      if success result
      then exists conditions' head,
             modelAfter result = modelBuilder ++ [(conditions', head)] /\
             conditions' <> [] /\
             (0 <= maxConditions_ < modulus ->
              Z.of_nat (length conditions') <= maxConditions_)
      else modelAfter result = modelBuilder
  | None => True
  end.
Proof.
  split.
  { intros Hm Hfuel. unfold induceRule.
    destruct (growLoop fuel _) as [s|] eqn:Eloop; [discriminate|].
    exfalso. revert Eloop. apply refineLoop_ends; [exact Hm | |];
      unfold startInduction;
      destruct (createSubset labelMatrix numRows weights statistics); cbn; lia. }
  unfold induceRule.
  destruct (growLoop fuel _) as [s|] eqn:Eloop; [|exact I].
  destruct (refineLoop_conditions fuel _ s Eloop) as [Hhead Hmax].
  { left. unfold startInduction.
    destruct (createSubset labelMatrix numRows weights statistics). reflexivity. }
  { intros Hm. unfold startInduction.
    destruct (createSubset labelMatrix numRows weights statistics). cbn. lia. }
  destruct (conclude_cases labelMatrix Rng modelBuilder currentQuality s)
    as [(Hs & h & Hb & _ & _ & Hm & _) | (Hs & _ & Hm & _)]; rewrite Hs.
  - exists (conditions s), h. split; [exact Hm|]. split; [|exact Hmax].
    destruct Hhead as [Hnone|Hne]; [congruence | exact Hne].
  - exact Hm.
Qed.

(** *** The features of the conditions *)

Variable allowed : Z -> Prop.

Hypothesis sampled : forall rng, Forall allowed (fst (subSampleFeatures rng)).

(** Every refinement object is stored under its feature, and so is the
    refinement it holds. *)
Local Abbreviation keyed refinements :=
  (forall j (rr : ExactRuleRefinement), refinements !! j = Some rr ->
     featureIndex_ rr = j /\
     forall rf, refinementPtr_ rr = Some rf -> featureIndex rf = j).

Lemma createRefinements_keyed features ts (refinements : gmap Z ExactRuleRefinement) :
  keyed refinements ->
  keyed (snd (createRefinements isNominal features (ts, refinements))).
Proof.
  intros Hkeys. unfold createRefinements.
  apply (fold_left_invariant
           (fun a : ThresholdsSubset * gmap Z ExactRuleRefinement => keyed (snd a)));
    [|exact Hkeys].
  intros [ts' rs] j Ha. cbn [fst snd] in *.
  unfold createRuleRefinement. cbn [snd].
  intros k rr Hk. destruct (decide (j = k)) as [<-|Hne].
  - rewrite lookup_insert_eq in Hk. injection Hk as <-. cbn. split; [reflexivity|].
    intros rf Hrf. discriminate.
  - rewrite lookup_insert_ne in Hk by exact Hne. apply (Ha k rr Hk).
Qed.

Lemma searchFeatures_keyed statistics currentHead order ts
    (refinements : gmap Z ExactRuleRefinement) :
  keyed refinements ->
  keyed (snd (searchFeatures labelMatrix featureMatrix minCoverage weights statistics
                             currentHead order (ts, refinements))).
Proof.
  intros Hkeys. unfold searchFeatures.
  apply (fold_left_invariant
           (fun a : ThresholdsSubset * gmap Z ExactRuleRefinement => keyed (snd a)));
    [|exact Hkeys].
  intros [ts' rs] j Ha. cbn [fst snd] in *. unfold searchTask. cbn [fst snd].
  destruct (rs !! j) as [rr|] eqn:Ej; [|exact Ha].
  unfold searchFeature.
  destruct (callbackGet featureMatrix ts' (featureIndex_ rr)) as [ts'' featureVector].
  cbn [snd]. intros k rr' Hk. destruct (decide (j = k)) as [<-|Hne].
  - rewrite lookup_insert_eq in Hk. injection Hk as <-. cbn.
    destruct (Ha j rr Ej) as [Hj _]. split; [exact Hj|].
    intros rf Hrf. injection Hrf as <-. unfold findRefinement. cbn [featureIndex].
    rewrite runSweeps_featureIndex. exact Hj.
  - rewrite lookup_insert_ne in Hk by exact Hne. apply (Ha k rr' Hk).
Qed.

Lemma pickBest_sampled features (refinements : gmap Z ExactRuleRefinement) best :
  keyed refinements -> Forall allowed features ->
  let '(refinements', best', found) := pickBest features (refinements, best, false) in
  keyed refinements' /\ (found = true -> allowed (featureIndex best')).
Proof.
  intros Hkeys Hall. unfold pickBest.
  set (P := fun a : gmap Z ExactRuleRefinement * Refinement * bool =>
              keyed (fst (fst a)) /\ (snd a = true -> allowed (featureIndex (snd (fst a))))).
  assert (H : P (fold_left pickStep features (refinements, best, false))).
  { assert (Ha0 : P (refinements, best, false)) by (split; [exact Hkeys | discriminate]).
    revert Ha0. generalize (refinements, best, false) as a. clear Hkeys.
    induction Hall as [|j features Hj Hall IH]; intros a Ha; [exact Ha|].
    cbn [fold_left]. apply IH. clear IH.
    destruct a as [[rs b] found]. destruct Ha as [Hk Hb]. cbn [fst snd] in *.
    unfold pickStep.
    destruct (rs !! j) as [rr|] eqn:Ej; [|split; assumption].
    destruct (refinementPtr_ rr) as [rf|] eqn:Erf; [|split; assumption].
    assert (Hpolled : keyed (<[j := {| numExamples_ := numExamples_ rr;
                                       featureIndex_ := featureIndex_ rr;
                                       nominal_ := nominal_ rr;
                                       refinementPtr_ := None |}]> rs)).
    { intros k rr' Hk'. destruct (decide (j = k)) as [<-|Hne].
      - rewrite lookup_insert_eq in Hk'. injection Hk' as <-. cbn.
        split; [apply (Hk j rr Ej) | discriminate].
      - rewrite lookup_insert_ne in Hk' by exact Hne. apply (Hk k rr' Hk'). }
    destruct (isBetterThan rf b); (split; [exact Hpolled|]); cbn [fst snd].
    - intros _. destruct (Hk j rr Ej) as [_ Hrf]. rewrite (Hrf rf Erf). exact Hj.
    - exact Hb. }
  destruct (fold_left pickStep features (refinements, best, false)) as [[rs b] found].
  exact H.
Qed.

Lemma filterThresholds_featureIndex ts st rf :
  featureIndex (snd (filterThresholds labelMatrix featureMatrix weights ts st rf))
  = featureIndex rf.
Proof.
  unfold filterThresholds. cbn zeta.
  destruct (filterCurrentVector _ _ _ _ _ _ _ _ _ _ _) as [[entry mask'] st'].
  cbn [snd]. destruct (hasZeroWeights weights && _); reflexivity.
Qed.

Lemma refineOnce_sampled (s : Induction Rng) :
  keyed (ruleRefinements s) ->
  Forall (fun c => allowed (featureIndex c)) (conditions s) ->
  keyed (ruleRefinements (grow s)) /\
  Forall (fun c => allowed (featureIndex c)) (conditions (grow s)).
Proof.
  intros Hkeys Hconds. unfold refineOnce.
  pose proof (sampled (rngState s)) as Hall.
  destruct (subSampleFeatures (rngState s)) as [features rng']. cbn [fst] in Hall.
  pose proof (createRefinements_keyed features (thresholdsSubset s) (ruleRefinements s) Hkeys)
    as H1.
  destruct (createRefinements _ _ _) as [ts1 refinements1]. cbn [snd] in H1.
  pose proof (searchFeatures_keyed (liveStatistics s) (bestHeadPtr s) features ts1
                refinements1 H1) as H2.
  destruct (searchFeatures _ _ _ _ _ _ _ _) as [ts2 refinements2]. cbn [snd] in H2.
  pose proof (pickBest_sampled features refinements2 (bestRefinementPtr s) H2 Hall) as H3.
  destruct (pickBest features (refinements2, bestRefinementPtr s, false))
    as [[refinements3 best] found].
  destruct H3 as [H3 Hbest]. destruct found.
  - pose proof (filterThresholds_featureIndex ts2 (liveStatistics s) best) as Hf.
    destruct (filterThresholds labelMatrix featureMatrix weights ts2 (liveStatistics s) best)
      as [[ts3 statistics3] best'].
    cbn [snd] in Hf. cbn [ruleRefinements conditions]. split; [exact H3|].
    apply Forall_app. split; [exact Hconds|]. constructor; [|constructor].
    rewrite Hf. apply Hbest. reflexivity.
  - cbn [ruleRefinements conditions]. split; assumption.
Qed.

Lemma refineLoop_sampled fuel (s s' : Induction Rng) :
  growLoop fuel s = Some s' ->
  keyed (ruleRefinements s) ->
  Forall (fun c => allowed (featureIndex c)) (conditions s) ->
  Forall (fun c => allowed (featureIndex c)) (conditions s').
Proof.
  revert s. induction fuel as [|fuel IH]; intros s H Hkeys Hconds; cbn [refineLoop] in H.
  - destruct (continues _ _ s); [discriminate|]. injection H as <-. exact Hconds.
  - destruct (continues Rng maxConditions_ s).
    + destruct (refineOnce_sampled s Hkeys Hconds) as [Hk Hc].
      apply (IH (grow s) H Hk Hc).
    + injection H as <-. exact Hconds.
Qed.

(** X10.  Every condition of a rule that [induceRule] adds to the model
    tests a feature that the feature sub-sampling drew: whatever holds of
    every feature index the sub-sampling can return holds of the feature
    index of every condition. *)
Theorem induced_rule_tests_sampled_features
    (fuel : nat) (statistics : Statistics) (rng : Rng) (modelBuilder : list Rule)
    (currentQuality : float) :
  match induceRule labelMatrix numRows featureMatrix isNominal Rng subSampleFeatures
                   minCoverage maxConditions_ weights fuel statistics rng modelBuilder
                   currentQuality with
  | Some result =>
      if success result
      then exists conditions' head,
             modelAfter result = modelBuilder ++ [(conditions', head)] /\
             Forall (fun c => allowed (featureIndex c)) conditions'
      else modelAfter result = modelBuilder
  | None => True
  end.
Proof.
  unfold induceRule.
  destruct (growLoop fuel _) as [s|] eqn:Eloop; [|exact I].
  pose proof (refineLoop_sampled fuel _ s Eloop) as Hconds.
  assert (Hs : Forall (fun c => allowed (featureIndex c)) (conditions s)).
  { apply Hconds; unfold startInduction;
      destruct (createSubset labelMatrix numRows weights statistics); cbn.
    - intros j rr Hj. rewrite lookup_empty in Hj. discriminate.
    - constructor. }
  destruct (conclude_cases labelMatrix Rng modelBuilder currentQuality s)
    as [(Hsucc & h & _ & _ & _ & Hm & _) | (Hsucc & _ & Hm & _)]; rewrite Hsucc.
  - exists (conditions s), h. split; assumption.
  - exact Hm.
Qed.

End RuleConditions.

Lemma induced_rule_tests_sampled_features_witness :
  match induceRule PerfectRule.labelMatrix 6 PerfectRule.featureMatrix PerfectRule.isNominal
                   unit PerfectRule.subSampleFeatures 1 (-1) PerfectRule.weights 5
                   (newStatistics PerfectRule.labelMatrix [0; 0; 0]) tt [] 0 with
  | Some result =>
      if success result
      then exists conditions' head,
             modelAfter result = [] ++ [(conditions', head)] /\
             Forall (fun c => featureIndex c = 0) conditions'
      else modelAfter result = []
  | None => True
  end.
Proof.
  apply (induced_rule_tests_sampled_features
           PerfectRule.labelMatrix 6 PerfectRule.featureMatrix PerfectRule.isNominal
           unit PerfectRule.subSampleFeatures 1 (-1) PerfectRule.weights
           (fun j => j = 0)).
  intros rng. cbn. constructor; [reflexivity | constructor].
Defined.

(** ** The counters of the statistics *)

Lemma wr_same (l : list Z) (i : Z) : wr l i (rd l i) = l.
Proof.
  unfold wr, rd. destruct (l !! Z.to_nat i) as [v|] eqn:E; cbn.
  - apply list_insert_id. exact E.
  - apply list_insert_ge. apply lookup_ge_None. exact E.
Qed.

Lemma wr_wr (l : list Z) (i : Z) (v v' : Z) : wr (wr l i v) i v' = wr l i v'.
Proof. unfold wr. apply list_insert_insert_eq. Qed.

Lemma add_sub_1 (v : Z) : 0 <= v < modulus -> sub (add v 1) 1 = v.
Proof.
  intros H. unfold sub, add, wrap32. rewrite Zminus_mod_idemp_l.
  replace (v + 1 - 1) with v by lia. apply Z.mod_small. exact H.
Qed.

Lemma sub_add_1 (v : Z) : 0 <= v < modulus -> add (sub v 1) 1 = v.
Proof.
  intros H. unfold sub, add, wrap32. rewrite Zplus_mod_idemp_l.
  replace (v - 1 + 1) with v by lia. apply Z.mod_small. exact H.
Qed.

(** X11.  Adding an example to the total predictions and removing it again
    (or the other way round) restores the statistics, whatever the weights
    passed along: the counter of the example's time slot goes up and down
    by one modulo 2^32, and nothing else is written. *)
Theorem updateCoveredStatistic_add_and_remove_cancel
    (labelMatrix : LabelMatrix) (st : Statistics) (statisticIndex weight weight' : Z) :
  Forall in_range (totalPredictionVector st) ->
  0 <= rd (timeSlots labelMatrix) statisticIndex
    < Z.of_nat (length (totalPredictionVector st)) ->
  updateCoveredStatistic labelMatrix
    (updateCoveredStatistic labelMatrix st statisticIndex weight false)
    statisticIndex weight' true = st
  /\
  updateCoveredStatistic labelMatrix
    (updateCoveredStatistic labelMatrix st statisticIndex weight true)
    statisticIndex weight' false = st.
Proof.
  intros Hrange Hslot.
  pose proof (rd_in_range _ (rd (timeSlots labelMatrix) statisticIndex) Hrange) as Hold.
  unfold updateCoveredStatistic.
  destruct (rd (coverageCountVector st) statisticIndex =? 0) eqn:E.
  - cbn [coverageCountVector totalPredictionVector predictionVector]. rewrite E.
    cbn [coverageCountVector totalPredictionVector predictionVector].
    rewrite !rd_wr_eq by exact Hslot. rewrite !wr_wr.
    rewrite add_sub_1, sub_add_1 by exact Hold. rewrite wr_same.
    destruct st; split; reflexivity.
  - rewrite E. split; reflexivity.
Qed.

Lemma updateCoveredStatistic_add_and_remove_cancel_witness :
  updateCoveredStatistic PerfectRule.labelMatrix
    (updateCoveredStatistic PerfectRule.labelMatrix (liveStatistics PerfectRule.grown)
                            3 1 false)
    3 1 true = liveStatistics PerfectRule.grown
  /\
  updateCoveredStatistic PerfectRule.labelMatrix
    (updateCoveredStatistic PerfectRule.labelMatrix (liveStatistics PerfectRule.grown)
                            3 1 true)
    3 1 false = liveStatistics PerfectRule.grown.
Proof.
  apply (updateCoveredStatistic_add_and_remove_cancel PerfectRule.labelMatrix
           (liveStatistics PerfectRule.grown) 3 1 1).
  - replace (totalPredictionVector (liveStatistics PerfectRule.grown)) with [2; 0; 2]
      by (vm_compute; reflexivity).
    repeat constructor; unfold modulus; lia.
  - vm_compute. split; [discriminate | reflexivity].
Defined.

(** X12.  [applyPrediction] increments the coverage count of every example
    that the coverage mask marks as covered, modulo 2^32, and leaves the
    coverage count of every other example as it was. *)
Theorem applyPrediction_increments_covered_counts
    (labelMatrix : LabelMatrix) (ts : ThresholdsSubset) (st : Statistics) (i : Z) :
  length (coverageCountVector st) = length (timeSlots labelMatrix) ->
  0 <= i < getNumRows labelMatrix ->
  rd (coverageCountVector (applyPrediction labelMatrix ts st)) i =
  if isCovered (coverageMask_ ts) i
  then add (rd (coverageCountVector st) i) 1
  else rd (coverageCountVector st) i.
Proof.
  intros Hlen Hi. unfold applyPrediction. cbn [updatePredictions coverageCountVector].
  pose proof (increase_loop_rd (coverageMask_ ts) (length (timeSlots labelMatrix)) 0 st i
                ltac:(lia) ltac:(lia) ltac:(lia)) as H.
  unfold getNumRows in *. rewrite !Z.add_0_l in H. rewrite H.
  rewrite bool_decide_eq_true_2 by lia. reflexivity.
Qed.

Lemma applyPrediction_increments_covered_counts_witness :
  rd (coverageCountVector
        (applyPrediction PerfectRule.labelMatrix (thresholdsSubset PerfectRule.grown)
                         (liveStatistics PerfectRule.grown))) 4 =
  if isCovered (coverageMask_ (thresholdsSubset PerfectRule.grown)) 4
  then add (rd (coverageCountVector (liveStatistics PerfectRule.grown)) 4) 1
  else rd (coverageCountVector (liveStatistics PerfectRule.grown)) 4.
Proof.
  apply (applyPrediction_increments_covered_counts PerfectRule.labelMatrix
           (thresholdsSubset PerfectRule.grown) (liveStatistics PerfectRule.grown) 4).
  - vm_compute. reflexivity.
  - unfold getNumRows. simpl. lia.
Defined.

Lemma numCoveredInSlot_bound (counts : list Z) (first last : Z) :
  first <= last -> 0 <= numCoveredInSlot counts first last <= last - first.
Proof.
  intros H. unfold numCoveredInSlot.
  pose proof (length_filter (fun j => 0 < rd counts j) (positions first last)) as Hf.
  rewrite positions_length in Hf. lia.
Qed.

(** X13.  [applyPrediction] never lowers a prediction: when the prediction
    of every time slot is the number of its covered examples, the
    prediction of a slot after [applyPrediction] is at least what it was,
    and at most the number of examples of the slot. *)
Theorem applyPrediction_predictions_grow
    (labelMatrix : LabelMatrix) (ts : ThresholdsSubset) (st : Statistics) (t : Z) :
  length (coverageCountVector st) = length (timeSlots labelMatrix) ->
  length (predictionVector st) = length (values labelMatrix) ->
  Forall (fun c => 0 <= c < modulus - 1) (coverageCountVector st) ->
  Forall in_range (indices labelMatrix) ->
  slotsInOrder labelMatrix ->
  predictionsCountCovered labelMatrix st ->
  0 <= t < getNumTimeSlots labelMatrix ->
  let st' := applyPrediction labelMatrix ts st in
  rd (predictionVector st) t <= rd (predictionVector st') t
  /\ rd (predictionVector st') t
     <= rd (indices labelMatrix) (t + 1) - rd (indices labelMatrix) t.
Proof.
  intros Hcc Hp Hmax Hind Hslots Hpred Ht st'. subst st'. unfold applyPrediction.
  set (grown := fold_left
                  (fun s i => if isCovered (coverageMask_ ts) i
                              then increaseCoverageCount s i else s)
                  (positions 0 (getNumRows labelMatrix)) st).
  destruct (increase_loop_prediction (coverageMask_ ts)
              (positions 0 (getNumRows labelMatrix)) st) as [Hgp _].
  fold grown in Hgp.
  destruct (Hslots t Ht) as [[Hf0 Hfl] Hl].
  pose proof (rd_in_range _ t Hind). pose proof (rd_in_range _ (t + 1) Hind).
  rewrite updatePredictions_rd by (rewrite ?Hgp; assumption).
  rewrite countSlot_spec by lia.
  subst grown. rewrite numCovered_after_applyPrediction by assumption.
  rewrite (Hpred t Ht). split.
  - unfold numFreshInSlot. lia.
  - rewrite <- numCovered_after_applyPrediction with (labelMatrix := labelMatrix)
      by assumption.
    apply numCoveredInSlot_bound. exact Hfl.
Qed.

Lemma applyPrediction_predictions_grow_witness :
  let st := liveStatistics PerfectRule.grown in
  let st' := applyPrediction PerfectRule.labelMatrix (thresholdsSubset PerfectRule.grown) st in
  rd (predictionVector st) 2 <= rd (predictionVector st') 2
  /\ rd (predictionVector st') 2
     <= rd (indices PerfectRule.labelMatrix) (2 + 1) - rd (indices PerfectRule.labelMatrix) 2.
Proof.
  apply (applyPrediction_predictions_grow PerfectRule.labelMatrix
           (thresholdsSubset PerfectRule.grown) (liveStatistics PerfectRule.grown) 2).
  - vm_compute. reflexivity.
  - vm_compute. reflexivity.
  - replace (coverageCountVector (liveStatistics PerfectRule.grown))
      with [0; 0; 0; 0; 0; 0] by (vm_compute; reflexivity).
    repeat constructor; unfold modulus; lia.
  - repeat constructor; unfold modulus; simpl; lia.
  - intros t Ht. unfold getNumTimeSlots in Ht. simpl in Ht.
    assert (H : t = 0 \/ t = 1 \/ t = 2) by lia.
    destruct H as [-> | [-> | ->]]; vm_compute; repeat split; discriminate.
  - intros t Ht. unfold getNumTimeSlots in Ht. simpl in Ht.
    assert (H : t = 0 \/ t = 1 \/ t = 2) by lia.
    destruct H as [-> | [-> | ->]]; vm_compute; reflexivity.
  - unfold getNumTimeSlots. simpl. lia.
Defined.

(** ** The counters of a statistics subset *)

Lemma bump_drop1_sum (covered' uncovered' : list Z) (timeSlot t : Z) :
  length covered' = length uncovered' ->
  wrap32 (rd (bump covered' timeSlot) t + rd (drop1 uncovered' timeSlot) t) =
  wrap32 (rd covered' t + rd uncovered' t).
Proof.
  intros Hlen. unfold bump, drop1, wr, rd.
  destruct (decide (Z.to_nat timeSlot = Z.to_nat t)) as [Heq|Hne].
  - rewrite Heq.
    destruct (covered' !! Z.to_nat t) as [c|] eqn:Ec.
    + assert (Hlt : (Z.to_nat t < length covered')%nat) by (eapply lookup_lt_Some; eassumption).
      destruct (uncovered' !! Z.to_nat t) as [u|] eqn:Eu;
        [|apply lookup_ge_None in Eu; lia].
      rewrite !list_lookup_insert_eq by lia. cbn [default from_option id].
      unfold add, sub, wrap32. rewrite <- Zplus_mod. f_equal. lia.
    + assert (Hge : (length covered' <= Z.to_nat t)%nat) by (apply lookup_ge_None; exact Ec).
      rewrite !list_insert_ge by lia. rewrite ?Ec. reflexivity.
  - rewrite !list_lookup_insert_ne by exact Hne. reflexivity.
Qed.

(** X14.  [addToSubset] moves an example from the uncovered to the covered
    counter of its time slot: the sum of the two counters of every slot,
    modulo 2^32, is what it was before, and so is the sum of the two
    accumulated counters once they exist. *)
Theorem addToSubset_keeps_the_sum_of_the_counters
    (labelMatrix : LabelMatrix) (st : Statistics) (s : StatisticsSubset)
    (statisticIndex weight t : Z) :
  length (coveredPredictionVector s) = length (uncoveredPredictionVector s) ->
  let s' := addToSubset labelMatrix st s statisticIndex weight in
  wrap32 (rd (coveredPredictionVector s') t + rd (uncoveredPredictionVector s') t) =
  wrap32 (rd (coveredPredictionVector s) t + rd (uncoveredPredictionVector s) t)
  /\
  forall accumulatedCovered accumulatedUncovered,
    accumulatedCoveredPredictionVector s = Some accumulatedCovered ->
    accumulatedUncoveredPredictionVector s = Some accumulatedUncovered ->
    length accumulatedCovered = length accumulatedUncovered ->
    exists accumulatedCovered' accumulatedUncovered',
      accumulatedCoveredPredictionVector s' = Some accumulatedCovered' /\
      accumulatedUncoveredPredictionVector s' = Some accumulatedUncovered' /\
      wrap32 (rd accumulatedCovered' t + rd accumulatedUncovered' t) =
      wrap32 (rd accumulatedCovered t + rd accumulatedUncovered t).
Proof.
  intros Hlen s'. subst s'. unfold addToSubset.
  destruct (rd (coverageCountVector st) statisticIndex =? 0).
  - cbn [coveredPredictionVector uncoveredPredictionVector
         accumulatedCoveredPredictionVector accumulatedUncoveredPredictionVector].
    split; [apply bump_drop1_sum; exact Hlen|].
    intros ac au -> -> Hacc. eexists _, _. split; [reflexivity|]. split; [reflexivity|].
    apply bump_drop1_sum. exact Hacc.
  - split; [reflexivity|]. intros ac au Hc Hu _. eauto.
Qed.

Lemma addToSubset_keeps_the_sum_of_the_counters_witness :
  let s := createStatisticsSubset MissingOutsideSample.statistics in
  let s' := addToSubset MissingOutsideSample.labelMatrix MissingOutsideSample.statistics
                        s 0 1 in
  wrap32 (rd (coveredPredictionVector s') 0 + rd (uncoveredPredictionVector s') 0) =
  wrap32 (rd (coveredPredictionVector s) 0 + rd (uncoveredPredictionVector s) 0)
  /\
  forall accumulatedCovered accumulatedUncovered,
    accumulatedCoveredPredictionVector s = Some accumulatedCovered ->
    accumulatedUncoveredPredictionVector s = Some accumulatedUncovered ->
    length accumulatedCovered = length accumulatedUncovered ->
    exists accumulatedCovered' accumulatedUncovered',
      accumulatedCoveredPredictionVector s' = Some accumulatedCovered' /\
      accumulatedUncoveredPredictionVector s' = Some accumulatedUncovered' /\
      wrap32 (rd accumulatedCovered' 0 + rd accumulatedUncovered' 0) =
      wrap32 (rd accumulatedCovered 0 + rd accumulatedUncovered 0).
Proof.
  apply (addToSubset_keeps_the_sum_of_the_counters
           MissingOutsideSample.labelMatrix MissingOutsideSample.statistics
           (createStatisticsSubset MissingOutsideSample.statistics) 0 1 0).
  vm_compute. reflexivity.
Defined.

(** ** The cache of filtered vectors *)

Section CacheFacts.

Variable labelMatrix : LabelMatrix.
Variable featureMatrix : Z -> FeatureVector.
Variable weights : list Z.

Lemma filterAnyVector_entry vector cacheEntry numConditions' mask :
  exists v,
    filterAnyVector vector cacheEntry numConditions' mask =
    {| vectorPtr := Some v; numConditions := numConditions' |}.
Proof.
  unfold filterAnyVector.
  destruct (fold_left _ _ _) as [filtered i]. eauto.
Qed.

(** X15.  A second call of [Callback::get] for a feature is a cache hit:
    it returns the feature vector the first call returned and leaves the
    thresholds subset as the first call left it. *)
Theorem callbackGet_twice (ts : ThresholdsSubset) (featureIndex' : Z) :
  let first := callbackGet featureMatrix ts featureIndex' in
  callbackGet featureMatrix (fst first) featureIndex' = first.
Proof.
  cbn zeta. unfold callbackGet at 2 3.
  destruct (numConditions (cacheEntryOf ts featureIndex') <? numModifications_ ts) eqn:E.
  - destruct (filterAnyVector_entry
                (match vectorPtr (cacheEntryOf ts featureIndex') with
                 | Some v => v
                 | None => featureMatrix featureIndex'
                 end)
                (cacheEntryOf ts featureIndex') (numModifications_ ts) (coverageMask_ ts))
      as [v Hv].
    rewrite Hv. cbn [fst vectorPtr default].
    unfold callbackGet, cacheEntryOf. cbn [cacheFiltered_ setCache numModifications_].
    rewrite lookup_insert_eq. cbn [default vectorPtr numConditions].
    rewrite Z.ltb_irrefl. reflexivity.
  - cbn [fst]. unfold callbackGet. rewrite E. reflexivity.
Qed.

(** X16.  After [filterThresholds] has applied a refinement, the cache
    entry of the refinement's feature is up to date: the next call of
    [Callback::get] for that feature returns the vector
    [filterCurrentVector] has just written, without filtering it again,
    and does not change the thresholds subset. *)
Theorem callbackGet_after_filterThresholds
    (ts : ThresholdsSubset) (statistics : Statistics) (rf : Refinement) :
  let ts' := fst (fst (filterThresholds labelMatrix featureMatrix weights ts statistics rf)) in
  exists v,
    vectorPtr (cacheEntryOf ts' (featureIndex rf)) = Some v /\
    callbackGet featureMatrix ts' (featureIndex rf) = (ts', v).
Proof.
  cbn zeta. unfold filterThresholds. cbn zeta.
  match goal with
  | |- context [filterCurrentVector ?a ?b ?c ?d ?e ?f ?g ?h ?i ?j ?k] =>
      assert (Hentry : exists v, fst (fst (filterCurrentVector a b c d e f g h i j k)) =
                                 {| vectorPtr := Some v; numConditions := i |})
        by (unfold filterCurrentVector; cbn [fst]; eauto);
      destruct (filterCurrentVector a b c d e f g h i j k) as [[entry mask'] st']
  end.
  cbn [fst] in *. destruct Hentry as [v ->]. exists v.
  unfold callbackGet, cacheEntryOf. cbn [cacheFiltered_ numModifications_].
  rewrite lookup_insert_eq. cbn [default vectorPtr numConditions].
  rewrite Z.ltb_irrefl. split; reflexivity.
Qed.

End CacheFacts.

(** ** What the filtered vectors hold

    The loops of [filterCurrentVector] that retain entries copy a range of
    the input to consecutive positions of the filtered vector, which may be
    the input itself; the position written never passes the position
    read. *)

Section CopyLoop.

Variable aliased : bool.
Variable input : list IndexedValue.
Variable step : Filtering -> Z -> Filtering.

Hypothesis step_filtered :
  forall f r',
    fFiltered (step f r') =
    writeEntry (fFiltered f) (fI f) (readEntry (source aliased input f) r').

Hypothesis step_i : forall f r', fI (step f r') = add (fI f) 1.

Lemma copy_loop (n : nat) (a : Z) (f : Filtering) :
  0 <= fI f <= a ->
  a + Z.of_nat n <= Z.of_nat (length input) ->
  Z.of_nat (length input) < modulus ->
  (aliased = true ->
   forall r', a <= r' < a + Z.of_nat n ->
              fFiltered f !! Z.to_nat r' = input !! Z.to_nat r') ->
  let f' := fold_left step (positions a (a + Z.of_nat n)) f in
  fI f' = fI f + Z.of_nat n /\
  length (fFiltered f') = length (fFiltered f) /\
  forall p : nat,
    fFiltered f' !! p =
    if bool_decide (fI f <= Z.of_nat p < fI f + Z.of_nat n)
       && bool_decide (p < length (fFiltered f))%nat
    then input !! Z.to_nat (a + (Z.of_nat p - fI f))
    else fFiltered f !! p.
Proof.
  revert a f. induction n as [|n IH]; intros a f Hi Hlen Hmod Hsame; cbn zeta.
  - rewrite positions_nil by lia. cbn [fold_left]. split; [lia|]. split; [reflexivity|].
    intros p. rewrite bool_decide_eq_false_2 by lia. reflexivity.
  - rewrite positions_cons by lia. cbn [fold_left].
    replace (a + Z.of_nat (S n)) with (a + 1 + Z.of_nat n) by lia.
    assert (Hread : exists x, input !! Z.to_nat a = Some x /\
                              readEntry (source aliased input f) a = x).
    { destruct (input !! Z.to_nat a) as [x|] eqn:E.
      - exists x. split; [reflexivity|]. unfold readEntry, source.
        destruct aliased; [rewrite Hsame by (reflexivity || lia)|]; rewrite E; reflexivity.
      - apply lookup_ge_None in E. lia. }
    destruct Hread as (x & Hx & Hread).
    assert (Hi1 : fI (step f a) = fI f + 1).
    { rewrite step_i. unfold add. apply wrap32_small. unfold modulus in *. lia. }
    assert (Hf1 : fFiltered (step f a) = <[Z.to_nat (fI f) := x]> (fFiltered f)).
    { rewrite step_filtered, Hread. reflexivity. }
    destruct (IH (a + 1) (step f a)) as (HI & HL & HP).
    + lia.
    + lia.
    + exact Hmod.
    + intros Hal r' Hr. rewrite Hf1.
      rewrite list_lookup_insert_ne by lia. apply Hsame; [exact Hal | lia].
    + cbn zeta in HI, HL, HP. rewrite HI, HL, Hi1, Hf1, length_insert.
      split; [lia|]. split; [reflexivity|].
      intros p. rewrite HP, Hi1, Hf1, length_insert.
      destruct (bool_decide (p < length (fFiltered f))%nat) eqn:Ep.
      * apply bool_decide_eq_true in Ep. rewrite !andb_true_r.
        destruct (decide (Z.of_nat p = fI f)) as [Heq|Hne].
        -- rewrite bool_decide_eq_false_2 by lia.
           rewrite bool_decide_eq_true_2 by lia.
           replace (Z.to_nat (fI f)) with p by lia.
           rewrite list_lookup_insert_eq by exact Ep.
           rewrite <- Hx. f_equal. lia.
        -- rewrite list_lookup_insert_ne by lia.
           destruct (bool_decide (fI f + 1 <= Z.of_nat p < fI f + 1 + Z.of_nat n)) eqn:E1.
           ++ apply bool_decide_eq_true in E1.
              rewrite bool_decide_eq_true_2 by lia. f_equal. lia.
           ++ apply bool_decide_eq_false in E1.
              rewrite bool_decide_eq_false_2 by lia. reflexivity.
      * apply bool_decide_eq_false in Ep. rewrite !andb_false_r.
        rewrite !lookup_ge_None_2 by (rewrite ?length_insert; lia). reflexivity.
Qed.

End CopyLoop.

Lemma resize_take (l : list IndexedValue) (n : Z) :
  (Z.to_nat n <= length l)%nat -> resize l n = take (Z.to_nat n) l.
Proof.
  intros H. unfold resize.
  replace (Z.to_nat n - length l)%nat with 0%nat by lia.
  cbn [replicate]. apply app_nil_r.
Qed.

Section FilteredEntries.

Variable labelMatrix : LabelMatrix.
Variable weights : list Z.

(** X17.  With a condition that covers the range [first, last) of the
    feature vector, [filterCurrentVector] leaves exactly the entries of
    that range in the filtered vector, in their order; this holds when a
    new vector is allocated and also when the vector is filtered in
    place. *)
Theorem filterCurrentVector_covered_keeps_the_range
    (vector : FeatureVector) (cacheEntry : FilteredCacheEntry)
    (conditionStart conditionEnd : Z) (conditionComparator : Comparator)
    (numConditions' : Z) (coverageMask : CoverageMask) (statistics : Statistics) :
  (vectorPtr cacheEntry = None \/ vectorPtr cacheEntry = Some vector) ->
  getNumElements vector < modulus ->
  let descending := conditionEnd <? conditionStart in
  let first := if descending then conditionEnd + 1 else conditionStart in
  let last := if descending then conditionStart + 1 else conditionEnd in
  0 <= first -> last <= getNumElements vector ->
  exists v,
    fst (fst (filterCurrentVector labelMatrix weights vector cacheEntry conditionStart
                                  conditionEnd conditionComparator true numConditions'
                                  coverageMask statistics))
    = {| vectorPtr := Some v; numConditions := numConditions' |} /\
    entries v = take (Z.to_nat (last - first)) (drop (Z.to_nat first) (entries vector)).
Proof.
  intros Hptr Hmod descending first last Hfirst Hlast.
  unfold getNumElements in *.
  assert (Hle : first <= last).
  { subst first last descending.
    destruct (conditionEnd <? conditionStart) eqn:E;
      [apply Z.ltb_lt in E | apply Z.ltb_ge in E]; lia. }
  assert (Hdist : wrap32 (Z.abs (conditionStart - conditionEnd)) = last - first).
  { rewrite wrap32_small.
    - subst first last descending.
      destruct (conditionEnd <? conditionStart) eqn:E;
        [apply Z.ltb_lt in E | apply Z.ltb_ge in E]; lia.
    - subst first last descending. unfold modulus in *.
      destruct (conditionEnd <? conditionStart) eqn:E;
        [apply Z.ltb_lt in E | apply Z.ltb_ge in E]; lia. }
  unfold filterCurrentVector. cbn zeta. fold descending. fold first. fold last.
  rewrite Hdist. cbn [fst].
  eexists. split; [reflexivity|]. cbn [entries].
  set (aliased := bool_decide (is_Some (vectorPtr cacheEntry))).
  set (filtered0 := entries match vectorPtr cacheEntry with
                            | Some v => v
                            | None => {| entries := replicate (Z.to_nat (last - first)) dummyEntry;
                                         missingIndices := [] |}
                            end).
  set (f1 := {| fMask := setTarget coverageMask numConditions';
                fStatistics := resetCoveredStatistics statistics;
                fFiltered := filtered0; fI := 0 |}).
  assert (Hlen0 : (Z.to_nat (last - first) <= length filtered0)%nat).
  { subst filtered0. destruct Hptr as [-> | ->]; cbn [entries].
    - rewrite length_replicate. lia.
    - lia. }
  destruct (copy_loop aliased (entries vector)
              (retainCovered labelMatrix weights aliased (entries vector) numConditions')
              ltac:(reflexivity) ltac:(reflexivity)
              (Z.to_nat (last - first)) first f1) as (HI & HL & HP).
  - cbn. lia.
  - lia.
  - exact Hmod.
  - intros Hal r' Hr. subst aliased f1 filtered0. cbn [fFiltered].
    destruct Hptr as [Hn | Hs]; rewrite ?Hn, ?Hs in *; [discriminate Hal | reflexivity].
  - cbn zeta in HI, HL, HP.
    replace (first + Z.of_nat (Z.to_nat (last - first))) with last in * by lia.
    cbn [f1 fFiltered fI] in HL, HP.
    rewrite resize_take by (rewrite HL; exact Hlen0).
    apply list_eq. intros p.
    destruct (decide (p < Z.to_nat (last - first))%nat) as [Hp|Hp].
    + rewrite !lookup_take_lt by exact Hp. rewrite HP, lookup_drop.
      rewrite bool_decide_eq_true_2 by lia.
      rewrite bool_decide_eq_true_2 by lia. cbn [andb]. f_equal. lia.
    + rewrite !lookup_take_ge by lia. reflexivity.
Qed.

Lemma not_neq {A : Type} (c : Comparator) (a b : A) :
  c <> NEQ -> match c with NEQ => a | _ => b end = b.
Proof. intros H. destruct c; congruence. Qed.

Lemma discardUncovered_loop aliased input numConditions' (l : list Z) (f : Filtering) :
  let f' := fold_left (discardUncovered labelMatrix weights aliased input numConditions') l f in
  fFiltered f' = fFiltered f /\ fI f' = fI f.
Proof.
  cbn zeta.
  apply (fold_left_invariant (fun f' => fFiltered f' = fFiltered f /\ fI f' = fI f));
    [|split; reflexivity].
  intros a x Ha. exact Ha.
Qed.

Lemma discardMissing_loop numConditions' (l : list Z) (f : Filtering) :
  let f' := fold_left (discardMissing labelMatrix weights numConditions') l f in
  fFiltered f' = fFiltered f /\ fI f' = fI f.
Proof.
  cbn zeta.
  apply (fold_left_invariant (fun f' => fFiltered f' = fFiltered f /\ fI f' = fI f));
    [|split; reflexivity].
  intros a x Ha. exact Ha.
Qed.

(** X18.  With a condition of a numerical feature that keeps the
    complement of the prefix [0, conditionEnd) of the feature vector
    (found by the ascending sweep), [filterCurrentVector] leaves exactly
    the entries from [conditionEnd] on in the filtered vector, in their
    order, whether the vector is new or filtered in place. *)
Theorem filterCurrentVector_uncovered_prefix_keeps_the_suffix
    (vector : FeatureVector) (cacheEntry : FilteredCacheEntry)
    (conditionEnd : Z) (conditionComparator : Comparator)
    (numConditions' : Z) (coverageMask : CoverageMask) (statistics : Statistics) :
  (vectorPtr cacheEntry = None \/ vectorPtr cacheEntry = Some vector) ->
  getNumElements vector < modulus ->
  conditionComparator <> NEQ ->
  0 <= conditionEnd <= getNumElements vector ->
  exists v,
    fst (fst (filterCurrentVector labelMatrix weights vector cacheEntry 0
                                  conditionEnd conditionComparator false numConditions'
                                  coverageMask statistics))
    = {| vectorPtr := Some v; numConditions := numConditions' |} /\
    entries v = drop (Z.to_nat conditionEnd) (entries vector).
Proof.
  intros Hptr Hmod Hcmp Hend. unfold getNumElements in *.
  unfold filterCurrentVector. cbn zeta. unfold getNumElements.
  assert (Hasc : (conditionEnd <? 0) = false) by (apply Z.ltb_ge; lia).
  rewrite Hasc.
  replace (wrap32 (Z.abs (0 - conditionEnd))) with conditionEnd
    by (rewrite wrap32_small by (unfold modulus in *; lia); lia).
  change (wrap32 0) with 0. cbn [fst].
  eexists. split; [reflexivity|]. cbn [entries].
  set (n := Z.of_nat (length (entries vector))) in *.
  set (numElements := if conditionEnd <? n then n - conditionEnd else 0).
  assert (Hnum : numElements = n - conditionEnd).
  { subst numElements. destruct (conditionEnd <? n) eqn:E; [reflexivity|].
    apply Z.ltb_ge in E. lia. }
  set (aliased := bool_decide (is_Some (vectorPtr cacheEntry))).
  set (filtered0 := entries match vectorPtr cacheEntry with
                            | Some v => v
                            | None => {| entries := replicate (Z.to_nat numElements) dummyEntry;
                                         missingIndices := [] |}
                            end).
  set (f0 := {| fMask := coverageMask; fStatistics := statistics;
                fFiltered := filtered0; fI := 0 |}).
  set (f1 := fold_left (discardUncovered labelMatrix weights aliased (entries vector)
                                         numConditions')
                       (positions 0 conditionEnd) f0).
  destruct (discardUncovered_loop aliased (entries vector) numConditions'
              (positions 0 conditionEnd) f0) as [HF1 HI1].
  fold f1 in HF1, HI1. cbn [f0 fFiltered fI] in HF1, HI1.
  rewrite (not_neq conditionComparator) by exact Hcmp.
  assert (Hlen0 : (Z.to_nat numElements <= length filtered0)%nat).
  { subst filtered0. destruct Hptr as [-> | ->]; cbn [entries].
    - rewrite length_replicate. lia.
    - lia. }
  destruct (copy_loop aliased (entries vector) (moveEntry aliased (entries vector))
              ltac:(reflexivity) ltac:(reflexivity)
              (Z.to_nat (n - conditionEnd)) conditionEnd (setI 0 f1)) as (HI & HL & HP).
  - cbn. lia.
  - lia.
  - exact Hmod.
  - intros Hal r' Hr. cbn [setI fFiltered]. rewrite HF1. subst aliased filtered0.
    destruct Hptr as [Hn | Hs]; rewrite ?Hn, ?Hs in *; [discriminate Hal | reflexivity].
  - cbn zeta in HI, HL, HP.
    replace (conditionEnd + Z.of_nat (Z.to_nat (n - conditionEnd))) with n in * by lia.
    cbn [setI fFiltered fI] in HL, HP. rewrite HF1 in HL, HP.
    destruct (discardMissing_loop numConditions' (missingIndices vector)
                (fold_left (moveEntry aliased (entries vector)) (positions conditionEnd n)
                           (setI 0 f1))) as [HFm _].
    rewrite HFm.
    rewrite resize_take by (rewrite HL; exact Hlen0).
    apply list_eq. intros p. rewrite lookup_drop.
    destruct (decide (p < Z.to_nat numElements)%nat) as [Hp|Hp].
    + rewrite lookup_take_lt by exact Hp. rewrite HP.
      rewrite bool_decide_eq_true_2 by lia.
      rewrite bool_decide_eq_true_2 by lia. cbn [andb]. f_equal. lia.
    + rewrite lookup_take_ge by lia. symmetry. apply lookup_ge_None. lia.
Qed.

(** X19.  With a condition of a numerical feature that keeps the
    complement of the suffix of the feature vector after [conditionEnd]
    (found by the descending sweep, which starts at the last entry),
    [filterCurrentVector] leaves exactly the entries up to and including
    [conditionEnd] in the filtered vector, in their order, whether the
    vector is new or filtered in place. *)
Theorem filterCurrentVector_uncovered_suffix_keeps_the_prefix
    (vector : FeatureVector) (cacheEntry : FilteredCacheEntry)
    (conditionEnd : Z) (conditionComparator : Comparator)
    (numConditions' : Z) (coverageMask : CoverageMask) (statistics : Statistics) :
  (vectorPtr cacheEntry = None \/ vectorPtr cacheEntry = Some vector) ->
  getNumElements vector < modulus ->
  conditionComparator <> NEQ ->
  -1 <= conditionEnd < getNumElements vector - 1 ->
  exists v,
    fst (fst (filterCurrentVector labelMatrix weights vector cacheEntry
                                  (getNumElements vector - 1) conditionEnd
                                  conditionComparator false numConditions'
                                  coverageMask statistics))
    = {| vectorPtr := Some v; numConditions := numConditions' |} /\
    entries v = take (Z.to_nat (conditionEnd + 1)) (entries vector).
Proof.
  intros Hptr Hmod Hcmp Hend. unfold getNumElements in *.
  unfold filterCurrentVector. cbn zeta. unfold getNumElements.
  set (n := Z.of_nat (length (entries vector))) in *.
  assert (Hdesc : (conditionEnd <? n - 1) = true) by (apply Z.ltb_lt; lia).
  rewrite Hdesc.
  replace (wrap32 (Z.abs (n - 1 - conditionEnd))) with (n - 1 - conditionEnd)
    by (rewrite wrap32_small by (unfold modulus in *; lia); lia).
  cbn [fst].
  eexists. split; [reflexivity|]. cbn [entries].
  set (numElements := if n - 1 - conditionEnd <? n then n - (n - 1 - conditionEnd) else 0).
  assert (Hnum : numElements = conditionEnd + 1).
  { subst numElements. destruct (n - 1 - conditionEnd <? n) eqn:E; [lia|].
    apply Z.ltb_ge in E. lia. }
  set (aliased := bool_decide (is_Some (vectorPtr cacheEntry))).
  set (filtered0 := entries match vectorPtr cacheEntry with
                            | Some v => v
                            | None => {| entries := replicate (Z.to_nat numElements) dummyEntry;
                                         missingIndices := [] |}
                            end).
  set (f0 := {| fMask := coverageMask; fStatistics := statistics;
                fFiltered := filtered0; fI := 0 |}).
  set (f1 := fold_left (discardUncovered labelMatrix weights aliased (entries vector)
                                         numConditions')
                       (positions (conditionEnd + 1) (n - 1 + 1)) f0).
  destruct (discardUncovered_loop aliased (entries vector) numConditions'
              (positions (conditionEnd + 1) (n - 1 + 1)) f0) as [HF1 HI1].
  fold f1 in HF1, HI1. cbn [f0 fFiltered fI] in HF1, HI1.
  rewrite (not_neq conditionComparator) by exact Hcmp.
  assert (Hlen0 : (Z.to_nat numElements <= length filtered0)%nat).
  { subst filtered0. destruct Hptr as [-> | ->]; cbn [entries].
    - rewrite length_replicate. lia.
    - lia. }
  destruct (copy_loop aliased (entries vector) (moveEntry aliased (entries vector))
              ltac:(reflexivity) ltac:(reflexivity)
              (Z.to_nat (conditionEnd + 1)) 0 (setI 0 f1)) as (HI & HL & HP).
  - cbn. lia.
  - lia.
  - exact Hmod.
  - intros Hal r' Hr. cbn [setI fFiltered]. rewrite HF1. subst aliased filtered0.
    destruct Hptr as [Hn | Hs]; rewrite ?Hn, ?Hs in *; [discriminate Hal | reflexivity].
  - cbn zeta in HI, HL, HP.
    replace (0 + Z.of_nat (Z.to_nat (conditionEnd + 1))) with (conditionEnd + 1) in * by lia.
    cbn [setI fFiltered fI] in HL, HP. rewrite HF1 in HL, HP.
    destruct (discardMissing_loop numConditions' (missingIndices vector)
                (fold_left (moveEntry aliased (entries vector))
                           (positions 0 (conditionEnd + 1)) (setI 0 f1))) as [HFm _].
    rewrite HFm.
    rewrite resize_take by (rewrite HL; exact Hlen0).
    rewrite Hnum.
    apply list_eq. intros p.
    destruct (decide (p < Z.to_nat (conditionEnd + 1))%nat) as [Hp|Hp].
    + rewrite !lookup_take_lt by exact Hp. rewrite HP.
      rewrite bool_decide_eq_true_2 by lia.
      rewrite bool_decide_eq_true_2 by lia. cbn [andb]. f_equal. lia.
    + rewrite !lookup_take_ge by lia. reflexivity.
Qed.

End FilteredEntries.

Lemma filterCurrentVector_covered_keeps_the_range_witness :
  exists v,
    fst (fst (filterCurrentVector PerfectRule.labelMatrix PerfectRule.weights
                SortedValues.featureVector
                {| vectorPtr := Some SortedValues.featureVector; numConditions := 0 |}
                1 3 LEQ true 1 (newCoverageMask 6)
                (newStatistics PerfectRule.labelMatrix [0; 0; 0])))
    = {| vectorPtr := Some v; numConditions := 1 |} /\
    entries v = take (Z.to_nat (3 - 1)) (drop (Z.to_nat 1) (entries SortedValues.featureVector)).
Proof.
  apply (filterCurrentVector_covered_keeps_the_range
           PerfectRule.labelMatrix PerfectRule.weights SortedValues.featureVector
           {| vectorPtr := Some SortedValues.featureVector; numConditions := 0 |}
           1 3 LEQ 1 (newCoverageMask 6) (newStatistics PerfectRule.labelMatrix [0; 0; 0])).
  - right. reflexivity.
  - reflexivity.
  - simpl. lia.
  - unfold getNumElements. simpl. lia.
Defined.

Lemma filterCurrentVector_uncovered_prefix_keeps_the_suffix_witness :
  exists v,
    fst (fst (filterCurrentVector PerfectRule.labelMatrix PerfectRule.weights
                SortedValues.featureVector newFilteredCacheEntry
                0 2 GR false 1 (newCoverageMask 6)
                (newStatistics PerfectRule.labelMatrix [0; 0; 0])))
    = {| vectorPtr := Some v; numConditions := 1 |} /\
    entries v = drop (Z.to_nat 2) (entries SortedValues.featureVector).
Proof.
  apply (filterCurrentVector_uncovered_prefix_keeps_the_suffix
           PerfectRule.labelMatrix PerfectRule.weights SortedValues.featureVector
           newFilteredCacheEntry 2 GR 1 (newCoverageMask 6)
           (newStatistics PerfectRule.labelMatrix [0; 0; 0])).
  - left. reflexivity.
  - reflexivity.
  - discriminate.
  - unfold getNumElements. simpl. lia.
Defined.

Lemma filterCurrentVector_uncovered_suffix_keeps_the_prefix_witness :
  exists v,
    fst (fst (filterCurrentVector PerfectRule.labelMatrix PerfectRule.weights
                SortedValues.featureVector
                {| vectorPtr := Some SortedValues.featureVector; numConditions := 0 |}
                (getNumElements SortedValues.featureVector - 1) 2 LEQ false 1
                (newCoverageMask 6) (newStatistics PerfectRule.labelMatrix [0; 0; 0])))
    = {| vectorPtr := Some v; numConditions := 1 |} /\
    entries v = take (Z.to_nat (2 + 1)) (entries SortedValues.featureVector).
Proof.
  apply (filterCurrentVector_uncovered_suffix_keeps_the_prefix
           PerfectRule.labelMatrix PerfectRule.weights SortedValues.featureVector
           {| vectorPtr := Some SortedValues.featureVector; numConditions := 0 |}
           2 LEQ 1 (newCoverageMask 6) (newStatistics PerfectRule.labelMatrix [0; 0; 0])).
  - right. reflexivity.
  - reflexivity.
  - discriminate.
  - unfold getNumElements. simpl. lia.
Defined.

(** The loop of [filterAnyVector]: the entries that are covered are moved
    to the front, in their order. *)
Lemma keepCovered_loop (aliased : bool) (input : list IndexedValue) (mask : CoverageMask)
    (n : nat) (k : Z) (acc : list IndexedValue * Z) :
  0 <= snd acc <= k ->
  k + Z.of_nat n = Z.of_nat (length input) ->
  Z.of_nat (length input) < modulus ->
  length (fst acc) = length input ->
  (aliased = true ->
   forall r', k <= r' -> fst acc !! Z.to_nat r' = input !! Z.to_nat r') ->
  let acc' := fold_left (keepCovered aliased input mask) (positions k (k + Z.of_nat n)) acc in
  take (Z.to_nat (snd acc')) (fst acc') =
    take (Z.to_nat (snd acc)) (fst acc)
    ++ filter (fun e => isCovered mask (index e) = true) (drop (Z.to_nat k) input)
  /\ 0 <= snd acc' <= k + Z.of_nat n
  /\ length (fst acc') = length input.
Proof.
  revert k acc. induction n as [|n IH]; intros k [filtered i] Hi Hk Hmod Hlen Hsame;
    cbn [fst snd] in *; cbn zeta.
  - rewrite positions_nil by lia. cbn [fold_left fst snd].
    rewrite drop_ge by lia. rewrite filter_nil, app_nil_r.
    split; [reflexivity|]. split; [lia | exact Hlen].
  - rewrite positions_cons by lia. cbn [fold_left].
    replace (k + Z.of_nat (S n)) with (k + 1 + Z.of_nat n) by lia.
    destruct (input !! Z.to_nat k) as [x|] eqn:Ex;
      [|apply lookup_ge_None in Ex; lia].
    assert (Hread : readEntry (if aliased then filtered else input) k = x).
    { unfold readEntry. destruct aliased; [rewrite Hsame by (reflexivity || lia)|];
        rewrite Ex; reflexivity. }
    assert (Hdrop : drop (Z.to_nat k) input = x :: drop (Z.to_nat (k + 1)) input).
    { replace (Z.to_nat (k + 1)) with (S (Z.to_nat k)) by lia.
      apply drop_S. exact Ex. }
    assert (Hstep : keepCovered aliased input mask (filtered, i) k =
                    if isCovered mask (index x)
                    then (writeEntry filtered i x, add i 1) else (filtered, i)).
    { unfold keepCovered. cbn [fst snd]. rewrite Hread. reflexivity. }
    rewrite Hstep, Hdrop.
    destruct (isCovered mask (index x)) eqn:Ec.
    + destruct (IH (k + 1) (writeEntry filtered i x, add i 1)) as (HT & HI & HL);
        cbn [fst snd].
      * unfold add. rewrite wrap32_small by (unfold modulus in *; lia). lia.
      * lia.
      * exact Hmod.
      * unfold writeEntry. rewrite length_insert. exact Hlen.
      * intros Hal r' Hr. unfold writeEntry.
        rewrite list_lookup_insert_ne by lia. apply Hsame; [exact Hal | lia].
      * cbn zeta in HT, HI, HL. cbn [fst snd] in HT, HI, HL.
        split; [|split; [lia | exact HL]].
        rewrite HT. rewrite filter_cons_True by exact Ec.
        unfold add. rewrite wrap32_small by (unfold modulus in *; lia).
        replace (Z.to_nat (i + 1)) with (S (Z.to_nat i)) by lia.
        unfold writeEntry.
        rewrite (take_S_r _ _ x) by (apply list_lookup_insert_eq; lia).
        rewrite take_insert_ge by lia.
        rewrite <- app_assoc. reflexivity.
    + destruct (IH (k + 1) (filtered, i)) as (HT & HI & HL); cbn [fst snd].
      * lia.
      * lia.
      * exact Hmod.
      * exact Hlen.
      * intros Hal r' Hr. apply Hsame; [exact Hal | lia].
      * cbn zeta in HT, HI, HL. cbn [fst snd] in HT, HI, HL.
        split; [|split; [lia | exact HL]].
        rewrite HT. rewrite filter_cons_False by (rewrite Ec; discriminate). reflexivity.
Qed.

(** X20.  [filterAnyVector] leaves in the filtered vector exactly the
    entries of the feature vector whose example the coverage mask marks as
    covered, in their order; this holds when a new vector is allocated and
    also when the vector is filtered in place. *)
Theorem filterAnyVector_keeps_the_covered_entries
    (vector : FeatureVector) (cacheEntry : FilteredCacheEntry) (numConditions' : Z)
    (coverageMask : CoverageMask) :
  (vectorPtr cacheEntry = None \/ vectorPtr cacheEntry = Some vector) ->
  getNumElements vector < modulus ->
  exists v,
    filterAnyVector vector cacheEntry numConditions' coverageMask
    = {| vectorPtr := Some v; numConditions := numConditions' |} /\
    entries v = filter (fun e => isCovered coverageMask (index e) = true) (entries vector).
Proof.
  intros Hptr Hmod. unfold getNumElements in Hmod. unfold filterAnyVector, getNumElements.
  set (aliased := bool_decide (is_Some (vectorPtr cacheEntry))).
  set (filtered0 := match vectorPtr cacheEntry with
                    | Some v => entries v
                    | None => replicate (Z.to_nat (Z.of_nat (length (entries vector)))) dummyEntry
                    end).
  destruct (keepCovered_loop aliased (entries vector) coverageMask
              (length (entries vector)) 0 (filtered0, 0)) as (HT & HI & HL); cbn [fst snd].
  - lia.
  - lia.
  - exact Hmod.
  - subst filtered0. destruct Hptr as [-> | ->]; [rewrite length_replicate; lia | reflexivity].
  - intros Hal r' Hr. subst aliased filtered0.
    destruct Hptr as [Hn | Hs]; rewrite ?Hn, ?Hs in *; [discriminate Hal | reflexivity].
  - cbn zeta in HT, HI, HL. rewrite Z.add_0_l in *.
    destruct (fold_left _ _ _) as [filtered i]. cbn [fst snd] in *.
    eexists. split; [reflexivity|]. cbn [entries].
    rewrite resize_take by lia. rewrite HT. cbn [Z.to_nat take drop app]. reflexivity.
Qed.

Lemma filterAnyVector_keeps_the_covered_entries_witness :
  exists v,
    filterAnyVector SortedValues.featureVector
                    {| vectorPtr := Some SortedValues.featureVector; numConditions := 0 |}
                    1 {| marks := [1; 0; 1; 1; 0]; target := 1 |}
    = {| vectorPtr := Some v; numConditions := 1 |} /\
    entries v = filter (fun e => isCovered {| marks := [1; 0; 1; 1; 0]; target := 1 |}
                                           (index e) = true)
                       (entries SortedValues.featureVector).
Proof.
  apply (filterAnyVector_keeps_the_covered_entries SortedValues.featureVector
           {| vectorPtr := Some SortedValues.featureVector; numConditions := 0 |}
           1 {| marks := [1; 0; 1; 1; 0]; target := 1 |}).
  - right. reflexivity.
  - reflexivity.
Defined.

(** ** What the statistics count after a covering condition *)

Section FilteredStatistics.

Variable labelMatrix : LabelMatrix.
Variable weights : list Z.

(** The body of the loop of the branch [covered], given the entry it
    reads. *)
Local Abbreviation retainEntry numConditions' :=
  (fun (f : Filtering) (e : IndexedValue) =>
     {| fMask := mark (fMask f) (index e) numConditions';
        fFiltered := writeEntry (fFiltered f) (fI f) e;
        fStatistics :=
          updateCoveredStatistic labelMatrix (fStatistics f) (index e)
                                 (getWeight weights (index e)) false;
        fI := add (fI f) 1 |}).

(** The loop over the positions of the range reads the entries of the
    range of the input, one after the other, also when it writes to the
    array it reads. *)
Lemma retainCovered_loop (aliased : bool) (input : list IndexedValue) (numConditions' : Z)
    (n : nat) (a : Z) (f : Filtering) :
  0 <= fI f <= a ->
  a + Z.of_nat n <= Z.of_nat (length input) ->
  Z.of_nat (length input) < modulus ->
  (aliased = true ->
   forall r', a <= r' < a + Z.of_nat n ->
              fFiltered f !! Z.to_nat r' = input !! Z.to_nat r') ->
  fold_left (retainCovered labelMatrix weights aliased input numConditions')
            (positions a (a + Z.of_nat n)) f
  = fold_left (retainEntry numConditions') (take n (drop (Z.to_nat a) input)) f.
Proof.
  revert a f. induction n as [|n IH]; intros a f Hi Hlen Hmod Hsame.
  - rewrite positions_nil by lia. reflexivity.
  - rewrite positions_cons by lia.
    replace (a + Z.of_nat (S n)) with (a + 1 + Z.of_nat n) by lia.
    destruct (input !! Z.to_nat a) as [x|] eqn:Ex;
      [|apply lookup_ge_None in Ex; lia].
    assert (Hread : readEntry (source aliased input f) a = x).
    { unfold readEntry, source. destruct aliased; [rewrite Hsame by (reflexivity || lia)|];
        rewrite Ex; reflexivity. }
    rewrite (drop_S _ x _ Ex). cbn [take fold_left].
    replace (S (Z.to_nat a)) with (Z.to_nat (a + 1)) by lia.
    assert (Hstep : retainCovered labelMatrix weights aliased input numConditions' f a =
                    retainEntry numConditions' f x).
    { unfold retainCovered. rewrite Hread. reflexivity. }
    rewrite Hstep. apply IH.
    + cbn [fI]. unfold add. rewrite wrap32_small by (unfold modulus in *; lia). lia.
    + lia.
    + exact Hmod.
    + intros Hal r' Hr. cbn [fFiltered]. unfold writeEntry.
      rewrite list_lookup_insert_ne by lia. apply Hsame; [exact Hal | lia].
Qed.

Lemma retainEntry_statistics numConditions' (l : list IndexedValue) (f : Filtering) :
  fStatistics (fold_left (retainEntry numConditions') l f) =
  fold_left (fun st e => updateCoveredStatistic labelMatrix st (index e)
                                                (getWeight weights (index e)) false)
            l (fStatistics f).
Proof.
  revert f. induction l as [|e l IH]; intros f; [reflexivity|].
  cbn [fold_left]. rewrite IH. reflexivity.
Qed.

(** Adding the examples of a list of entries to the total predictions:
    the counter of a time slot grows by the number of entries of the slot
    whose example no committed rule covers. *)
Lemma added_statistics (l : list IndexedValue) (st : Statistics) (t : Z) :
  (forall e, e ∈ l ->
             0 <= rd (timeSlots labelMatrix) (index e)
               < Z.of_nat (length (totalPredictionVector st))) ->
  0 <= t < Z.of_nat (length (totalPredictionVector st)) ->
  let st' := fold_left (fun st e => updateCoveredStatistic labelMatrix st (index e)
                                                           (getWeight weights (index e)) false)
                       l st in
  coverageCountVector st' = coverageCountVector st /\
  length (totalPredictionVector st') = length (totalPredictionVector st) /\
  wrap32 (rd (totalPredictionVector st') t) =
  wrap32 (rd (totalPredictionVector st) t
          + Z.of_nat (length (filter (fun e => rd (timeSlots labelMatrix) (index e) = t /\
                                               rd (coverageCountVector st) (index e) = 0)
                                     l))).
Proof.
  revert st. induction l as [|e l IH]; intros st Hslots Ht; cbn zeta.
  - cbn [fold_left]. rewrite filter_nil. cbn [length].
    split; [reflexivity|]. split; [reflexivity|]. f_equal. lia.
  - cbn [fold_left].
    set (st1 := updateCoveredStatistic labelMatrix st (index e)
                                       (getWeight weights (index e)) false).
    assert (Hcc : coverageCountVector st1 = coverageCountVector st).
    { subst st1. unfold updateCoveredStatistic. destruct (_ =? 0); reflexivity. }
    assert (Hl1 : length (totalPredictionVector st1) = length (totalPredictionVector st)).
    { subst st1. unfold updateCoveredStatistic. destruct (_ =? 0); [|reflexivity].
      cbn [totalPredictionVector]. apply length_wr. }
    destruct (IH st1) as (Hc & Hl & Hsum).
    { intros e' He'. rewrite Hl1. apply Hslots. right. exact He'. }
    { rewrite Hl1. exact Ht. }
    cbn zeta in Hc, Hl, Hsum.
    split; [congruence|]. split; [congruence|].
    rewrite Hsum, Hcc. clear IH Hsum Hc Hl.
    pose proof (Hslots e ltac:(left)) as Hts.
    subst st1. unfold updateCoveredStatistic.
    destruct (rd (coverageCountVector st) (index e) =? 0) eqn:Ez;
      [apply Z.eqb_eq in Ez | apply Z.eqb_neq in Ez].
    + cbn [totalPredictionVector].
      destruct (decide (rd (timeSlots labelMatrix) (index e) = t)) as [Heq|Hne].
      * rewrite filter_cons_True by (split; assumption). cbn [length].
        rewrite Heq. rewrite rd_wr_eq by exact Ht.
        unfold add, wrap32. rewrite Zplus_mod_idemp_l. f_equal. lia.
      * rewrite filter_cons_False by (intros [H _]; contradiction).
        rewrite rd_wr_ne by lia. reflexivity.
    + rewrite filter_cons_False by (intros [_ H]; contradiction). reflexivity.
Qed.

Lemma added_statistics_in_range (l : list IndexedValue) (st : Statistics) :
  Forall in_range (totalPredictionVector st) ->
  Forall in_range
    (totalPredictionVector
       (fold_left (fun st e => updateCoveredStatistic labelMatrix st (index e)
                                                      (getWeight weights (index e)) false)
                  l st)).
Proof.
  apply (fold_left_invariant (fun st => Forall in_range (totalPredictionVector st))).
  intros a e Ha. unfold updateCoveredStatistic.
  destruct (_ =? 0); [|exact Ha]. cbn [totalPredictionVector]. unfold wr.
  apply Forall_insert; [exact Ha|]. apply wrap32_range.
Qed.

(** X21.  After [filterCurrentVector] has applied a condition that covers
    the range [first, last) of the feature vector, the total prediction of
    every time slot is its prediction plus the number of entries of that
    range that belong to the slot and whose example no committed rule
    covers (coverage count 0), modulo 2^32; the weights play no part. *)
Theorem filterCurrentVector_covered_counts_the_range
    (vector : FeatureVector) (cacheEntry : FilteredCacheEntry)
    (conditionStart conditionEnd : Z) (conditionComparator : Comparator)
    (numConditions' : Z) (coverageMask : CoverageMask) (statistics : Statistics) (t : Z) :
  (vectorPtr cacheEntry = None \/ vectorPtr cacheEntry = Some vector) ->
  getNumElements vector < modulus ->
  let descending := conditionEnd <? conditionStart in
  let first := if descending then conditionEnd + 1 else conditionStart in
  let last := if descending then conditionStart + 1 else conditionEnd in
  let range := take (Z.to_nat (last - first)) (drop (Z.to_nat first) (entries vector)) in
  0 <= first -> last <= getNumElements vector ->
  length (totalPredictionVector statistics) = length (predictionVector statistics) ->
  Forall in_range (predictionVector statistics) ->
  (forall e, e ∈ range ->
             0 <= rd (timeSlots labelMatrix) (index e)
               < Z.of_nat (length (predictionVector statistics))) ->
  0 <= t < Z.of_nat (length (predictionVector statistics)) ->
  rd (totalPredictionVector
        (snd (filterCurrentVector labelMatrix weights vector cacheEntry conditionStart
                                  conditionEnd conditionComparator true numConditions'
                                  coverageMask statistics))) t
  = wrap32 (rd (predictionVector statistics) t
            + Z.of_nat (length (filter
                                  (fun e => rd (timeSlots labelMatrix) (index e) = t /\
                                            rd (coverageCountVector statistics) (index e) = 0)
                                  range))).
Proof.
  intros Hptr Hmod descending first last range Hfirst Hlast Hlen Hpred Hslots Ht.
  unfold getNumElements in *.
  assert (Hle : first <= last).
  { subst first last descending.
    destruct (conditionEnd <? conditionStart) eqn:E;
      [apply Z.ltb_lt in E | apply Z.ltb_ge in E]; lia. }
  unfold filterCurrentVector. cbn zeta. fold descending. fold first. fold last.
  cbn [snd].
  set (aliased := bool_decide (is_Some (vectorPtr cacheEntry))).
  match goal with
  | |- context [fold_left _ _ ?f] => set (f1 := f)
  end.
  replace last with (first + Z.of_nat (Z.to_nat (last - first))) at 1 by lia.
  rewrite retainCovered_loop.
  - rewrite retainEntry_statistics. fold range. cbn [f1 fStatistics].
    assert (Hreset : totalPredictionVector (resetCoveredStatistics statistics) =
                     predictionVector statistics).
    { cbn [resetCoveredStatistics totalPredictionVector]. apply copyArray_all. congruence. }
    destruct (added_statistics range (resetCoveredStatistics statistics) t)
      as (_ & Hl & Hsum).
    + rewrite Hreset. exact Hslots.
    + rewrite Hreset. exact Ht.
    + cbn zeta in Hl, Hsum. rewrite Hreset in Hl, Hsum.
      cbn [resetCoveredStatistics coverageCountVector] in Hsum.
      rewrite <- Hsum. symmetry. apply wrap32_small.
      apply rd_in_range. apply added_statistics_in_range.
      rewrite Hreset. exact Hpred.
  - cbn. lia.
  - lia.
  - exact Hmod.
  - intros Hal r' Hr. subst aliased f1. cbn [fFiltered].
    destruct Hptr as [Hn | Hs]; rewrite ?Hn, ?Hs in *; [discriminate Hal | reflexivity].
Qed.

End FilteredStatistics.

Lemma filterCurrentVector_covered_counts_the_range_witness :
  rd (totalPredictionVector
        (snd (filterCurrentVector PerfectRule.labelMatrix PerfectRule.weights
                SortedValues.featureVector
                {| vectorPtr := Some SortedValues.featureVector; numConditions := 0 |}
                1 3 LEQ true 1 (newCoverageMask 6)
                (newStatistics PerfectRule.labelMatrix [0; 0; 0])))) 0
  = wrap32 (rd (predictionVector (newStatistics PerfectRule.labelMatrix [0; 0; 0])) 0
            + Z.of_nat
                (length
                   (filter
                      (fun e => rd (timeSlots PerfectRule.labelMatrix) (index e) = 0 /\
                                rd (coverageCountVector
                                      (newStatistics PerfectRule.labelMatrix [0; 0; 0]))
                                   (index e) = 0)
                      (take (Z.to_nat (3 - 1))
                            (drop (Z.to_nat 1) (entries SortedValues.featureVector)))))).
Proof.
  apply (filterCurrentVector_covered_counts_the_range
           PerfectRule.labelMatrix PerfectRule.weights SortedValues.featureVector
           {| vectorPtr := Some SortedValues.featureVector; numConditions := 0 |}
           1 3 LEQ 1 (newCoverageMask 6) (newStatistics PerfectRule.labelMatrix [0; 0; 0]) 0).
  - right. reflexivity.
  - reflexivity.
  - simpl. lia.
  - unfold getNumElements. simpl. lia.
  - reflexivity.
  - repeat constructor; unfold modulus; simpl; lia.
  - intros e He. cbn in He.
    apply elem_of_cons in He. destruct He as [-> | He].
    { vm_compute. split; [discriminate | reflexivity]. }
    apply elem_of_cons in He. destruct He as [-> | He].
    { vm_compute. split; [discriminate | reflexivity]. }
    apply elem_of_nil in He. contradiction.
  - simpl. lia.
Defined.

(** ** Dense vectors *)

Section DenseVectorFacts.

Variable T : Type.

(** The block of a vector has [maxCapacity_] elements, of which the first
    [numElements_] are in use. *)
Local Abbreviation wellFormed v :=
  (length (array_ v) = Z.to_nat (maxCapacity_ v) /\ 0 <= numElements_ v <= maxCapacity_ v).

(** X22.  [setNumElements] sets the number of elements and keeps the
    block in step with it: the capacity becomes the new number of elements
    when memory is to be freed, and the larger of the old capacity and the
    new number of elements otherwise; the elements of the old block are
    kept up to the smaller of the old capacity and the new number of
    elements. *)
Theorem setNumElements_keeps_the_elements
    (v : DenseVector T) (numElements : Z) (freeMemory : bool) (uninitialised : list T) :
  wellFormed v ->
  0 <= numElements ->
  (Z.to_nat (numElements - maxCapacity_ v) <= length uninitialised)%nat ->
  let v' := setNumElements v numElements freeMemory uninitialised in
  wellFormed v' /\
  numElements_ v' = numElements /\
  maxCapacity_ v' = (if freeMemory then numElements
                     else Z.max (maxCapacity_ v) numElements) /\
  forall i : nat, (i < Z.to_nat (Z.min numElements (maxCapacity_ v)))%nat ->
                  array_ v' !! i = array_ v !! i.
Proof.
  intros [Hlen Hnum] Hn Hfresh. cbn zeta. unfold setNumElements.
  destruct (numElements <? maxCapacity_ v) eqn:E1;
    [apply Z.ltb_lt in E1 | apply Z.ltb_ge in E1].
  - destruct freeMemory; cbn [array_ numElements_ maxCapacity_].
    + unfold realloc. replace (Z.to_nat numElements - length (array_ v))%nat with 0%nat by lia.
      cbn [take]. rewrite app_nil_r.
      split; [split; [rewrite length_take; lia | lia]|].
      split; [reflexivity|]. split; [reflexivity|].
      intros i Hi. apply lookup_take_lt. lia.
    + split; [split; [exact Hlen | lia]|].
      split; [reflexivity|]. split; [lia|]. intros i Hi. reflexivity.
  - destruct (maxCapacity_ v <? numElements) eqn:E2;
      [apply Z.ltb_lt in E2 | apply Z.ltb_ge in E2];
      cbn [array_ numElements_ maxCapacity_].
    + unfold realloc. rewrite take_ge by lia.
      split; [split; [rewrite length_app, length_take; lia | lia]|].
      split; [reflexivity|]. split; [destruct freeMemory; lia|].
      intros i Hi. apply lookup_app_l. lia.
    + split; [split; [exact Hlen | lia]|].
      split; [reflexivity|]. split; [destruct freeMemory; lia|].
      intros i Hi. reflexivity.
Qed.

(** X23.  Shrinking a vector without freeing memory loses nothing:
    setting the number of elements to any number up to the capacity and
    back to what it was, both times with [freeMemory] false, gives the
    vector back, block and capacity included. *)
Theorem setNumElements_shrink_and_restore
    (v : DenseVector T) (numElements : Z) (uninitialised uninitialised' : list T) :
  0 <= numElements_ v <= maxCapacity_ v ->
  0 <= numElements <= maxCapacity_ v ->
  setNumElements (setNumElements v numElements false uninitialised)
                 (numElements_ v) false uninitialised' = v.
Proof.
  intros Hnum Hm. unfold setNumElements.
  destruct (numElements <? maxCapacity_ v) eqn:E1;
    [apply Z.ltb_lt in E1 | apply Z.ltb_ge in E1].
  - cbn [array_ numElements_ maxCapacity_].
    destruct (numElements_ v <? maxCapacity_ v) eqn:E2;
      [|assert (E3 : (maxCapacity_ v <? numElements_ v) = false) by (apply Z.ltb_ge; lia);
        rewrite E3]; destruct v; reflexivity.
  - assert (E0 : (maxCapacity_ v <? numElements) = false) by (apply Z.ltb_ge; lia).
    rewrite E0. cbn [array_ numElements_ maxCapacity_].
    destruct (numElements_ v <? maxCapacity_ v) eqn:E2;
      [|assert (E3 : (maxCapacity_ v <? numElements_ v) = false) by (apply Z.ltb_ge; lia);
        rewrite E3]; destruct v; reflexivity.
Qed.

End DenseVectorFacts.

Lemma setNumElements_keeps_the_elements_witness :
  let v := newDenseVector 0 3 true [] in
  let v' := setNumElements v 5 false [7; 8; 9] in
  (length (array_ v') = Z.to_nat (maxCapacity_ v') /\ 0 <= numElements_ v' <= maxCapacity_ v') /\
  numElements_ v' = 5 /\
  maxCapacity_ v' = Z.max (maxCapacity_ v) 5 /\
  forall i : nat, (i < Z.to_nat (Z.min 5 (maxCapacity_ v)))%nat ->
                  array_ v' !! i = array_ v !! i.
Proof.
  intros v.
  apply (setNumElements_keeps_the_elements Z v 5 false [7; 8; 9]).
  - split; [reflexivity | cbn; lia].
  - lia.
  - cbn. lia.
Defined.

Lemma setNumElements_shrink_and_restore_witness :
  let v := newDenseVector 0 3 true [] in
  setNumElements (setNumElements v 1 false []) (numElements_ v) false [] = v.
Proof.
  intros v.
  apply (setNumElements_shrink_and_restore Z v 1 [] []).
  - cbn. lia.
  - cbn. lia.
Defined.

(** ** Operations on arrays *)

Section ArrayFacts.

Variable T : Type.
Variable tsub tadd : T -> T -> T.
Variable outside : T.

(** A loop that writes to every position of a range a value computed from
    the position and from what the array holds there, position by
    position. *)
Lemma write_loop (g : T -> Z -> T) (n : nat) (k : Z) (a : list T) (p : Z) :
  0 <= k -> 0 <= p ->
  at_ outside
      (fold_left (fun a i => <[Z.to_nat i := g (at_ outside a i) i]> a)
                 (positions k (k + Z.of_nat n)) a) p
  = if bool_decide (k <= p < k + Z.of_nat n) && bool_decide (Z.to_nat p < length a)%nat
    then g (at_ outside a p) p
    else at_ outside a p.
Proof.
  revert k a. induction n as [|n IH]; intros k a Hk Hp.
  - rewrite positions_nil by lia. cbn [fold_left].
    rewrite bool_decide_eq_false_2 by lia. reflexivity.
  - rewrite positions_cons by lia. cbn [fold_left].
    replace (k + Z.of_nat (S n)) with (k + 1 + Z.of_nat n) by lia.
    rewrite IH by lia. rewrite length_insert.
    destruct (bool_decide (Z.to_nat p < length a)%nat) eqn:El.
    + apply bool_decide_eq_true in El. rewrite !andb_true_r.
      destruct (decide (p = k)) as [->|Hne].
      * rewrite bool_decide_eq_false_2 by lia. rewrite bool_decide_eq_true_2 by lia.
        unfold at_ at 1. rewrite list_lookup_insert_eq by exact El. reflexivity.
      * assert (Hat : at_ outside (<[Z.to_nat k := g (at_ outside a k) k]> a) p =
                      at_ outside a p).
        { unfold at_ at 1 3. rewrite list_lookup_insert_ne by lia. reflexivity. }
        rewrite Hat.
        destruct (bool_decide (k + 1 <= p < k + 1 + Z.of_nat n)) eqn:E1.
        -- apply bool_decide_eq_true in E1. rewrite bool_decide_eq_true_2 by lia. reflexivity.
        -- apply bool_decide_eq_false in E1. rewrite bool_decide_eq_false_2 by lia.
           reflexivity.
    + apply bool_decide_eq_false in El. rewrite !andb_false_r.
      unfold at_. rewrite !lookup_ge_None_2 by (rewrite ?length_insert; lia). reflexivity.
Qed.

Lemma length_write_loop (f : list T -> Z -> T) (l : list Z) (a : list T) :
  length (fold_left (fun a i => <[Z.to_nat i := f a i]> a) l a) = length a.
Proof.
  revert a. induction l as [|i l IH]; intros a; [reflexivity|].
  cbn [fold_left]. rewrite IH. apply length_insert.
Qed.

(** X24.  Setting an array to the difference of two arrays and adding the
    second of them again gives the first: at every position below
    [numElements] at which adding undoes subtracting (as it does for
    unsigned integers, which wrap around), the array holds the element of
    [b]; the positions from [numElements] on are left as they were. *)
Theorem difference_then_sum_restores
    (a b c : list T) (numElements i : Z) :
  (Z.to_nat numElements <= length a)%nat ->
  0 <= i ->
  (i < numElements ->
   tadd (tsub (at_ outside b i) (at_ outside c i)) (at_ outside c i) = at_ outside b i) ->
  at_ outside
      (addToArray tadd outside (setArrayToDifference tsub outside a b c numElements) c
                  numElements) i
  = if i <? numElements then at_ outside b i else at_ outside a i.
Proof.
  intros Hlen Hi Hlaw. unfold addToArray, setArrayToDifference.
  destruct (Z.le_gt_cases numElements 0) as [Hn|Hn].
  - rewrite !positions_nil by lia. cbn [fold_left].
    assert (E : (i <? numElements) = false) by (apply Z.ltb_ge; lia).
    rewrite E. reflexivity.
  - replace numElements with (0 + Z.of_nat (Z.to_nat numElements)) at 1 2 by lia.
    rewrite (write_loop (fun x j => tadd x (at_ outside c j))) by lia.
    rewrite length_write_loop.
    rewrite (write_loop (fun _ j => tsub (at_ outside b j) (at_ outside c j))) by lia.
    destruct (i <? numElements) eqn:E; [apply Z.ltb_lt in E | apply Z.ltb_ge in E].
    + rewrite !bool_decide_eq_true_2 by lia. cbn [andb]. apply Hlaw. exact E.
    + rewrite bool_decide_eq_false_2 by lia. cbn [andb]. reflexivity.
Qed.

(** X25.  The overload of [setArrayToDifference] that takes indices
    subtracts from the elements of [b] the indices point to: it yields what
    the plain overload yields for the array of those elements. *)
Theorem setArrayToDifference_with_indices
    (a b c : list T) (indices' : list Z) (numElements : Z) :
  (Z.to_nat numElements <= length indices')%nat ->
  setArrayToDifferenceIndexed tsub outside a b c indices' numElements
  = setArrayToDifference tsub outside a (map (at_ outside b) indices') c numElements.
Proof.
  intros Hlen. unfold setArrayToDifferenceIndexed, setArrayToDifference.
  assert (Hin : forall i, In i (positions 0 numElements) -> 0 <= i < numElements).
  { intros i. apply in_positions. }
  revert a Hin. generalize (positions 0 numElements) as l.
  induction l as [|i l IH]; intros a Hin; [reflexivity|].
  cbn [fold_left]. rewrite IH by (intros j Hj; apply Hin; right; exact Hj).
  do 3 f_equal.
  specialize (Hin i ltac:(left; reflexivity)).
  unfold at_ at 2. rewrite list_lookup_fmap. unfold rd.
  destruct (indices' !! Z.to_nat i) as [x|] eqn:E; [reflexivity|].
  apply lookup_ge_None in E. lia.
Qed.

End ArrayFacts.

Lemma difference_then_sum_restores_witness :
  at_ 0 (addToArray add 0 (setArrayToDifference sub 0 [9; 9; 9] [1; 5; 7] [3; 2; 8] 2)
                    [3; 2; 8] 2) 0
  = if 0 <? 2 then at_ 0 [1; 5; 7] 0 else at_ 0 [9; 9; 9] 0.
Proof.
  apply (difference_then_sum_restores Z sub add 0 [9; 9; 9] [1; 5; 7] [3; 2; 8] 2 0).
  - cbn. lia.
  - lia.
  - intros _. vm_compute. reflexivity.
Defined.

Lemma setArrayToDifference_with_indices_witness :
  setArrayToDifferenceIndexed sub 0 [9; 9] [1; 5; 7] [3; 2] [2; 0] 2
  = setArrayToDifference sub 0 [9; 9] (map (at_ 0 [1; 5; 7]) [2; 0]) [3; 2] 2.
Proof.
  apply (setArrayToDifference_with_indices Z sub 0 [9; 9] [1; 5; 7] [3; 2] [2; 0] 2).
  cbn. lia.
Defined.

(** ** The sign of the quality score *)

Lemma negated_absolute_value_not_positive (x : float) : flt 0 (fneg (fabs x)) = false.
Proof.
  unfold flt, fneg, fabs.
  rewrite FloatAxioms.ltb_spec, FloatAxioms.opp_spec, FloatAxioms.abs_spec.
  change (Prim2SF 0) with (S754_zero false).
  destruct (Prim2SF x) as [s | s | | s m e]; reflexivity.
Qed.

(** X26.  The quality score [calculateLabelWisePrediction] yields is never
    greater than zero, whatever the predictions and the ground truth: it
    is zero, negative, or not a number. *)
Theorem quality_score_is_never_positive (predictions : list Z) (groundTruth : LabelMatrix) :
  flt 0 (overallQualityScore (calculateLabelWisePrediction predictions groundTruth)) = false.
Proof.
  unfold calculateLabelWisePrediction. cbn [overallQualityScore]. unfold qualityOf.
  apply negated_absolute_value_not_positive.
Qed.

(** ** The score does not tell the prediction from the ground truth *)

Lemma fmul_comm (x y : float) : fmul x y = fmul y x.
Proof.
  unfold fmul. apply FloatAxioms.Prim2SF_inj.
  rewrite !FloatAxioms.mul_spec.
  destruct (Prim2SF x) as [sx | sx | | sx mx ex], (Prim2SF y) as [sy | sy | | sy my ey];
    try reflexivity; unfold SF64mul, SFmul; rewrite ?(xorb_comm sx sy); try reflexivity.
  rewrite (Pos.mul_comm mx my), (Z.add_comm ex ey). reflexivity.
Qed.

Lemma products_comm (x y : list float) : Series.products x y = Series.products y x.
Proof.
  unfold Series.products. revert y.
  induction x as [|a x IH]; intros [|b y]; cbn; try reflexivity.
  rewrite fmul_comm, IH. reflexivity.
Qed.

(** X27.  The rule evaluation treats its two series alike: scoring a
    prediction vector against a ground truth gives, bit for bit, the
    quality score of scoring the ground truth as the prediction vector
    against the prediction vector as the ground truth, when both have one
    value per time slot. *)
Theorem quality_score_is_symmetric (predictions : list Z) (groundTruth other : LabelMatrix) :
  length predictions = length (values groundTruth) ->
  values other = predictions ->
  overallQualityScore (calculateLabelWisePrediction predictions groundTruth)
  = overallQualityScore (calculateLabelWisePrediction (values groundTruth) other).
Proof.
  intros Hlen Hother. unfold calculateLabelWisePrediction. cbn [overallQualityScore].
  rewrite Hother. rewrite !accumulateSums_spec by congruence. rewrite Hlen.
  unfold qualityOf, numeratorOf, xVarianceTerm, yVarianceTerm.
  cbn [xSum xSquaredSum ySum ySquaredSum productSum].
  rewrite (products_comm (map of_uint32 predictions)).
  rewrite (fmul_comm (Series.fsum (map of_uint32 predictions))).
  rewrite (fmul_comm (fsqrt _) (fsqrt _)).
  reflexivity.
Qed.

Lemma quality_score_is_symmetric_witness :
  overallQualityScore (calculateLabelWisePrediction [2; 1; 0] PerfectRule.labelMatrix)
  = overallQualityScore
      (calculateLabelWisePrediction (values PerfectRule.labelMatrix)
         {| timeSlots := [0; 0; 1; 1; 2; 2]; indices := [0; 2; 4; 6]; values := [2; 1; 0] |}).
Proof.
  apply (quality_score_is_symmetric [2; 1; 0] PerfectRule.labelMatrix
           {| timeSlots := [0; 0; 1; 1; 2; 2]; indices := [0; 2; 4; 6];
              values := [2; 1; 0] |}).
  - reflexivity.
  - reflexivity.
Defined.

(** ** The order of the stopping criteria *)

Lemma stoppingCriteriaPtr_rev (l : list StoppingCriterion) : stoppingCriteriaPtr l = rev l.
Proof.
  unfold stoppingCriteriaPtr. rewrite <- (app_nil_r (rev l)).
  generalize (@nil StoppingCriterion) as acc.
  induction l as [|c l IH]; intros acc; [reflexivity|].
  cbn [fold_left rev]. rewrite IH, <- app_assoc. reflexivity.
Qed.

Section StoppingOrder.

Variable statistics : Statistics.
Variable numRules' : Z.

Local Abbreviation answer c := (action (c statistics numRules')).

Lemma testStoppingCriteriaFrom_forced (pre post : list StoppingCriterion) c r0 :
  Forall (fun c' => answer c' <> FORCE_STOP) pre -> answer c = FORCE_STOP ->
  testStoppingCriteriaFrom (pre ++ c :: post) statistics numRules' r0 =
  {| action := FORCE_STOP; numRulesToUse := numRulesToUse (c statistics numRules') |}.
Proof.
  intros Hpre Hc. revert r0. induction Hpre as [|c' pre Hc' Hpre IH]; intros r0.
  - cbn. rewrite Hc. reflexivity.
  - cbn [app testStoppingCriteriaFrom].
    destruct (answer c') eqn:E; [apply IH | apply IH | contradiction].
Qed.

Lemma testStoppingCriteriaFrom_continues (post : list StoppingCriterion) r0 :
  Forall (fun c' => answer c' = CONTINUE) post ->
  testStoppingCriteriaFrom post statistics numRules' r0 = r0.
Proof.
  intros Hpost. induction Hpost as [|c' post Hc' Hpost IH]; [reflexivity|].
  cbn [testStoppingCriteriaFrom]. rewrite Hc'. exact IH.
Qed.

Lemma testStoppingCriteriaFrom_stored (pre post : list StoppingCriterion) c r0 :
  Forall (fun c' => answer c' <> FORCE_STOP) pre -> answer c = STORE_STOP ->
  Forall (fun c' => answer c' = CONTINUE) post ->
  testStoppingCriteriaFrom (pre ++ c :: post) statistics numRules' r0 =
  {| action := STORE_STOP; numRulesToUse := numRulesToUse (c statistics numRules') |}.
Proof.
  intros Hpre Hc Hpost. revert r0. induction Hpre as [|c' pre Hc' Hpre IH]; intros r0.
  - cbn. rewrite Hc. apply testStoppingCriteriaFrom_continues. exact Hpost.
  - cbn [app testStoppingCriteriaFrom].
    destruct (answer c') eqn:E; [apply IH | apply IH | contradiction].
Qed.

(** X28.  The driver tests the stopping criteria in the reverse of the
    order in which the wrapper's constructor was given them.  So, of the
    criteria of the given list, the last one that answers FORCE_STOP
    decides the test; and when none answers FORCE_STOP, the first one that
    answers STORE_STOP does. *)
Theorem stopping_criteria_are_tested_in_reverse
    (before after : list StoppingCriterion) (c : StoppingCriterion) :
  let result :=
    testStoppingCriteria (stoppingCriteriaPtr (before ++ c :: after)) statistics numRules' in
  (answer c = FORCE_STOP ->
   Forall (fun c' => answer c' <> FORCE_STOP) after ->
   result = {| action := FORCE_STOP;
               numRulesToUse := numRulesToUse (c statistics numRules') |})
  /\
  (answer c = STORE_STOP ->
   Forall (fun c' => answer c' = CONTINUE) before ->
   Forall (fun c' => answer c' <> FORCE_STOP) after ->
   result = {| action := STORE_STOP;
               numRulesToUse := numRulesToUse (c statistics numRules') |}).
Proof.
  cbn zeta. unfold testStoppingCriteria.
  rewrite stoppingCriteriaPtr_rev, rev_app_distr. cbn [rev]. rewrite <- app_assoc.
  cbn [app]. split.
  - intros Hc Hafter. apply testStoppingCriteriaFrom_forced; [|exact Hc].
    apply Forall_rev. exact Hafter.
  - intros Hc Hbefore Hafter. apply testStoppingCriteriaFrom_stored; [|exact Hc|].
    + apply Forall_rev. exact Hafter.
    + apply Forall_rev. exact Hbefore.
Qed.

End StoppingOrder.

(** ** The label matrix the constructor builds *)

Lemma rd_take (l : list Z) (n : nat) (i : Z) :
  (Z.to_nat i < n)%nat -> rd (take n l) i = rd l i.
Proof. intros H. unfold rd. rewrite lookup_take_lt by exact H. reflexivity. Qed.

Lemma increasing_chain (f : Z -> Z) (N : Z) :
  (forall t, 0 <= t < N -> f t < f (t + 1)) ->
  forall a b, 0 <= a <= b -> b <= N -> f a <= f b.
Proof.
  intros Hinc a b Hab HbN.
  remember (Z.to_nat (b - a)) as n eqn:En. revert b Hab HbN En.
  induction n as [|n IH]; intros b Hab HbN En.
  - replace b with a by lia. lia.
  - specialize (IH (b - 1) ltac:(lia) ltac:(lia) ltac:(lia)).
    specialize (Hinc (b - 1) ltac:(lia)).
    replace (b - 1 + 1) with b in Hinc by lia. lia.
Qed.

Section LabelMatrixConstruction.

Variable numRows numCols : Z.
Variable array : list Z.

(** The timestamp and the value of an example, as the constructor reads
    them. *)
Local Abbreviation timestampOf j := (rd array (wrap32 (j * numCols))).
Local Abbreviation valueOf j := (rd array (add (wrap32 (j * numCols)) 1)).

Hypothesis rows : 1 <= numRows < modulus.

(** What holds after the examples below [k] have been grouped. *)
Local Abbreviation grouped k b :=
  (length (timeSlots_ b) = Z.to_nat numRows /\
   length (indices_ b) = Z.to_nat numRows /\
   length (values_ b) = Z.to_nat numRows /\
   0 <= timeSlotIndex b < k /\
   previousTimestamp b = timestampOf (k - 1) /\
   rd (timeSlots_ b) (k - 1) = timeSlotIndex b /\
   rd (timeSlots_ b) 0 = 0 /\
   (forall j, 0 <= j -> j + 1 < k ->
      rd (timeSlots_ b) (j + 1) =
      rd (timeSlots_ b) j + (if timestampOf (j + 1) =? timestampOf j then 0 else 1)) /\
   rd (indices_ b) 0 = 0 /\
   (forall t, 0 <= t < timeSlotIndex b -> rd (indices_ b) t < rd (indices_ b) (t + 1)) /\
   (forall j, 0 <= j < k ->
      0 <= rd (timeSlots_ b) j <= timeSlotIndex b /\
      rd (indices_ b) (rd (timeSlots_ b) j) <= j /\
      (rd (timeSlots_ b) j < timeSlotIndex b ->
       j < rd (indices_ b) (rd (timeSlots_ b) j + 1))) /\
   (forall t, 0 <= t <= timeSlotIndex b -> rd (values_ b) t = valueOf (rd (indices_ b) t)) /\
   (forall j, 0 <= j -> j + 1 < k -> timestampOf (j + 1) = timestampOf j ->
      timeSlotIndex b + 2 <= k)).

Lemma groupExample_grouped (k : Z) (b : LabelMatrixBuild) :
  1 <= k < numRows -> grouped k b -> grouped (k + 1) (groupExample numCols array b k).
Proof.
  intros Hk (HlT & HlI & HlV & Htsi & Hprev & Hlast & HT0 & HTstep & HI0 & HIinc & Hslot
             & Hval & Hrep).
  unfold groupExample. cbn zeta.
  replace (k + 1 - 1) with k by lia.
  destruct (timestampOf k =? previousTimestamp b) eqn:E;
    [apply Z.eqb_eq in E | apply Z.eqb_neq in E]; cbn [negb];
    cbn [timeSlots_ indices_ values_ timeSlotIndex previousTimestamp].
  - (* the example belongs to the current time slot *)
    rewrite length_wr.
    assert (Hne : forall j, 0 <= j < k -> rd (wr (timeSlots_ b) k (timeSlotIndex b)) j =
                                        rd (timeSlots_ b) j).
    { intros j Hj. apply rd_wr_ne; lia. }
    assert (Heq : rd (wr (timeSlots_ b) k (timeSlotIndex b)) k = timeSlotIndex b).
    { apply rd_wr_eq. lia. }
    refine (conj _ (conj _ (conj _ (conj _ (conj _ (conj _ (conj _ (conj _ (conj _
             (conj _ (conj _ (conj _ _)))))))))))).
    + exact HlT.
    + exact HlI.
    + exact HlV.
    + lia.
    + symmetry. exact E.
    + exact Heq.
    + rewrite Hne by lia. exact HT0.
    + intros j Hj0 Hj. destruct (decide (j + 1 = k)) as [Hjk|Hjk].
      * rewrite Hjk, Heq, Hne by lia. replace j with (k - 1) by lia.
        rewrite Hlast. replace (k - 1 + 1) with k by lia.
        rewrite E, Hprev, Z.eqb_refl. lia.
      * rewrite !Hne by lia. apply HTstep; lia.
    + exact HI0.
    + exact HIinc.
    + intros j Hj. destruct (decide (j = k)) as [->|Hjk].
      * rewrite Heq. specialize (Hslot (k - 1) ltac:(lia)). rewrite Hlast in Hslot.
        split; [lia|]. split; [lia|]. intros Hlt. lia.
      * rewrite Hne by lia. apply Hslot. lia.
    + exact Hval.
    + intros j Hj0 Hj Hsame. destruct (decide (j + 1 = k)) as [Hjk|Hjk]; [lia|].
      specialize (Hrep j Hj0 ltac:(lia) Hsame). lia.
  - (* the example opens a new time slot *)
    assert (Hadd : add (timeSlotIndex b) 1 = timeSlotIndex b + 1).
    { unfold add. apply wrap32_small. unfold modulus in *. lia. }
    rewrite Hadd. rewrite !length_wr.
    set (tsi' := timeSlotIndex b + 1).
    assert (HneT : forall j, 0 <= j < k -> rd (wr (timeSlots_ b) k tsi') j = rd (timeSlots_ b) j).
    { intros j Hj. apply rd_wr_ne; lia. }
    assert (HeqT : rd (wr (timeSlots_ b) k tsi') k = tsi').
    { apply rd_wr_eq. lia. }
    assert (HneI : forall t, 0 <= t <= timeSlotIndex b ->
                             rd (wr (indices_ b) tsi' k) t = rd (indices_ b) t).
    { intros t Ht. apply rd_wr_ne; subst tsi'; lia. }
    assert (HeqI : rd (wr (indices_ b) tsi' k) tsi' = k).
    { apply rd_wr_eq. subst tsi'. lia. }
    assert (Hlastle : rd (indices_ b) (timeSlotIndex b) <= k - 1).
    { specialize (Hslot (k - 1) ltac:(lia)). rewrite Hlast in Hslot. lia. }
    refine (conj _ (conj _ (conj _ (conj _ (conj _ (conj _ (conj _ (conj _ (conj _
             (conj _ (conj _ (conj _ _)))))))))))).
    + exact HlT.
    + exact HlI.
    + exact HlV.
    + subst tsi'. lia.
    + reflexivity.
    + exact HeqT.
    + rewrite HneT by lia. exact HT0.
    + intros j Hj0 Hj. destruct (decide (j + 1 = k)) as [Hjk|Hjk].
      * rewrite Hjk, HeqT, HneT by lia. replace j with (k - 1) by lia.
        rewrite Hlast. replace (k - 1 + 1) with k by lia.
        rewrite <- Hprev.
        assert (En : (timestampOf k =? previousTimestamp b) = false)
          by (apply Z.eqb_neq; exact E).
        rewrite En. reflexivity.
      * rewrite !HneT by lia. apply HTstep; lia.
    + rewrite HneI by lia. exact HI0.
    + intros t Ht. destruct (decide (t = timeSlotIndex b)) as [->|Hne].
      * fold tsi'. rewrite HeqI, HneI by lia. lia.
      * rewrite !HneI by (subst tsi'; lia). apply HIinc. subst tsi'. lia.
    + intros j Hj. destruct (decide (j = k)) as [->|Hjk].
      * rewrite HeqT, HeqI. split; [subst tsi'; lia|]. split; [lia|]. intros Hlt. lia.
      * rewrite HneT by lia. specialize (Hslot j ltac:(lia)).
        destruct Hslot as (Hs1 & Hs2 & Hs3).
        split; [subst tsi'; lia|]. split; [rewrite HneI by lia; exact Hs2|].
        intros _. destruct (decide (rd (timeSlots_ b) j = timeSlotIndex b)) as [Hcur|Hcur].
        -- rewrite Hcur. fold tsi'. rewrite HeqI. lia.
        -- rewrite HneI by lia. apply Hs3. lia.
    + intros t Ht. destruct (decide (t = tsi')) as [->|Hne].
      * rewrite HeqI. apply rd_wr_eq. subst tsi'. lia.
      * rewrite HneI by (subst tsi'; lia).
        rewrite rd_wr_ne by (subst tsi'; lia). apply Hval. subst tsi'. lia.
    + intros j Hj0 Hj Hsame. destruct (decide (j + 1 = k)) as [Hjk|Hjk].
      * exfalso. apply E. rewrite Hprev. rewrite <- Hjk. replace (j + 1 - 1) with j by lia.
        exact Hsame.
      * specialize (Hrep j Hj0 ltac:(lia) Hsame). subst tsi'. lia.
Qed.

Lemma groupExamples_loop (n : nat) (k : Z) (b : LabelMatrixBuild) :
  1 <= k -> k + Z.of_nat n = numRows -> grouped k b ->
  grouped numRows (fold_left (groupExample numCols array) (positions k numRows) b).
Proof.
  revert k b. induction n as [|n IH]; intros k b Hk Hn Hb.
  - rewrite positions_nil by lia. cbn [fold_left]. assert (Hk' : k = numRows) by lia. subst k. exact Hb.
  - rewrite positions_cons by lia. cbn [fold_left].
    apply (IH (k + 1)); [lia | lia |].
    apply groupExample_grouped; [lia | exact Hb].
Qed.

Variable uninitialisedTimeSlots uninitialisedIndices uninitialisedValues : list Z.

Hypothesis blockOfTimeSlots : (Z.to_nat numRows <= length uninitialisedTimeSlots)%nat.
Hypothesis blockOfIndices : (Z.to_nat numRows <= length uninitialisedIndices)%nat.
Hypothesis blockOfValues : (Z.to_nat numRows <= length uninitialisedValues)%nat.

Lemma groupExamples_grouped :
  grouped numRows (groupExamples numRows numCols array uninitialisedTimeSlots
                                 uninitialisedIndices uninitialisedValues).
Proof.
  unfold groupExamples.
  apply (groupExamples_loop (Z.to_nat (numRows - 1)) 1); [lia | lia |].
  cbn [newDenseVector array_ timeSlots_ indices_ values_ timeSlotIndex previousTimestamp].
  rewrite !length_wr, !length_take.
  assert (H0 : forall u v, (Z.to_nat numRows <= length u)%nat ->
                           rd (wr (take (Z.to_nat numRows) u) 0 v) 0 = v).
  { intros u v Hu. apply rd_wr_eq. rewrite length_take. lia. }
  change (1 - 1) with 0.
  change (wrap32 (0 * numCols)) with 0. change (add 0 1) with 1.
  rewrite !H0 by assumption.
  refine (conj _ (conj _ (conj _ (conj _ (conj _ (conj _ (conj _ (conj _ (conj _
           (conj _ (conj _ (conj _ _)))))))))))); try lia; try reflexivity.
  - intros j Hj. replace j with 0 by lia. rewrite !H0 by assumption.
    split; [lia|]. split; [lia|]. intros Hlt. lia.
  - intros t Ht. replace t with 0 by lia. rewrite !H0 by assumption.
    change (wrap32 (0 * numCols)) with 0. reflexivity.
Qed.

Hypothesis shared :
  exists j, 0 <= j /\ j + 1 < numRows /\ timestampOf (j + 1) = timestampOf j.

Variable appendedIndices appendedValues : list Z.

Local Abbreviation built :=
  (newLabelMatrix numRows numCols array uninitialisedTimeSlots uninitialisedIndices
                  uninitialisedValues appendedIndices appendedValues).

(** What the constructor leaves in the three vectors. *)
Lemma newLabelMatrix_vectors :
  exists b numTimeSlots,
    grouped numRows b /\
    numTimeSlots = timeSlotIndex b + 1 /\ numTimeSlots < numRows /\
    timeSlots built = timeSlots_ b /\
    indices built = take (Z.to_nat (numTimeSlots + 1)) (wr (indices_ b) numTimeSlots numRows) /\
    values built = take (Z.to_nat numTimeSlots) (values_ b).
Proof.
  pose proof groupExamples_grouped as Hb.
  set (b := groupExamples numRows numCols array uninitialisedTimeSlots
                          uninitialisedIndices uninitialisedValues) in *.
  exists b, (timeSlotIndex b + 1).
  destruct Hb as (HlT & HlI & HlV & Htsi & Hprev & Hlast & HT0 & HTstep & HI0 & HIinc & Hslot
                  & Hval & Hrep).
  destruct shared as (j & Hj0 & Hj & Hsame).
  pose proof (Hrep j Hj0 Hj Hsame) as Hbound.
  assert (Hadd : add (timeSlotIndex b) 1 = timeSlotIndex b + 1).
  { unfold add. apply wrap32_small. unfold modulus in *. lia. }
  assert (Hadd2 : add (timeSlotIndex b + 1) 1 = timeSlotIndex b + 2).
  { replace (timeSlotIndex b + 2) with (timeSlotIndex b + 1 + 1) by lia.
    unfold add. apply wrap32_small. unfold modulus in *. lia. }
  split.
  { refine (conj _ (conj _ (conj _ (conj _ (conj _ (conj _ (conj _ (conj _ (conj _
             (conj _ (conj _ (conj _ _)))))))))))); assumption. }
  split; [reflexivity|]. split; [lia|].
  unfold newLabelMatrix. cbn zeta. fold b. rewrite Hadd, Hadd2.
  cbn [timeSlots indices values]. split; [reflexivity|]. split.
  - unfold setNumElements. cbn [maxCapacity_ array_].
    destruct (timeSlotIndex b + 2 <? numRows) eqn:E;
      [apply Z.ltb_lt in E | apply Z.ltb_ge in E].
    + cbn [array_]. unfold realloc. rewrite length_wr.
      replace (Z.to_nat (timeSlotIndex b + 2) - length (indices_ b))%nat with 0%nat by lia.
      cbn [take]. rewrite app_nil_r.
      replace (timeSlotIndex b + 1 + 1) with (timeSlotIndex b + 2) by lia. reflexivity.
    + assert (E' : (numRows <? timeSlotIndex b + 2) = false) by (apply Z.ltb_ge; lia).
      rewrite E'. cbn [array_]. symmetry. apply take_ge. rewrite length_wr. lia.
  - unfold setNumElements. cbn [maxCapacity_ array_].
    assert (E : (timeSlotIndex b + 1 <? numRows) = true) by (apply Z.ltb_lt; lia).
    rewrite E. cbn [array_]. unfold realloc.
    replace (Z.to_nat (timeSlotIndex b + 1) - length (values_ b))%nat with 0%nat by lia.
    cbn [take]. apply app_nil_r.
Qed.

Lemma newLabelMatrix_reads :
  exists b,
    grouped numRows b /\
    timeSlotIndex b + 2 <= numRows /\
    getNumRows built = numRows /\
    getNumTimeSlots built = timeSlotIndex b + 1 /\
    Z.of_nat (length (indices built)) = timeSlotIndex b + 2 /\
    timeSlots built = timeSlots_ b /\
    (forall t, 0 <= t <= timeSlotIndex b -> rd (indices built) t = rd (indices_ b) t) /\
    rd (indices built) (timeSlotIndex b + 1) = numRows /\
    (forall t, 0 <= t <= timeSlotIndex b -> rd (values built) t = rd (values_ b) t).
Proof.
  destruct newLabelMatrix_vectors as (b & n & Hb & Hn & Hlt & HT & HI & HV).
  exists b. subst n.
  pose proof Hb as (HlT & HlI & HlV & Htsi & _).
  split; [exact Hb|]. split; [lia|].
  unfold getNumRows, getNumTimeSlots. rewrite HT, HI, HV.
  rewrite !length_take, length_wr.
  split; [lia|]. split; [lia|]. split; [lia|]. split; [reflexivity|].
  split; [|split].
  - intros t Ht. rewrite rd_take by lia. apply rd_wr_ne; lia.
  - rewrite rd_take by lia. apply rd_wr_eq. lia.
  - intros t Ht. apply rd_take. lia.
Qed.

(** X29.  When some two consecutive examples carry the same timestamp, the
    label matrix built from the rows has as many rows as examples and fewer
    time slots than rows; its vector of indices has one element more than
    there are time slots, starts with 0, ends with the number of rows and is
    strictly increasing in between, so that the slots are in order. *)
Theorem newLabelMatrix_slots_partition_the_rows :
  getNumRows built = numRows
  /\ 1 <= getNumTimeSlots built < numRows
  /\ Z.of_nat (length (indices built)) = getNumTimeSlots built + 1
  /\ rd (indices built) 0 = 0
  /\ rd (indices built) (getNumTimeSlots built) = numRows
  /\ (forall t, 0 <= t < getNumTimeSlots built ->
        rd (indices built) t < rd (indices built) (t + 1))
  /\ slotsInOrder built.
Proof.
  destruct newLabelMatrix_reads
    as (b & Hb & Hbound & Hrows & Hslots & Hlen & HT & HI & Hend & HV).
  destruct Hb as (HlT & HlI & HlV & Htsi & Hprev & Hlast & HT0 & HTstep & HI0 & HIinc & Hslot
                  & Hval & Hrep).
  assert (Hinc : forall t, 0 <= t < getNumTimeSlots built ->
                           rd (indices built) t < rd (indices built) (t + 1)).
  { intros t Ht. rewrite Hslots in Ht.
    destruct (Z.eq_dec t (timeSlotIndex b)) as [->|Hne].
    - rewrite Hend, HI by lia.
      destruct (Hslot (numRows - 1) ltac:(lia)) as (_ & Hle & _).
      rewrite Hlast in Hle. lia.
    - rewrite !HI by lia. apply HIinc. lia. }
  assert (Hfirst : rd (indices built) 0 = 0) by (rewrite HI by lia; exact HI0).
  assert (Hlastindex : rd (indices built) (getNumTimeSlots built) = numRows)
    by (rewrite Hslots; exact Hend).
  refine (conj Hrows (conj _ (conj _ (conj Hfirst (conj Hlastindex (conj Hinc _)))))).
  - lia.
  - lia.
  - intros t Ht. rewrite Hrows.
    pose proof (increasing_chain (rd (indices built)) (getNumTimeSlots built) Hinc) as Hmono.
    pose proof (Hmono 0 t ltac:(lia) ltac:(lia)) as H1.
    pose proof (Hmono (t + 1) (getNumTimeSlots built) ltac:(lia) ltac:(lia)) as H2.
    pose proof (Hinc t Ht) as H3. lia.
Qed.

(** X30.  When some two consecutive examples carry the same timestamp, the
    label matrix built from the rows gives the first example the time slot 0
    and every further example the time slot of its predecessor if both carry
    the same timestamp and the next time slot otherwise; every example lies
    in the range of indices of its time slot, and the value of that time slot
    is the value in the row of the first example of the range. *)
Theorem newLabelMatrix_groups_examples_by_timestamp :
  rd (timeSlots built) 0 = 0
  /\ (forall j, 0 <= j -> j + 1 < numRows ->
        rd (timeSlots built) (j + 1)
        = rd (timeSlots built) j
          + (if timestampOf (j + 1) =? timestampOf j then 0 else 1))
  /\ (forall j, 0 <= j < numRows ->
        0 <= rd (timeSlots built) j < getNumTimeSlots built
        /\ rd (indices built) (rd (timeSlots built) j) <= j
        /\ j < rd (indices built) (rd (timeSlots built) j + 1)
        /\ rd (values built) (rd (timeSlots built) j)
           = valueOf (rd (indices built) (rd (timeSlots built) j))).
Proof.
  destruct newLabelMatrix_reads
    as (b & Hb & Hbound & Hrows & Hslots & Hlen & HT & HI & Hend & HV).
  destruct Hb as (HlT & HlI & HlV & Htsi & Hprev & Hlast & HT0 & HTstep & HI0 & HIinc & Hslot
                  & Hval & Hrep).
  rewrite HT, Hslots.
  split; [exact HT0|]. split; [exact HTstep|].
  intros j Hj. destruct (Hslot j Hj) as (Ht & Hle & Hlt).
  rewrite HI, HV by lia. rewrite Hval by lia.
  split; [lia|]. split; [exact Hle|]. split; [|reflexivity].
  destruct (Z.eq_dec (rd (timeSlots_ b) j) (timeSlotIndex b)) as [E|Hne].
  - rewrite E, Hend. lia.
  - rewrite HI by lia. apply Hlt. lia.
Qed.

End LabelMatrixConstruction.

Lemma newLabelMatrix_slots_partition_the_rows_witness :
  let m := newLabelMatrix 6 2 [10; 2; 10; 5; 11; 0; 11; 5; 12; 2; 12; 5]
                          [7; 7; 7; 7; 7; 7] [7; 7; 7; 7; 7; 7] [7; 7; 7; 7; 7; 7] [] [] in
  getNumRows m = 6
  /\ 1 <= getNumTimeSlots m < 6
  /\ Z.of_nat (length (indices m)) = getNumTimeSlots m + 1
  /\ rd (indices m) 0 = 0
  /\ rd (indices m) (getNumTimeSlots m) = 6
  /\ (forall t, 0 <= t < getNumTimeSlots m -> rd (indices m) t < rd (indices m) (t + 1))
  /\ slotsInOrder m.
Proof.
  apply (newLabelMatrix_slots_partition_the_rows 6 2
           [10; 2; 10; 5; 11; 0; 11; 5; 12; 2; 12; 5]).
  - unfold modulus. lia.
  - cbn. lia.
  - cbn. lia.
  - cbn. lia.
  - exists 0. split; [lia|]. split; [lia|]. reflexivity.
Defined.

Lemma newLabelMatrix_groups_examples_by_timestamp_witness :
  let array := [10; 2; 10; 5; 11; 0; 11; 5; 12; 2; 12; 5] in
  let m := newLabelMatrix 6 2 array
                          [7; 7; 7; 7; 7; 7] [7; 7; 7; 7; 7; 7] [7; 7; 7; 7; 7; 7] [] [] in
  rd (timeSlots m) 0 = 0
  /\ (forall j, 0 <= j -> j + 1 < 6 ->
        rd (timeSlots m) (j + 1)
        = rd (timeSlots m) j
          + (if rd array (wrap32 ((j + 1) * 2)) =? rd array (wrap32 (j * 2)) then 0 else 1))
  /\ (forall j, 0 <= j < 6 ->
        0 <= rd (timeSlots m) j < getNumTimeSlots m
        /\ rd (indices m) (rd (timeSlots m) j) <= j
        /\ j < rd (indices m) (rd (timeSlots m) j + 1)
        /\ rd (values m) (rd (timeSlots m) j)
           = rd array (add (wrap32 (rd (indices m) (rd (timeSlots m) j) * 2)) 1)).
Proof.
  apply (newLabelMatrix_groups_examples_by_timestamp 6 2
           [10; 2; 10; 5; 11; 0; 11; 5; 12; 2; 12; 5]).
  - unfold modulus. lia.
  - cbn. lia.
  - cbn. lia.
  - cbn. lia.
  - exists 0. split; [lia|]. split; [lia|]. reflexivity.
Defined.
